(** * NGIN::Containers::String and NGIN::Utilities::LSBFlag

    A shallow embedding of [String.hpp] (small-buffer-optimised string) and
    of [LSBFlag.hpp] (value + flag packed in one unsigned word).

    Platform: LP64, little-endian (x86-64, AArch64).  [std::size_t] and
    [char*] are 64-bit words, [sizeof(String) = sboSize = 48], and the union
    [StorageUnion] is laid out as

      offset  0.. 7   normal.data            | small.sboBuffer[0..46]
      offset  8..15   normal.capacity        |
      offset 16..39   normal.padding         |
      offset 40..47   normal.sizeFlag        | 47: small.remainingSizeFlag

    The union is modelled byte for byte, so that the mode bit that
    [IsSmall] reads through the small view is really the top byte of the
    little-endian [sizeFlag] word of the normal view. *)

From Stdlib Require Import ZArith Lia.
From stdpp Require Import base list gmap.

Open Scope Z_scope.

(* ================================================================== *)
(** ** LSBFlag<T> *)
(* ================================================================== *)

(** An object [LSBFlag<T>] is its single member [T data], a [bits]-bit
    unsigned word.  Arithmetic on [T] is carried out in a wider type and
    converted back to [T] on assignment, which is [wrap]. *)
Module LSBFlag.

Definition wrap (bits : Z) (x : Z) : Z := x mod 2 ^ bits.

(** [LSBFlag()] : [data(0)] *)
Definition Default : Z := 0.

(** [LSBFlag(T value, bool flag)] :
    [data((value << 1) | static_cast<T>(flag))] *)
Definition LSBFlag (bits : Z) (value : Z) (flag : bool) : Z :=
  wrap bits (Z.lor (Z.shiftl value 1) (Z.b2z flag)).

(** [data = (value << 1) | (data & static_cast<T>(1))] *)
Definition SetValue (bits : Z) (data value : Z) : Z :=
  wrap bits (Z.lor (Z.shiftl value 1) (Z.land data 1)).

(** [return data >> 1] *)
Definition GetValue (data : Z) : Z := Z.shiftr data 1.

(** [data = (data & ~static_cast<T>(1)) | static_cast<T>(flag)] *)
Definition SetFlag (bits : Z) (data : Z) (flag : bool) : Z :=
  wrap bits (Z.lor (Z.land data (wrap bits (Z.lnot 1))) (Z.b2z flag)).

(** [return static_cast<bool>(data & static_cast<T>(1))] *)
Definition GetFlag (data : Z) : bool := negb (Z.land data 1 =? 0).

(** [data = (value << 1) | static_cast<T>(flag)] *)
Definition Set_ (bits : Z) (value : Z) (flag : bool) : Z :=
  wrap bits (Z.lor (Z.shiftl value 1) (Z.b2z flag)).

Definition GetRaw (data : Z) : Z := data.
Definition SetRaw (data : Z) : Z := data.

(** [operator==] / [operator!=] *)
Definition eqb (a b : Z) : bool := a =? b.
Definition neqb (a b : Z) : bool := negb (a =? b).

End LSBFlag.

(* ================================================================== *)
(** ** Bytes, words and arrays *)
(* ================================================================== *)

(** A byte is a [Z]; an array is a [list Z].  Multi-byte members of the
    union are stored little-endian. *)

Fixpoint le_bytes (n : nat) (v : Z) : list Z :=
  match n with
  | O => []
  | S n' => v mod 256 :: le_bytes n' (v / 256)
  end.

Fixpoint le_value (bs : list Z) : Z :=
  match bs with
  | [] => 0
  | b :: bs' => b + 256 * le_value bs'
  end.

Abbreviation len l := (Z.of_nat (length l)).

(** [slice off n arr] : the [n] bytes of [arr] from offset [off]. *)
Definition slice (off n : Z) (arr : list Z) : list Z :=
  take (Z.to_nat n) (drop (Z.to_nat off) arr).

(** [put off bs arr] : [arr] with the bytes [bs] written from offset [off]. *)
Definition put (off : Z) (bs arr : list Z) : list Z :=
  take (Z.to_nat off) arr ++ bs ++ drop (Z.to_nat off + length bs) arr.

Definition in_bounds (off n : Z) (arr : list Z) : bool :=
  (0 <=? off) && (0 <=? n) && (off + n <=? Z.of_nat (length arr)).

(** Index of the first zero byte of an array, as [std::strlen] finds it;
    [None] when the scan runs off the array. *)
Fixpoint strlen_list (arr : list Z) : option Z :=
  match arr with
  | [] => None
  | c :: arr' => if c =? 0 then Some 0 else Z.succ <$> strlen_list arr'
  end.

(** A text: bytes none of which is the terminator. *)
Definition no_nul (s : list Z) : Prop := Forall (fun c => c <> 0) s.

(* ================================================================== *)
(** ** The store: String objects, the free store, pointers *)
(* ================================================================== *)

(** Addresses handed out by [new[]] stay below [heap_limit] (the user half
    of a 48-bit virtual address space). *)
Definition heap_limit : Z := 2 ^ 47.

Record World := mkWorld {
  heap : gmap Z (list Z);   (** live [new char[n]] blocks, by base address *)
  brk  : Z;                 (** next base address [new[]] returns *)
  objs : gmap Z (list Z);   (** the union [buffer] of each live String *)
  junk : Z -> Z -> Z        (** [junk a i] : the indeterminate byte found at
                                offset [i] of a block freshly allocated at [a] *)
}.

Inductive pointer :=
| Null
| Lit (arr : list Z) (off : Z)   (** into an array outside the store: a
                                       literal, a caller's [c_str()] *)
| Obj (this : Z) (off : Z)       (** into [this->buffer] *)
| Heap (base : Z) (off : Z).     (** into the [new[]] block at [base] *)

(** The value of a [char*] member read back from its 8 bytes. *)
Definition to_ptr (a : Z) : pointer := if a =? 0 then Null else Heap a 0.

(** [p + n] *)
Definition padd (p : pointer) (n : Z) : pointer :=
  match p with
  | Null => Null
  | Lit arr off => Lit arr (off + n)
  | Obj this off => Obj this (off + n)
  | Heap base off => Heap base (off + n)
  end.

(** Outcome of running a piece of code: a value and the new store, a thrown
    [std::bad_alloc] with the store as it is where [new[]] throws, or
    undefined behaviour (a bad pointer, a copy that leaves its array, an
    invalid [delete[]]). *)
Inductive result (A : Type) : Type :=
| Ok (a : A) (w : World)
| BadAlloc (w : World)
| Undefined.
Arguments Ok {A} a w.
Arguments BadAlloc {A} w.
Arguments Undefined {A}.

Definition M (A : Type) : Type := World -> result A.

Definition ret {A} (a : A) : M A := fun w => Ok a w.

Definition bind {A B} (m : M A) (k : A -> M B) : M B :=
  fun w =>
    match m w with
    | Ok a w' => k a w'
    | BadAlloc w' => BadAlloc w'
    | Undefined => Undefined
    end.

Notation "'let*' x ':=' m 'in' k" := (bind m (fun x => k))
  (at level 10, x name, m at level 100, k at level 200).
Notation "'do*' m 'in' k" := (bind m (fun _ => k))
  (at level 10, m at level 100, k at level 200).

Definition set_heap (h : gmap Z (list Z)) (w : World) : World :=
  mkWorld h (brk w) (objs w) (junk w).
Definition set_objs (o : gmap Z (list Z)) (w : World) : World :=
  mkWorld (heap w) (brk w) o (junk w).

(** The array a pointer points into, and the offset in it. *)
Definition array_of (p : pointer) (w : World) : option (list Z * Z) :=
  match p with
  | Null => None
  | Lit arr off => Some (arr, off)
  | Obj this off => (fun arr => (arr, off)) <$> objs w !! this
  | Heap base off => (fun arr => (arr, off)) <$> heap w !! base
  end.

(** Read [n] bytes at [p].  No byte is touched when [n = 0]. *)
Definition load (p : pointer) (n : Z) : M (list Z) :=
  fun w =>
    if n =? 0 then Ok [] w
    else match array_of p w with
         | Some (arr, off) =>
             if in_bounds off n arr then Ok (slice off n arr) w else Undefined
         | None => Undefined
         end.

(** Write the bytes [bs] at [p]. *)
Definition store (p : pointer) (bs : list Z) : M unit :=
  fun w =>
    match bs with
    | [] => Ok tt w
    | _ :: _ =>
        match p with
        | Obj this off =>
            match objs w !! this with
            | Some arr =>
                if in_bounds off (Z.of_nat (length bs)) arr
                then Ok tt (set_objs (<[this := put off bs arr]> (objs w)) w)
                else Undefined
            | None => Undefined
            end
        | Heap base off =>
            match heap w !! base with
            | Some arr =>
                if in_bounds off (Z.of_nat (length bs)) arr
                then Ok tt (set_heap (<[base := put off bs arr]> (heap w)) w)
                else Undefined
            | None => Undefined
            end
        | Null | Lit _ _ => Undefined
        end
    end.

(** [std::memcpy(dst, src, n)].  The source bytes are all read before any
    is written; on disjoint ranges this is the C semantics, and on
    overlapping ranges (undefined in C) it is what copying through
    registers does. *)
Definition memcpy (dst src : pointer) (n : Z) : M unit :=
  let* bs := load src n in store dst bs.

(** [std::strlen(p)] *)
Definition strlen (p : pointer) : M Z :=
  fun w =>
    match array_of p w with
    | Some (arr, off) =>
        if 0 <=? off then
          match strlen_list (drop (Z.to_nat off) arr) with
          | Some n => Ok n w
          | None => Undefined
          end
        else Undefined
    | None => Undefined
    end.

(** The text a [const char*] denotes: the bytes before the first
    terminator ([std::strcmp] compares these).  A null pointer denotes
    no text. *)
Definition c_str (p : pointer) (w : World) : option (list Z) :=
  match strlen p w with
  | Ok n _ =>
      match array_of p w with
      | Some (arr, off) => Some (slice off n arr)
      | None => None
      end
  | _ => None
  end.

(** The block [new char[n]] returns in [w], before anything is written. *)
Definition fresh_block (w : World) (n : Z) : list Z :=
  junk w (brk w) <$> seqZ 0 n.

(** [new char[n]] : a fresh block of [n] indeterminate bytes, or
    [std::bad_alloc] thrown with the store untouched. *)
Definition new_array (n : Z) : M Z :=
  fun w =>
    if brk w + Z.max n 1 <=? heap_limit then
      Ok (brk w)
         (mkWorld (<[brk w := fresh_block w n]> (heap w))
                  (brk w + Z.max n 1) (objs w) (junk w))
    else BadAlloc w.

(** [delete[] p] for the [char*] value [a]. *)
Definition delete_array (a : Z) : M unit :=
  fun w =>
    if a =? 0 then Ok tt w
    else match heap w !! a with
         | Some _ => Ok tt (set_heap (delete a (heap w)) w)
         | None => Undefined
         end.

(* ================================================================== *)
(** ** String *)
(* ================================================================== *)

Module String.

(** [static constexpr std::size_t sboSize = 48] *)
Definition sboSize : Z := 48.

(** Arithmetic in [std::size_t], and [static_cast<uint8_t>]. *)
Definition wrap64 (x : Z) : Z := LSBFlag.wrap 64 x.
Definition wrap8 (x : Z) : Z := LSBFlag.wrap 8 x.

(** Offsets of the members of [StorageUnion]. *)
Definition normal_data : Z := 0.
Definition normal_capacity : Z := 8.
Definition normal_sizeFlag : Z := 40.
Definition small_sboBuffer : Z := 0.
Definition small_remainingSizeFlag : Z := sboSize - 1.

(** Reading and writing a [size_t] / [char*] member and a [uint8_t]
    member of [this->buffer]. *)
Definition get_word (this off : Z) : M Z :=
  let* bs := load (Obj this off) 8 in ret (le_value bs).
Definition set_word (this off v : Z) : M unit :=
  store (Obj this off) (le_bytes 8 v).
Definition get_byte (this off : Z) : M Z :=
  let* bs := load (Obj this off) 1 in ret (le_value bs).
Definition set_byte (this off v : Z) : M unit :=
  store (Obj this off) (le_bytes 1 v).

(** [std::memset(&buffer, 0, sizeof(buffer))]; in a constructor this is
    also where the storage of [this] comes to life. *)
Definition memset_buffer (this : Z) : M unit :=
  fun w => Ok tt (set_objs (<[this := replicate (Z.to_nat sboSize) 0]> (objs w)) w).

(** [return buffer.small.remainingSizeFlag.GetFlag()] *)
Definition IsSmall (this : Z) : M bool :=
  let* d := get_byte this small_remainingSizeFlag in
  ret (LSBFlag.GetFlag d).

Definition GetSize (this : Z) : M Z :=
  let* small := IsSmall this in
  if small then
    let* d := get_byte this small_remainingSizeFlag in
    let remaining := LSBFlag.GetValue d in
    ret (wrap64 ((sboSize - 1) - remaining))
  else
    let* d := get_word this normal_sizeFlag in
    ret (LSBFlag.GetValue d).

(** [return IsSmall() ? buffer.small.sboBuffer : buffer.normal.data] *)
Definition CStr (this : Z) : M pointer :=
  let* small := IsSmall this in
  if small then ret (Obj this small_sboBuffer)
  else let* data := get_word this normal_data in ret (to_ptr data).

(** [String()] *)
Definition String_default (this : Z) : M unit :=
  do* memset_buffer this in
  let maxRemaining := wrap8 (sboSize - 1) in
  do* set_byte this small_remainingSizeFlag (LSBFlag.Set_ 8 maxRemaining true) in
  store (Obj this small_sboBuffer) [0].

Definition is_null (p : pointer) : bool :=
  match p with Null => true | _ => false end.

(** [String(const char* str)] *)
Definition String_cstr (this : Z) (str : pointer) : M unit :=
  do* memset_buffer this in
  if is_null str then
    let maxRemaining := wrap8 (sboSize - 1) in
    do* set_byte this small_remainingSizeFlag (LSBFlag.Set_ 8 maxRemaining true) in
    store (Obj this small_sboBuffer) [0]
  else
    let* len := strlen str in
    if len <? sboSize - 1 then
      let remaining := wrap64 ((sboSize - 1) - len) in
      do* set_byte this small_remainingSizeFlag
            (LSBFlag.Set_ 8 (wrap8 remaining) true) in
      memcpy (Obj this small_sboBuffer) str (wrap64 (len + 1))
    else
      do* set_word this normal_sizeFlag (LSBFlag.Set_ 64 len false) in
      do* set_word this normal_capacity (wrap64 (len + 1)) in
      let* capacity := get_word this normal_capacity in
      let* p := new_array capacity in
      do* set_word this normal_data p in
      let* data := get_word this normal_data in
      memcpy (to_ptr data) str (wrap64 (len + 1)).

(** [String(const String& other)] *)
Definition String_copy (this other : Z) : M unit :=
  do* memset_buffer this in
  let* small := IsSmall other in
  if small then
    memcpy (Obj this 0) (Obj other 0) sboSize
  else
    let* len := GetSize other in
    do* set_word this normal_sizeFlag (LSBFlag.Set_ 64 len false) in
    let* capacity := get_word other normal_capacity in
    do* set_word this normal_capacity capacity in
    let* capacity' := get_word this normal_capacity in
    let* p := new_array capacity' in
    do* set_word this normal_data p in
    let* dst := get_word this normal_data in
    let* src := get_word other normal_data in
    memcpy (to_ptr dst) (to_ptr src) (wrap64 (len + 1)).

(** [String(String&& other)] *)
Definition String_move (this other : Z) : M unit :=
  do* memset_buffer this in
  let* small := IsSmall other in
  if small then
    memcpy (Obj this 0) (Obj other 0) sboSize
  else
    let* len := GetSize other in
    do* set_word this normal_sizeFlag (LSBFlag.Set_ 64 len false) in
    let* capacity := get_word other normal_capacity in
    do* set_word this normal_capacity capacity in
    let* data := get_word other normal_data in
    do* set_word this normal_data data in
    do* set_word other normal_sizeFlag (LSBFlag.Set_ 64 0 false) in
    do* set_word other normal_capacity 0 in
    set_word other normal_data 0.

(** [~String()], after which the storage of [this] is gone. *)
Definition String_dtor (this : Z) : M unit :=
  do* (let* small := IsSmall this in
       if small then ret tt
       else
         let* data := get_word this normal_data in
         if data =? 0 then ret tt
         else
           do* delete_array data in
           set_word this normal_data 0) in
  fun w => Ok tt (set_objs (delete this (objs w)) w).

(** [operator=(const String& other)] *)
Definition assign_copy (this other : Z) : M unit :=
  if this =? other then ret tt
  else
    do* (let* small := IsSmall this in
         if small then ret tt
         else
           let* data := get_word this normal_data in
           if data =? 0 then ret tt
           else
             do* delete_array data in
             set_word this normal_data 0) in
    do* memset_buffer this in
    let* small := IsSmall other in
    if small then
      memcpy (Obj this 0) (Obj other 0) sboSize
    else
      let* len := GetSize other in
      do* set_word this normal_sizeFlag (LSBFlag.Set_ 64 len false) in
      let* capacity := get_word other normal_capacity in
      do* set_word this normal_capacity capacity in
      let* capacity' := get_word this normal_capacity in
      let* p := new_array capacity' in
      do* set_word this normal_data p in
      let* dst := get_word this normal_data in
      let* src := get_word other normal_data in
      memcpy (to_ptr dst) (to_ptr src) (wrap64 (len + 1)).

(** [operator=(String&& other)] *)
Definition assign_move (this other : Z) : M unit :=
  if this =? other then ret tt
  else
    do* (let* small := IsSmall this in
         if small then ret tt
         else
           let* data := get_word this normal_data in
           if data =? 0 then ret tt
           else
             do* delete_array data in
             set_word this normal_data 0) in
    do* memset_buffer this in
    let* small := IsSmall other in
    if small then
      memcpy (Obj this 0) (Obj other 0) sboSize
    else
      let* len := GetSize other in
      do* set_word this normal_sizeFlag (LSBFlag.Set_ 64 len false) in
      let* capacity := get_word other normal_capacity in
      do* set_word this normal_capacity capacity in
      let* data := get_word other normal_data in
      do* set_word this normal_data data in
      do* set_word other normal_sizeFlag (LSBFlag.Set_ 64 0 false) in
      do* set_word other normal_capacity 0 in
      set_word other normal_data 0.

Definition ReallocateAndCopy (this newCapacity currentSize : Z) : M unit :=
  let* newData := new_array newCapacity in
  let* small := IsSmall this in
  do* (if small then
         memcpy (to_ptr newData) (Obj this small_sboBuffer) currentSize
       else
         let* data := get_word this normal_data in
         do* memcpy (to_ptr newData) (to_ptr data) currentSize in
         delete_array data) in
  do* set_word this normal_sizeFlag (LSBFlag.Set_ 64 currentSize false) in
  do* set_word this normal_capacity newCapacity in
  set_word this normal_data newData.

(** [Append(const String& other)].  [other.CStr()] is evaluated where the
    source evaluates it: in the argument list of [memcpy], after any
    [ReallocateAndCopy]. *)
Definition Append (this other : Z) : M unit :=
  let* currentSize := GetSize this in
  let* otherSize := GetSize other in
  let totalSize := wrap64 (currentSize + otherSize) in
  let* small := IsSmall this in
  do* (if small then
         let* d := get_byte this small_remainingSizeFlag in
         let remaining := LSBFlag.GetValue d in
         if otherSize <? remaining then
           let* s := CStr other in
           do* memcpy (Obj this (small_sboBuffer + currentSize)) s
                 (wrap64 (otherSize + 1)) in
           set_byte this small_remainingSizeFlag
             (LSBFlag.Set_ 8 (wrap8 (wrap64 (remaining - otherSize))) true)
         else
           let newCapacity := wrap64 (totalSize * 2 + 1) in
           do* ReallocateAndCopy this newCapacity currentSize in
           let* data := get_word this normal_data in
           let* s := CStr other in
           memcpy (padd (to_ptr data) currentSize) s (wrap64 (otherSize + 1))
       else
         let* capacity := get_word this normal_capacity in
         do* (if capacity <? wrap64 (totalSize + 1) then
                let newCapacity := wrap64 (totalSize * 2 + 1) in
                ReallocateAndCopy this newCapacity currentSize
              else ret tt) in
         let* data := get_word this normal_data in
         let* s := CStr other in
         memcpy (padd (to_ptr data) currentSize) s (wrap64 (otherSize + 1))) in
  let* small' := IsSmall this in
  if small' then ret tt
  else set_word this normal_sizeFlag (LSBFlag.Set_ 64 totalSize false).

(** [Append(const char* const str)] *)
Definition Append_cstr (this : Z) (str : pointer) : M unit :=
  if is_null str then ret tt
  else
    let* appendSize := strlen str in
    if appendSize =? 0 then ret tt
    else
      let* currentSize := GetSize this in
      let totalSize := wrap64 (currentSize + appendSize) in
      let* small := IsSmall this in
      do* (if small then
             let* d := get_byte this small_remainingSizeFlag in
             let remaining := LSBFlag.GetValue d in
             if appendSize <? remaining then
               do* memcpy (Obj this (small_sboBuffer + currentSize)) str
                     (wrap64 (appendSize + 1)) in
               set_byte this small_remainingSizeFlag
                 (LSBFlag.Set_ 8 (wrap8 (wrap64 (remaining - appendSize))) true)
             else
               let newCapacity := wrap64 (totalSize * 2 + 1) in
               do* ReallocateAndCopy this newCapacity currentSize in
               let* data := get_word this normal_data in
               memcpy (padd (to_ptr data) currentSize) str (wrap64 (appendSize + 1))
           else
             let* capacity := get_word this normal_capacity in
             do* (if capacity <? wrap64 (totalSize + 1) then
                    let newCapacity := wrap64 (totalSize * 2 + 1) in
                    ReallocateAndCopy this newCapacity currentSize
                  else ret tt) in
             let* data := get_word this normal_data in
             memcpy (padd (to_ptr data) currentSize) str (wrap64 (appendSize + 1))) in
      let* small' := IsSmall this in
      if small' then ret tt
      else set_word this normal_sizeFlag (LSBFlag.Set_ 64 totalSize false).

(** [operator+=] *)
Definition plus_eq (this other : Z) : M unit := Append this other.
Definition plus_eq_cstr (this : Z) (str : pointer) : M unit :=
  Append_cstr this str.

(** *** Names for the blocks of code that the source repeats

    The proofs treat each repeated block once, under these names. *)

(** After zeroing the union, in the copy constructor and in
    [operator=(const String&)]. *)
Definition copy_from (this other : Z) : M unit :=
  let* small := IsSmall other in
  if small then
    memcpy (Obj this 0) (Obj other 0) sboSize
  else
    let* len := GetSize other in
    do* set_word this normal_sizeFlag (LSBFlag.Set_ 64 len false) in
    let* capacity := get_word other normal_capacity in
    do* set_word this normal_capacity capacity in
    let* capacity' := get_word this normal_capacity in
    let* p := new_array capacity' in
    do* set_word this normal_data p in
    let* dst := get_word this normal_data in
    let* src := get_word other normal_data in
    memcpy (to_ptr dst) (to_ptr src) (wrap64 (len + 1)).

(** After zeroing the union, in the move constructor and in
    [operator=(String&&)]. *)
Definition move_from (this other : Z) : M unit :=
  let* small := IsSmall other in
  if small then
    memcpy (Obj this 0) (Obj other 0) sboSize
  else
    let* len := GetSize other in
    do* set_word this normal_sizeFlag (LSBFlag.Set_ 64 len false) in
    let* capacity := get_word other normal_capacity in
    do* set_word this normal_capacity capacity in
    let* data := get_word other normal_data in
    do* set_word this normal_data data in
    do* set_word other normal_sizeFlag (LSBFlag.Set_ 64 0 false) in
    do* set_word other normal_capacity 0 in
    set_word other normal_data 0.

(** [if (!IsSmall() && buffer.normal.data) { delete[] buffer.normal.data;
    buffer.normal.data = nullptr; }], in the destructor and in both
    assignment operators. *)
Definition release (this : Z) : M unit :=
  let* small := IsSmall this in
  if small then ret tt
  else
    let* data := get_word this normal_data in
    if data =? 0 then ret tt
    else
      do* delete_array data in
      set_word this normal_data 0.

(** What both [Append] overloads do once the length of the source is
    known, with [src] standing for the source expression in the argument
    list of [memcpy]. *)
Definition append_from (this : Z) (src : M pointer) (otherSize : Z) : M unit :=
  let* currentSize := GetSize this in
  let totalSize := wrap64 (currentSize + otherSize) in
  let* small := IsSmall this in
  do* (if small then
         let* d := get_byte this small_remainingSizeFlag in
         let remaining := LSBFlag.GetValue d in
         if otherSize <? remaining then
           let* s := src in
           do* memcpy (Obj this (small_sboBuffer + currentSize)) s
                 (wrap64 (otherSize + 1)) in
           set_byte this small_remainingSizeFlag
             (LSBFlag.Set_ 8 (wrap8 (wrap64 (remaining - otherSize))) true)
         else
           let newCapacity := wrap64 (totalSize * 2 + 1) in
           do* ReallocateAndCopy this newCapacity currentSize in
           let* data := get_word this normal_data in
           let* s := src in
           memcpy (padd (to_ptr data) currentSize) s (wrap64 (otherSize + 1))
       else
         let* capacity := get_word this normal_capacity in
         do* (if capacity <? wrap64 (totalSize + 1) then
                let newCapacity := wrap64 (totalSize * 2 + 1) in
                ReallocateAndCopy this newCapacity currentSize
              else ret tt) in
         let* data := get_word this normal_data in
         let* s := src in
         memcpy (padd (to_ptr data) currentSize) s (wrap64 (otherSize + 1))) in
  let* small' := IsSmall this in
  if small' then ret tt
  else set_word this normal_sizeFlag (LSBFlag.Set_ 64 totalSize false).

End String.


(* ================================================================== *)
(** ** What a String object holds *)
(* ================================================================== *)

(** The two views of the union. *)
Definition byte_at (i : Z) (buf : list Z) : Z := le_value (slice i 1 buf).
Definition word_at (i : Z) (buf : list Z) : Z := le_value (slice i 8 buf).

(** The states an object is found in: holding a text inline, holding a text
    in a block of [cap] bytes at [base], or emptied by a move. *)
Inductive shape :=
| Small (s : list Z)
| Large (s : list Z) (base cap : Z)
| Moved.

Definition small_shape (buf s : list Z) : Prop :=
  length buf = 48%nat /\ no_nul s /\ len s <= 46 /\
  byte_at 47 buf = 2 * (47 - len s) + 1 /\
  slice 0 (len s + 1) buf = s ++ [0].

Definition large_shape (h : gmap Z (list Z)) (buf s : list Z) (base cap : Z) : Prop :=
  length buf = 48%nat /\ no_nul s /\
  word_at 0 buf = base /\ word_at 8 buf = cap /\ word_at 40 buf = 2 * len s /\
  byte_at 47 buf = 0 /\
  base <> 0 /\ len s < cap /\ cap <= heap_limit /\
  exists blk, h !! base = Some blk /\ len blk = cap /\
              slice 0 (len s + 1) blk = s ++ [0].

Definition moved_shape (buf : list Z) : Prop :=
  length buf = 48%nat /\
  word_at 0 buf = 0 /\ word_at 8 buf = 0 /\ word_at 40 buf = 0 /\
  byte_at 47 buf = 0.

(** The state in which a copy that fails to allocate has left the union
    where [new[]] throws: in heap mode, with the size [n] of the source and
    no block. *)
Definition failed_shape (buf : list Z) (n : Z) : Prop :=
  length buf = 48%nat /\
  word_at 0 buf = 0 /\ word_at 40 buf = 2 * n /\ byte_at 47 buf = 0.

Definition buf_shape (h : gmap Z (list Z)) (buf : list Z) (sh : shape) : Prop :=
  match sh with
  | Small s => small_shape buf s
  | Large s base cap => large_shape h buf s base cap
  | Moved => moved_shape buf
  end.

Definition has_shape (w : World) (this : Z) (sh : shape) : Prop :=
  exists buf, objs w !! this = Some buf /\ buf_shape (heap w) buf sh.

(** The block an object owns ([0]: none). *)
Definition owned (sh : shape) : Z :=
  match sh with Large _ base _ => base | _ => 0 end.

(** What [CStr()] returns for an object in that state. *)
Definition cstr_of (this : Z) (sh : shape) : pointer :=
  match sh with
  | Small _ => Obj this 0
  | Large _ base _ => Heap base 0
  | Moved => Null
  end.

Definition text_of (sh : shape) : list Z :=
  match sh with Small s | Large s _ _ => s | Moved => [] end.

(** A [const char*] that points at the text [s], a text that fits the
    address space. *)
Definition points_to_text (w : World) (p : pointer) (s : list Z) : Prop :=
  no_nul s /\ len s < heap_limit /\
  exists arr off rest,
    array_of p w = Some (arr, off) /\ 0 <= off /\
    drop (Z.to_nat off) arr = s ++ 0 :: rest.

(** The allocator's books are in order. *)
Definition heap_ok (w : World) : Prop :=
  1 <= brk w <= heap_limit /\
  forall a blk, heap w !! a = Some blk -> 1 <= a < brk w.

(** [frame this a w w'] : going from [w] to [w'] touched no object but
    those in [this], and no block but the one at [a] and blocks that [w]
    had not handed out yet. *)
Definition frame (this : list Z) (a : Z) (w w' : World) : Prop :=
  junk w' = junk w /\ brk w <= brk w' /\
  (forall o, o ∉ this -> objs w' !! o = objs w !! o) /\
  (forall k, k <> a -> k < brk w -> heap w' !! k = heap w !! k).


(** The pointer keeps pointing at [s] whatever is done to the objects
    [this] and to the block at [a]. *)
Definition stable_text (this : list Z) (a : Z) (w : World) (p : pointer)
    (s : list Z) : Prop :=
  forall w', frame this a w w' -> points_to_text w' p s.

(** The empty inline string that [String()] and [String(nullptr)] build. *)
Definition empty_buffer : list Z :=
  put 0 [0] (put 47 (le_bytes 1 (LSBFlag.Set_ 8 (String.wrap8 47) true))
                 (replicate 48 0)).

(** Whether appending [incoming] bytes makes [Append] call
    [ReallocateAndCopy]: inline, when [remaining > incoming] fails; on the
    heap, when [totalSize + 1 > capacity]. *)
Definition needs_realloc (sh : shape) (incoming : Z) : bool :=
  match sh with
  | Small s => negb (incoming <? 47 - len s)
  | Large s _ cap => cap <? len s + incoming + 1
  | Moved => true
  end.

(** The state of an object after appending the text [t], when a block
    allocated in between would have base [a]. *)
Definition appended (a : Z) (sh : shape) (t : list Z) : shape :=
  if needs_realloc sh (len t)
  then Large (text_of sh ++ t) a (2 * (len (text_of sh) + len t) + 1)
  else match sh with
       | Small s => Small (s ++ t)
       | Large s base cap => Large (s ++ t) base cap
       | Moved => Moved
       end.

(** A source of [Append]: evaluating [src] yields a pointer at the text [t]
    and its terminator, whatever [Append] does to [this] and its block. *)
Definition stable_source (this a : Z) (w : World) (src : M pointer)
    (t : list Z) : Prop :=
  no_nul t /\ len t < heap_limit /\
  exists p, forall w', frame [this] a w w' ->
    src w' = Ok p w' /\ load p (len t + 1) w' = Ok (t ++ [0]) w'.

(** The text that [CStr()] denotes, as [std::strcmp] or a stream would
    read it. *)
Definition text (this : Z) (w : World) : option (list Z) :=
  match String.CStr this w with
  | Ok p _ => c_str p w
  | _ => None
  end.

(** A program start: nothing allocated, no object alive, and a free store
    that hands out blocks filled with [0xCD]. *)
Definition world0 : World := mkWorld ∅ 1 ∅ (fun _ _ => 205).

(** The array of a string literal. *)
Definition literal (s : list Z) : pointer := Lit (s ++ [0]) 0.

(** The state of a copy of an object, when the block that the copy
    allocates has base [a]. *)
Definition copied (a : Z) (sh : shape) : shape :=
  match sh with
  | Small s => Small s
  | Large s _ cap => Large s a cap
  | Moved => Moved
  end.

(** The state a move leaves its source in. *)
Definition moved_out (sh : shape) : shape :=
  match sh with
  | Small s => Small s
  | Large _ _ _ | Moved => Moved
  end.

(* ================================================================== *)
(** ** Programs: sequences of public operations *)
(* ================================================================== *)

Inductive op :=
| OpDefault (this : Z)                    (** [String this;] *)
| OpFromCstr (this : Z) (str : pointer)   (** [String this(str);] *)
| OpCopy (this other : Z)                 (** [String this(other);] *)
| OpMove (this other : Z)                 (** [String this(std::move(other));] *)
| OpAssignCopy (this other : Z)           (** [this = other;] *)
| OpAssignMove (this other : Z)           (** [this = std::move(other);] *)
| OpAppend (this other : Z)               (** [this.Append(other);] [this += other;] *)
| OpAppendCstr (this : Z) (str : pointer) (** [this.Append(str);] [this += str;] *)
| OpDestroy (this : Z).                   (** end of the lifetime of [this] *)

Definition run_op (c : op) : M unit :=
  match c with
  | OpDefault this => String.String_default this
  | OpFromCstr this str => String.String_cstr this str
  | OpCopy this other => String.String_copy this other
  | OpMove this other => String.String_move this other
  | OpAssignCopy this other => String.assign_copy this other
  | OpAssignMove this other => String.assign_move this other
  | OpAppend this other => String.plus_eq this other
  | OpAppendCstr this str => String.plus_eq_cstr this str
  | OpDestroy this => String.String_dtor this
  end.

Definition alive (w : World) (this : Z) : Prop := is_Some (objs w !! this).

(** A byte-sequence argument: null, or a pointer into an array that is no
    part of a String and fits the address space. *)
Definition external (p : pointer) : Prop :=
  match p with
  | Null => True
  | Lit arr _ => len arr < heap_limit
  | Obj _ _ | Heap _ _ => False
  end.

(** A call the language allows: constructors run on storage that holds no
    String, everything else on Strings that are alive. *)
Definition call_ok (w : World) (c : op) : Prop :=
  match c with
  | OpDefault this => ~ alive w this
  | OpFromCstr this str => ~ alive w this /\ external str
  | OpCopy this other | OpMove this other => ~ alive w this /\ alive w other
  | OpAssignCopy this other | OpAssignMove this other
  | OpAppend this other => alive w this /\ alive w other
  | OpAppendCstr this str => alive w this /\ external str
  | OpDestroy this => alive w this
  end.

(** The store in which a [std::bad_alloc] that is caught leaves the
    program, from the store where [new[]] threw: the object of a
    constructor that throws never comes to life. *)
Definition unwind (c : op) (w : World) : World :=
  match c with
  | OpDefault this | OpFromCstr this _ | OpCopy this _ | OpMove this _ =>
      set_objs (delete this (objs w)) w
  | _ => w
  end.

Definition copy_assignment (c : op) : bool :=
  match c with OpAssignCopy _ _ => true | _ => false end.

(** The stores a program can reach from its start with calls that satisfy
    [allowed]: each call returns, or it throws [std::bad_alloc] and the
    program catches it and goes on.  The one exception: a program is not
    followed beyond a copy assignment that throws, which leaves its target
    alive without a block ([failed_shape]). *)
Inductive reachable (allowed : op -> Prop) : World -> Prop :=
| reach_start (b : Z) (j : Z -> Z -> Z) :
    1 <= b <= heap_limit -> reachable allowed (mkWorld ∅ b ∅ j)
| reach_call (w w' : World) (c : op) :
    reachable allowed w -> allowed c -> call_ok w c ->
    run_op c w = Ok tt w' -> reachable allowed w'
| reach_catch (w w' : World) (c : op) :
    reachable allowed w -> allowed c -> call_ok w c ->
    copy_assignment c = false ->
    run_op c w = BadAlloc w' -> reachable allowed (unwind c w').

Definition any_call (c : op) : Prop := True.


(** The byte at offset [GetSize()] of the buffer [CStr()] returns is the
    terminator. *)
Definition terminated (w : World) (this : Z) : Prop :=
  exists n p,
    String.GetSize this w = Ok n w /\ String.CStr this w = Ok p w /\
    load (padd p n) 1 w = Ok [0] w.

(** The state a move leaves a heap source in. *)
Definition emptied (w : World) (this : Z) : Prop :=
  String.GetSize this w = Ok 0 w /\ String.CStr this w = Ok Null w.



(** The store after [String a(seventy 'B');], and after
    [String a(seventy 'B'); String b(std::move(a));], at program start. *)
Definition after_ctor : World :=
  match String.String_cstr 1 (literal (replicate 70 66)) world0 with
  | Ok _ w => w
  | _ => world0
  end.

Definition after_move : World :=
  match String.String_move 2 1 after_ctor with
  | Ok _ w => w
  | _ => world0
  end.

(* ================================================================== *)
(** ** Calls: their arguments, and what they write *)
(* ================================================================== *)






(** Whether appending [incoming] bytes fits the storage a String has: the
    negation of the two tests in [Append] that lead to
    [ReallocateAndCopy]. *)
Definition fits (sh : shape) (incoming : Z) : Prop :=
  match sh with
  | Small s => incoming < 47 - len s
  | Large s _ cap => len s + incoming + 1 <= cap
  | Moved => False
  end.

(* ================================================================== *)
(** ** MSBFlag<T> *)
(* ================================================================== *)

(** As for [LSBFlag], an object is its member [T data], a [bits]-bit
    unsigned word, and a result is converted back to [T] where the source
    assigns or returns it.  For a [T] narrower than [int] the operands of
    [&], [|], [~] and [-] are promoted to [int] first; [Z.lnot] gives the
    promoted [~flagMask], a negative number, and on a [data] of the type
    [data & ~flagMask] is the same number whether or not the promotion
    takes place. *)
Module MSBFlag.

(** [static constexpr T flagMask = static_cast<T>(1) << (sizeof(T) * 8 - 1)] *)
Definition flagMask (bits : Z) : Z := LSBFlag.wrap bits (Z.shiftl 1 (bits - 1)).

(** [MSBFlag()] : [data(0)] *)
Definition Default : Z := 0.

(** [MSBFlag(T value, bool flag)] :
    [data((value & (flagMask - 1)) | (static_cast<T>(flag) ? flagMask : 0))] *)
Definition MSBFlag (bits : Z) (value : Z) (flag : bool) : Z :=
  LSBFlag.wrap bits
    (Z.lor (Z.land value (flagMask bits - 1))
           (if LSBFlag.wrap bits (Z.b2z flag) =? 0 then 0 else flagMask bits)).

(** [data = (value & (flagMask - 1)) | (data & flagMask)] *)
Definition SetValue (bits : Z) (data value : Z) : Z :=
  LSBFlag.wrap bits
    (Z.lor (Z.land value (flagMask bits - 1)) (Z.land data (flagMask bits))).

(** [return data & (~flagMask)] *)
Definition GetValue (bits : Z) (data : Z) : Z :=
  LSBFlag.wrap bits (Z.land data (Z.lnot (flagMask bits))).

(** [if (flag) data |= flagMask; else data &= ~flagMask;] *)
Definition SetFlag (bits : Z) (data : Z) (flag : bool) : Z :=
  if flag then LSBFlag.wrap bits (Z.lor data (flagMask bits))
  else LSBFlag.wrap bits (Z.land data (Z.lnot (flagMask bits))).

(** [return (data & flagMask) != 0] *)
Definition GetFlag (bits : Z) (data : Z) : bool :=
  negb (Z.land data (flagMask bits) =? 0).

(** [data = (value & (flagMask - 1)) | (flag ? flagMask : 0)] *)
Definition Set_ (bits : Z) (value : Z) (flag : bool) : Z :=
  LSBFlag.wrap bits
    (Z.lor (Z.land value (flagMask bits - 1)) (if flag then flagMask bits else 0)).

Definition GetRaw (data : Z) : Z := data.
Definition SetRaw (data : Z) : Z := data.

(** [operator==] / [operator!=] *)
Definition eqb (a b : Z) : bool := a =? b.
Definition neqb (a b : Z) : bool := negb (a =? b).

End MSBFlag.

(* ================================================================== *)
(** ** HalfPointer *)
(* ================================================================== *)

(** A [void*] is its address, an unsigned 64-bit number, [0] for
    [nullptr]; an object [HalfPointer] is its member [std::uint32_t
    offset]. *)
Module HalfPointer.

(** [static constexpr std::uint32_t INVALID_OFFSET = 0xFFFFFFFF] *)
Definition INVALID_OFFSET : Z := 4294967295.

(** [HalfPointer() : offset(INVALID_OFFSET)] *)
Definition Default : Z := INVALID_OFFSET.

(** [HalfPointer(void* base, void* ptr)].  Built with assertions,
    [assert(ptr >= base)] ends the program when it fails ([None]); built
    with [NDEBUG] the assertion is not there.  The difference of the two
    [char*] is converted to [std::uint32_t]. *)
Definition HalfPointer (assertions : bool) (base ptr : Z) : option Z :=
  if assertions && negb (base <=? ptr) then None
  else Some (LSBFlag.wrap 32 (ptr - base)).

(** [if (offset == INVALID_OFFSET) return nullptr;
     return reinterpret_cast<char*>(base) + offset;]
    The sum is the address as long as it is one, below [2 ^ 64]: that is
    so whenever the offset was taken from a pointer at or above [base];
    pointer arithmetic that leaves the address space is undefined. *)
Definition ToAbsolute (offset : Z) (base : Z) : Z :=
  if offset =? INVALID_OFFSET then 0 else base + offset.

Definition GetOffset (offset : Z) : Z := offset.

End HalfPointer.

(* ================================================================== *)
(** ** Meta: the compile-time string utilities of TypeTraits.hpp *)
(* ================================================================== *)

(** A [std::string_view], the array behind a [const char*] and a [char]
    buffer are lists of bytes; a [std::size_t] is a [Z].  A read or write
    outside an array and a [substr] that throws are [None]. *)
Module Meta.

(** [std::string_view::npos] *)
Definition npos : Z := 2 ^ 64 - 1.

(** [return (a < b) ? a : b] *)
Definition ConstexprMin (a b : Z) : Z := if a <? b then a else b.

(** [while (i < maxLen && str[i] != '\0') ++i; return i;] with [left]
    for [maxLen - i]. *)
Fixpoint strnlen_loop (str : list Z) (left : nat) (i : Z) : option Z :=
  match left with
  | O => Some i
  | S left' =>
      c ← str !! Z.to_nat i;
      if c =? 0 then Some i else strnlen_loop str left' (i + 1)
  end.

Definition ConstexprStrnlen (str : list Z) (maxLen : Z) : option Z :=
  strnlen_loop str (Z.to_nat maxLen) 0.

(** ["class "], ["struct "], ["enum "], ["union "], each with its
    terminator. *)
Definition tokens : list (list Z) :=
  [ [99; 108; 97; 115; 115; 32; 0];
    [115; 116; 114; 117; 99; 116; 32; 0];
    [101; 110; 117; 109; 32; 0];
    [117; 110; 105; 111; 110; 32; 0] ].

Fixpoint list_eqb (a b : list Z) : bool :=
  match a, b with
  | [], [] => true
  | x :: a', y :: b' => (x =? y) && list_eqb a' b'
  | _, _ => false
  end.

(** [for (auto&& tk : tokens)] at position [i]: the length of the first
    token found there.  [input.compare(i, tkLen, tk) == 0] compares the
    [tkLen] bytes at [i] with the bytes of [tk] before its terminator. *)
Fixpoint match_token (input : list Z) (i : Z) (tks : list (list Z))
    : option (option Z) :=
  match tks with
  | [] => Some None
  | tk :: tks' =>
      tkLen ← ConstexprStrnlen tk 32;
      if (i + tkLen <=? len input)
         && list_eqb (slice i tkLen input) (slice 0 tkLen tk)
      then Some (Some tkLen)
      else match_token input i tks'
  end.

(** The loop of [RemoveClassStructEnumTokens].  Every turn moves [i]
    forward, so [length input] turns are enough; [fuel] counts them. *)
Fixpoint remove_loop (fuel : nat) (input : list Z) (outBufferSize : Z)
    (i outPos : Z) (outBuffer : list Z) : option (list Z * Z) :=
  if (i <? len input) && (outPos + 1 <? outBufferSize) then
    match fuel with
    | O => None
    | S fuel' =>
        found ← match_token input i tokens;
        match found with
        | Some tkLen =>
            remove_loop fuel' input outBufferSize (i + tkLen) outPos outBuffer
        | None =>
            c ← input !! Z.to_nat i;
            if outPos <? len outBuffer
            then remove_loop fuel' input outBufferSize (i + 1) (outPos + 1)
                   (<[Z.to_nat outPos := c]> outBuffer)
            else None
        end
    end
  else Some (outBuffer, outPos).

(** [RemoveClassStructEnumTokens(input, outBuffer, outBufferSize)] : the
    buffer afterwards and the number of bytes written. *)
Definition RemoveClassStructEnumTokens (input outBuffer : list Z)
    (outBufferSize : Z) : option (list Z * Z) :=
  '(out, outPos) ← remove_loop (length input) input outBufferSize 0 0 outBuffer;
  if outPos <? outBufferSize then
    if outPos <? len out then Some (<[Z.to_nat outPos := 0]> out, outPos) else None
  else Some (out, outPos).

(** [RTrim(buffer, len)] : the buffer and [len] afterwards.
    [while (len > 0 && (buffer[len - 1] == ' ' || buffer[len - 1] == '\t'))
       { buffer[len - 1] = '\0'; --len; }] *)
Fixpoint RTrim_loop (len : nat) (buffer : list Z) : option (list Z * Z) :=
  match len with
  | O => Some (buffer, 0)
  | S len' =>
      c ← buffer !! len';
      if (c =? 32) || (c =? 9)
      then RTrim_loop len' (<[len' := 0]> buffer)
      else Some (buffer, Z.of_nat len)
  end.

Definition RTrim (buffer : list Z) (len : Z) : option (list Z * Z) :=
  RTrim_loop (Z.to_nat len) buffer.

(** [FindLastTopLevelDoubleColon(s)].  [for (i = s.size(); i > 1;)
    { --i; ... }] : the loop is entered with [i >= 2] and reads [s[i - 1]]
    and [s[i - 2]] as [s[i]] and [s[i - 1]] after the decrement.
    [bracketDepth] is an [int].  [find_colon_loop] counts in [Z];
    [find_colon_loop_checked] below is the same loop with the counter
    kept in the range of [int], and the two agree on every string shorter
    than [2 ^ 31] -- longer than any name this header builds, which fit
    arrays of 512 and 1024 bytes. *)
Fixpoint find_colon_loop (s : list Z) (i : nat) (bracketDepth : Z) : Z :=
  match i with
  | O => npos
  | S i' =>
      match i' with
      | O => npos
      | S i'' =>
          let c := nth i' s 0 in
          if c =? 62 then find_colon_loop s i' (bracketDepth + 1)
          else if c =? 60 then find_colon_loop s i' (bracketDepth - 1)
          else if (c =? 58) && (nth i'' s 0 =? 58) && (bracketDepth =? 0)
               then Z.of_nat i''
               else find_colon_loop s i' bracketDepth
      end
  end.

Definition FindLastTopLevelDoubleColon (s : list Z) : Z :=
  find_colon_loop s (length s) 0.

(** The values of an [int]: 32 bits, two's complement. *)
Definition int_range (x : Z) : bool := (- 2 ^ 31 <=? x) && (x <? 2 ^ 31).

(** The loop with [bracketDepth] as the [int] it is: [None] where
    [++bracketDepth] or [--bracketDepth] leaves the range, which is
    undefined. *)
Fixpoint find_colon_loop_checked (s : list Z) (i : nat) (bracketDepth : Z)
    : option Z :=
  match i with
  | O => Some npos
  | S i' =>
      match i' with
      | O => Some npos
      | S i'' =>
          let c := nth i' s 0 in
          if c =? 62 then
            if int_range (bracketDepth + 1)
            then find_colon_loop_checked s i' (bracketDepth + 1)
            else None
          else if c =? 60 then
            if int_range (bracketDepth - 1)
            then find_colon_loop_checked s i' (bracketDepth - 1)
            else None
          else if (c =? 58) && (nth i'' s 0 =? 58) && (bracketDepth =? 0)
               then Some (Z.of_nat i'')
               else find_colon_loop_checked s i' bracketDepth
      end
  end.

(** [s.substr(pos, n)] : the [min(n, s.size() - pos)] bytes from [pos];
    it throws when [pos > s.size()]. *)
Definition substr (s : list Z) (pos n : Z) : option (list Z) :=
  if pos <=? len s then Some (slice pos (Z.min n (len s - pos)) s) else None.

(** [TypeTraits<T>::BuildUnqualifiedName(qn)] *)
Definition BuildUnqualifiedName (qn : list Z) : option (list Z) :=
  let pos := FindLastTopLevelDoubleColon qn in
  if negb (pos =? npos) then substr qn (LSBFlag.wrap 64 (pos + 2)) npos
  else Some qn.

(** [TypeTraits<T>::BuildNamespaceName(qn, unq)] *)
Definition BuildNamespaceName (qn unq : list Z) : option (list Z) :=
  if len qn =? len unq then Some []
  else
    let pos := LSBFlag.wrap 64 (len qn - len unq) in
    if 2 <=? pos then substr qn 0 (LSBFlag.wrap 64 (pos - 2))
    else Some [].

(** [TypeTraits<T>::BuildRawNameArray()], for the raw name [rawView]
    that [GetRawTypeName] extracts from the compiler's signature:
    [std::array<char, 512> buf = {}], the class keys removed into it,
    trailing blanks trimmed. *)
Definition BuildRawNameArray (rawView : list Z) : option (list Z) :=
  '(buf, sizeWritten) ← RemoveClassStructEnumTokens rawView (replicate 512 0) 512;
  '(buf', _) ← RTrim buf sizeWritten;
  Some buf'.

(** [TypeTraits<T>::BuildRawName()] :
    [std::string_view(rawNameArray_.data(), len)] with
    [len = ConstexprStrnlen(rawNameArray_.data(), rawNameArray_.size())] *)
Definition BuildRawName (rawView : list Z) : option (list Z) :=
  rawNameArray ← BuildRawNameArray rawView;
  len ← ConstexprStrnlen rawNameArray (Z.of_nat (length rawNameArray));
  Some (slice 0 len rawNameArray).

(** ** The specialisation for template types

    [TypeTraits<Template<Args...>>].  The names of the arguments,
    [TypeTraits<Args>::qualifiedName] and [::unqualifiedName], are given
    as lists, in the order of [Args...]; a [char* out] into an array is
    the array and the offset [off] of [out] in it. *)

(** [out[pos] = c], for [out] at offset [off] of [buf]. *)
Definition write (buf : list Z) (off pos c : Z) : option (list Z) :=
  if (0 <=? off + pos) && (off + pos <? len buf)
  then Some (<[Z.to_nat (off + pos) := c]> buf)
  else None.

(** [for (i = 0; i < src.size() && (pos + 1 < maxLen); ++i)
      out[pos++] = src[i];] *)
Fixpoint copy_loop (src buf : list Z) (off maxLen pos : Z) : option (list Z * Z) :=
  match src with
  | [] => Some (buf, pos)
  | c :: src' =>
      if pos + 1 <? maxLen then
        buf' ← write buf off pos c;
        copy_loop src' buf' off maxLen (pos + 1)
      else Some (buf, pos)
  end.

(** The lambda that the fold expression [(([&]{ ... }()), ...)] runs for
    each argument, on [pos], [first] and the buffer. *)
Definition arg_lambda (argName buf : list Z) (off maxLen pos : Z) (first : bool)
    : option (list Z * Z * bool) :=
  '(buf1, pos1, first1) ←
    (if negb first then
       if pos + 2 <? maxLen then
         b1 ← write buf off pos 44;
         b2 ← write b1 off (pos + 1) 32;
         Some (b2, pos + 2, first)
       else Some (buf, pos, first)
     else Some (buf, pos, false));
  '(buf2, pos2) ← copy_loop argName buf1 off maxLen pos1;
  Some (buf2, pos2, first1).

Fixpoint args_fold (argNames : list (list Z)) (buf : list Z)
    (off maxLen pos : Z) (first : bool) : option (list Z * Z * bool) :=
  match argNames with
  | [] => Some (buf, pos, first)
  | a :: argNames' =>
      '(buf', pos', first') ← arg_lambda a buf off maxLen pos first;
      args_fold argNames' buf' off maxLen pos' first'
  end.

(** [BuildQualifiedTemplateArgs(out, maxLen)] *)
Definition BuildQualifiedTemplateArgs (argQN : list (list Z)) (buf : list Z)
    (off maxLen : Z) : option (list Z * Z) :=
  if maxLen <? 2 then Some (buf, 0)
  else
    b0 ← write buf off 0 60;
    '(b1, pos, _) ← args_fold argQN b0 off maxLen 1 true;
    '(b2, pos2) ←
      (if pos + 1 <? maxLen then b ← write b1 off pos 62; Some (b, pos + 1)
       else Some (b1, pos));
    b3 ← (if pos2 <? maxLen then write b2 off pos2 0 else Some b2);
    Some (b3, pos2).

(** [BuildUnqualifiedTemplateArgs(out, maxLen)] : the same code on the
    unqualified names of the arguments. *)
Definition BuildUnqualifiedTemplateArgs (argUNQ : list (list Z)) (buf : list Z)
    (off maxLen : Z) : option (list Z * Z) :=
  if maxLen <? 2 then Some (buf, 0)
  else
    b0 ← write buf off 0 60;
    '(b1, pos, _) ← args_fold argUNQ b0 off maxLen 1 true;
    '(b2, pos2) ←
      (if pos + 1 <? maxLen then b ← write b1 off pos 62; Some (b, pos + 1)
       else Some (b1, pos));
    b3 ← (if pos2 <? maxLen then write b2 off pos2 0 else Some b2);
    Some (b3, pos2).

(** [BuildQualifiedNameArray()], from [qualifiedBaseName] and the
    qualified names of the arguments ([sizeof...(Args)] is their
    number). *)
Definition BuildQualifiedNameArray (qualifiedBaseName : list Z)
    (argQN : list (list Z)) : option (list Z) :=
  let buf := replicate 1024 0 in
  '(buf1, pos) ← copy_loop qualifiedBaseName buf 0 (len buf) 0;
  '(buf2, pos2) ←
    (if 0 <? len argQN then
       '(b, n) ← BuildQualifiedTemplateArgs argQN buf1 pos (len buf1 - pos);
       Some (b, pos + n)
     else Some (buf1, pos));
  if pos2 <? len buf2 then write buf2 0 pos2 0 else Some buf2.

(** [BuildQualifiedName()] of the specialisation *)
Definition BuildQualifiedName (qualifiedBaseName : list Z)
    (argQN : list (list Z)) : option (list Z) :=
  qualifiedNameArray ← BuildQualifiedNameArray qualifiedBaseName argQN;
  len ← ConstexprStrnlen qualifiedNameArray (Z.of_nat (length qualifiedNameArray));
  Some (slice 0 len qualifiedNameArray).

(** [BuildUnqualifiedNameArray()] and [BuildUnqualifiedName()] of the
    specialisation: the same code on [unqualifiedBaseName] and the
    unqualified names of the arguments. *)
Definition BuildUnqualifiedNameArray (unqualifiedBaseName : list Z)
    (argUNQ : list (list Z)) : option (list Z) :=
  let buf := replicate 1024 0 in
  '(buf1, pos) ← copy_loop unqualifiedBaseName buf 0 (len buf) 0;
  '(buf2, pos2) ←
    (if 0 <? len argUNQ then
       '(b, n) ← BuildUnqualifiedTemplateArgs argUNQ buf1 pos (len buf1 - pos);
       Some (b, pos + n)
     else Some (buf1, pos));
  if pos2 <? len buf2 then write buf2 0 pos2 0 else Some buf2.

Definition BuildUnqualifiedName_template (unqualifiedBaseName : list Z)
    (argUNQ : list (list Z)) : option (list Z) :=
  unqualifiedNameArray ← BuildUnqualifiedNameArray unqualifiedBaseName argUNQ;
  len ← ConstexprStrnlen unqualifiedNameArray
          (Z.of_nat (length unqualifiedNameArray));
  Some (slice 0 len unqualifiedNameArray).

(** [BuildQualifiedBaseArray()], from the raw name [fullRaw]:
    [while (i < fullRaw.size() && fullRaw[i] != '<'
            && (j + 1) < baseBuf.size()) baseBuf[j++] = fullRaw[i++];] *)
Fixpoint base_loop (fullRaw baseBuf : list Z) (j : Z) : option (list Z * Z) :=
  match fullRaw with
  | [] => Some (baseBuf, j)
  | c :: fullRaw' =>
      if negb (c =? 60) && (j + 1 <? len baseBuf) then
        baseBuf' ← write baseBuf 0 j c;
        base_loop fullRaw' baseBuf' (j + 1)
      else Some (baseBuf, j)
  end.

Definition BuildQualifiedBaseArray (fullRaw : list Z) : option (list Z) :=
  '(baseBuf, j) ← base_loop fullRaw (replicate 512 0) 0;
  if j <? len baseBuf then write baseBuf 0 j 0 else Some baseBuf.

(** [BuildQualifiedBaseName()] *)
Definition BuildQualifiedBaseName (fullRaw : list Z) : option (list Z) :=
  qualifiedBaseNameArray ← BuildQualifiedBaseArray fullRaw;
  len ← ConstexprStrnlen qualifiedBaseNameArray
          (Z.of_nat (length qualifiedBaseNameArray));
  Some (slice 0 len qualifiedBaseNameArray).

End Meta.

(** Blanks, as [RTrim] tests for them: a space or a tab. *)
Definition blank (c : Z) : Prop := c = 32 \/ c = 9.

(** How many more ['>'] than ['<'] a text has. *)
Fixpoint bracket_depth (t : list Z) : Z :=
  match t with
  | [] => 0
  | c :: t' =>
      (if c =? 62 then 1 else if c =? 60 then -1 else 0) + bracket_depth t'
  end.

(** A ["::"] at index [k] of [s] outside template arguments: the text
    after it closes as many brackets as it opens. *)
Definition top_colon (s : list Z) (k : nat) : Prop :=
  nth k s 0 = 58 /\ nth (S k) s 0 = 58 /\ bracket_depth (drop (S (S k)) s) = 0.

(** ["class "], ["struct "], ["enum "], ["union "] *)
Definition words : list (list Z) :=
  [ [99; 108; 97; 115; 115; 32];
    [115; 116; 114; 117; 99; 116; 32];
    [101; 110; 117; 109; 32];
    [117; 110; 105; 111; 110; 32] ].

(** None of the four words occurs in [s]. *)
Definition token_free (s : list Z) : Prop :=
  forall pre tk post, tk ∈ words -> s <> pre ++ tk ++ post.

(** The names [args] with [", "] between them, and the name of a template
    type: its base name, followed by its arguments between ['<'] and ['>']
    when it has any. *)
Definition comma_list (args : list (list Z)) : list Z :=
  match args with
  | [] => []
  | a :: rest => a ++ concat (map (fun b => 44 :: 32 :: b) rest)
  end.

Definition after_first (args : list (list Z)) : list Z :=
  concat (map (fun b => 44 :: 32 :: b) args).

Definition template_name (base : list Z) (args : list (list Z)) : list Z :=
  match args with
  | [] => base
  | _ => base ++ 60 :: comma_list args ++ [62]
  end.

(** [buf] with [s] written over it from index [i]. *)
Definition splice (buf : list Z) (i : Z) (s : list Z) : list Z :=
  take (Z.to_nat i) buf ++ s ++ drop (Z.to_nat (i + len s)) buf.
(* ================================================================== *)
(** ** Facts: LSBFlag *)
(* ================================================================== *)

Lemma lsb_pack (v : Z) (f : bool) :
  Z.lor (Z.shiftl v 1) (Z.b2z f) = 2 * v + Z.b2z f.
Proof.
  apply Z.bits_inj'; intros n Hn.
  rewrite Z.lor_spec.
  destruct (Z.eq_dec n 0) as [-> | Hne].
  - rewrite Z.testbit_0_r, Z.shiftl_spec_low by lia.
    destruct f; reflexivity.
  - replace n with (Z.succ (n - 1)) by lia.
    rewrite Z.testbit_succ_r by lia.
    rewrite Z.shiftl_spec by lia.
    replace (Z.succ (n - 1) - 1) with (n - 1) by lia.
    destruct f; simpl; rewrite ?Z.testbit_0_l, ?orb_false_r; try reflexivity.
    replace (Z.succ (n - 1)) with n by lia.
    destruct (Z.eq_dec n 0); [lia |].
    change 1 with (2 ^ 0) at 2.
    rewrite Z.pow2_bits_eqb by lia.
    destruct (Z.eqb_spec 0 n); [lia | apply orb_false_r].
Qed.

Lemma lsb_wrap (bits v : Z) (f : bool) :
  0 < bits ->
  LSBFlag.wrap bits (2 * v + Z.b2z f) = 2 * (v mod 2 ^ (bits - 1)) + Z.b2z f.
Proof.
  intros Hb. unfold LSBFlag.wrap.
  replace (2 ^ bits) with (2 * 2 ^ (bits - 1)).
  2:{ rewrite <- Z.pow_succ_r by lia. f_equal. lia. }
  rewrite Z.rem_mul_r by (try lia; apply Z.pow_pos_nonneg; lia).
  replace ((2 * v + Z.b2z f) / 2) with v.
  2:{ symmetry. rewrite Z.add_comm. apply Z.add_b2z_double_div2. }
  assert ((2 * v + Z.b2z f) mod 2 = Z.b2z f) as ->; [| lia].
  rewrite Z.add_comm, Z.mul_comm, Z.mod_add by lia.
  destruct f; reflexivity.
Qed.

Lemma Set__pack (bits v : Z) (f : bool) :
  0 < bits ->
  LSBFlag.Set_ bits v f = 2 * (v mod 2 ^ (bits - 1)) + Z.b2z f.
Proof. intros. unfold LSBFlag.Set_. rewrite lsb_pack. now apply lsb_wrap. Qed.

Lemma GetValue_pack (x : Z) (f : bool) : LSBFlag.GetValue (2 * x + Z.b2z f) = x.
Proof.
  unfold LSBFlag.GetValue. rewrite Z.shiftr_div_pow2 by lia.
  change (2 ^ 1) with 2. rewrite Z.add_comm. apply Z.add_b2z_double_div2.
Qed.

Lemma GetFlag_pack (x : Z) (f : bool) : LSBFlag.GetFlag (2 * x + Z.b2z f) = f.
Proof.
  unfold LSBFlag.GetFlag. change 1 with (Z.ones 1) at 1.
  rewrite Z.land_ones by lia. change (2 ^ 1) with 2.
  rewrite Z.add_comm, Z.mul_comm, Z.mod_add by lia.
  destruct f; reflexivity.
Qed.

(** C9.  For a word type of [bits] bits and a [value] of that type, the
    constructor stores [(value << 1) | flag] reduced modulo [2 ^ bits];
    [GetValue] then returns [value] modulo [2 ^ (bits - 1)] (the top bit of
    an over-wide value is dropped, nothing is rejected) and [GetFlag]
    returns [flag]. *)
Theorem LSBFlag_ctor_truncates (bits value : Z) (flag : bool) :
  0 < bits ->
  0 <= value < 2 ^ bits ->
  LSBFlag.LSBFlag bits value flag
    = (Z.lor (Z.shiftl value 1) (Z.b2z flag)) mod 2 ^ bits
  /\ LSBFlag.GetValue (LSBFlag.LSBFlag bits value flag) = value mod 2 ^ (bits - 1)
  /\ LSBFlag.GetFlag (LSBFlag.LSBFlag bits value flag) = flag.
Proof.
  intros Hb _. split; [reflexivity |].
  change (LSBFlag.LSBFlag bits value flag) with (LSBFlag.Set_ bits value flag).
  rewrite Set__pack by assumption.
  split; [apply GetValue_pack | apply GetFlag_pack].
Qed.

(** The 8-bit instance at the over-wide value 255: the stored value is 127. *)
Lemma LSBFlag_ctor_truncates_witness :
  LSBFlag.LSBFlag 8 255 true = (Z.lor (Z.shiftl 255 1) (Z.b2z true)) mod 2 ^ 8
  /\ LSBFlag.GetValue (LSBFlag.LSBFlag 8 255 true) = 255 mod 2 ^ (8 - 1)
  /\ LSBFlag.GetFlag (LSBFlag.LSBFlag 8 255 true) = true.
Proof. apply (LSBFlag_ctor_truncates 8 255 true); lia. Defined.

(* ================================================================== *)
(** ** Facts: bytes and arrays *)
(* ================================================================== *)

Lemma length_le_bytes (n : nat) (v : Z) : length (le_bytes n v) = n.
Proof. revert v; induction n as [| n IH]; intros v; simpl; [| rewrite IH]; reflexivity. Qed.

Lemma le_value_bytes (n : nat) (v : Z) :
  le_value (le_bytes n v) = v mod 2 ^ (8 * Z.of_nat n).
Proof.
  revert v; induction n as [| n IH]; intros v.
  - simpl. now rewrite Z.mod_1_r.
  - cbn [le_bytes le_value]. rewrite IH.
    replace (2 ^ (8 * Z.of_nat (S n))) with (256 * 2 ^ (8 * Z.of_nat n)).
    + rewrite Z.rem_mul_r; [reflexivity | lia |]. apply Z.pow_pos_nonneg; lia.
    + change 256 with (2 ^ 8). rewrite <- Z.pow_add_r by lia. f_equal. lia.
Qed.


Lemma lookup_slice (off n : Z) (arr : list Z) (i : nat) :
  slice off n arr !! i
  = if decide (i < Z.to_nat n)%nat then arr !! (Z.to_nat off + i)%nat else None.
Proof.
  unfold slice. rewrite lookup_take. case_decide; [apply lookup_drop | reflexivity].
Qed.

Lemma lookup_put (off : Z) (bs arr : list Z) (i : nat) :
  (Z.to_nat off <= length arr)%nat ->
  put off bs arr !! i
  = if decide (i < Z.to_nat off)%nat then arr !! i
    else if decide (i < Z.to_nat off + length bs)%nat
         then bs !! (i - Z.to_nat off)%nat
         else arr !! i.
Proof.
  intros Hoff. unfold put.
  assert (length (take (Z.to_nat off) arr) = Z.to_nat off) as Hlen
    by (rewrite length_take; lia).
  case_decide.
  - rewrite lookup_app_l by lia. now apply lookup_take_lt.
  - rewrite lookup_app_r by lia. rewrite Hlen. case_decide.
    + now rewrite lookup_app_l by lia.
    + rewrite lookup_app_r by lia. rewrite lookup_drop. f_equal. lia.
Qed.

Lemma length_put (off : Z) (bs arr : list Z) :
  0 <= off -> off + len bs <= len arr ->
  length (put off bs arr) = length arr.
Proof.
  intros. unfold put. rewrite !length_app, length_take, length_drop. lia.
Qed.

Lemma length_slice (off n : Z) (arr : list Z) :
  0 <= off -> 0 <= n -> off + n <= len arr ->
  length (slice off n arr) = Z.to_nat n.
Proof. intros. unfold slice. rewrite length_take, length_drop. lia. Qed.

(** Pointwise comparison of arrays built from [slice], [put] and [++]. *)
Ltac pointwise :=
  apply list_eq; intros ?i;
  repeat first
    [ rewrite lookup_slice
    | rewrite lookup_put by lia ];
  repeat case_decide; try lia; try reflexivity; try (f_equal; lia).

Lemma slice_put_same (off n : Z) (bs arr : list Z) :
  0 <= off -> off + len bs <= len arr -> n = len bs ->
  slice off n (put off bs arr) = bs.
Proof.
  intros H0 H1 ->. pointwise.
  symmetry. apply lookup_ge_None. lia.
Qed.

Lemma slice_put_disj (off n off' : Z) (bs arr : list Z) :
  0 <= off -> 0 <= off' -> off' + len bs <= len arr ->
  off + n <= off' \/ off' + len bs <= off ->
  slice off n (put off' bs arr) = slice off n arr.
Proof. intros H0 H1 H2 Hd. pointwise. Qed.

Lemma slice_put_inside (off n k : Z) (bs arr : list Z) :
  0 <= off -> 0 <= k -> 0 <= n -> off + len bs <= len arr -> k + n <= len bs ->
  slice (off + k) n (put off bs arr) = slice k n bs.
Proof. intros H0 H1 H2 H3 H4. pointwise. Qed.

Lemma slice_0_put_end (off : Z) (bs arr : list Z) :
  0 <= off -> off + len bs <= len arr ->
  slice 0 (off + len bs) (put off bs arr) = slice 0 off arr ++ bs.
Proof.
  intros H0 H1. apply list_eq; intros i.
  rewrite lookup_slice, lookup_put by lia.
  assert (length (slice 0 off arr) = Z.to_nat off) as Hl
    by (apply length_slice; lia).
  destruct (decide (i < Z.to_nat off)%nat).
  - rewrite lookup_app_l by lia. rewrite lookup_slice.
    repeat case_decide; try lia. reflexivity.
  - rewrite lookup_app_r by lia. rewrite Hl.
    repeat case_decide; try lia; try (f_equal; lia).
    symmetry. apply lookup_ge_None. lia.
Qed.

Lemma slice_slice (a n b m : Z) (arr : list Z) :
  0 <= a -> 0 <= b -> 0 <= n -> a + n <= m ->
  slice a n (slice b m arr) = slice (a + b) n arr.
Proof. intros. pointwise. Qed.

Lemma slice_full (arr : list Z) : slice 0 (len arr) arr = arr.
Proof.
  unfold slice. rewrite drop_0. apply take_ge. lia.
Qed.

Lemma slice_all (n : Z) (arr : list Z) : n = len arr -> slice 0 n arr = arr.
Proof. intros ->. apply slice_full. Qed.

Lemma put_full (bs arr : list Z) : length bs = length arr -> put 0 bs arr = bs.
Proof.
  intros Hl. unfold put. simpl. rewrite drop_ge by lia. apply app_nil_r.
Qed.

Lemma slice_app_l (n : Z) (l r : list Z) :
  n = len l -> slice 0 n (l ++ r) = l.
Proof. intros ->. unfold slice. rewrite drop_0, Nat2Z.id. apply take_app_length. Qed.

Lemma slice_0_prefix (n m : Z) (arr l : list Z) :
  0 <= n <= m -> slice 0 m arr = l -> slice 0 n arr = slice 0 n l.
Proof. intros Hn <-. rewrite slice_slice by lia. reflexivity. Qed.

Lemma in_bounds_true (off n : Z) (arr : list Z) :
  0 <= off -> 0 <= n -> off + n <= len arr -> in_bounds off n arr = true.
Proof.
  intros. unfold in_bounds.
  rewrite !andb_true_iff, !Z.leb_le. lia.
Qed.


Lemma strlen_list_text (s rest : list Z) :
  no_nul s -> strlen_list (s ++ 0 :: rest) = Some (len s).
Proof.
  induction 1 as [| c s Hc Hs IH]; [reflexivity |].
  cbn [app strlen_list length].
  destruct (Z.eqb_spec c 0); [contradiction |].
  rewrite IH. cbn. f_equal. lia.
Qed.


(* ================================================================== *)
(** ** Facts: running the primitives *)
(* ================================================================== *)

Lemma bind_ok {A B} (m : M A) (k : A -> M B) (w w' : World) (a : A) :
  m w = Ok a w' -> bind m k w = k a w'.
Proof. intros H. unfold bind. now rewrite H. Qed.

Lemma bind_bad {A B} (m : M A) (k : A -> M B) (w w' : World) :
  m w = BadAlloc w' -> bind m k w = BadAlloc w'.
Proof. intros H. unfold bind. now rewrite H. Qed.


Lemma bind_assoc {A B C} (m : M A) (k1 : A -> M B) (k2 : B -> M C) (w : World) :
  bind (bind m k1) k2 w = bind m (fun a => bind (k1 a) k2) w.
Proof. unfold bind. destruct (m w); reflexivity. Qed.

Lemma bind_ret_l {A B} (a : A) (k : A -> M B) (w : World) :
  bind (ret a) k w = k a w.
Proof. reflexivity. Qed.

Section Exec.
Context (h : gmap Z (list Z)) (b : Z) (o : gmap Z (list Z)) (j : Z -> Z -> Z).

Lemma load_obj_ok (this off n : Z) (buf : list Z) :
  o !! this = Some buf -> 0 <= off -> 0 <= n -> off + n <= len buf ->
  load (Obj this off) n (mkWorld h b o j) = Ok (slice off n buf) (mkWorld h b o j).
Proof.
  intros Hb H0 H1 H2. unfold load. destruct (Z.eqb_spec n 0) as [-> | Hn].
  - reflexivity.
  - unfold array_of. cbn [objs heap]. rewrite Hb.
    cbn [fmap option_fmap option_map]. now rewrite in_bounds_true.
Qed.

Lemma load_heap_ok (base off n : Z) (blk : list Z) :
  h !! base = Some blk -> 0 <= off -> 0 <= n -> off + n <= len blk ->
  load (Heap base off) n (mkWorld h b o j) = Ok (slice off n blk) (mkWorld h b o j).
Proof.
  intros Hb H0 H1 H2. unfold load. destruct (Z.eqb_spec n 0) as [-> | Hn].
  - reflexivity.
  - unfold array_of. cbn [objs heap]. rewrite Hb.
    cbn [fmap option_fmap option_map]. now rewrite in_bounds_true.
Qed.

Lemma load_lit_ok (arr : list Z) (off n : Z) :
  0 <= off -> 0 <= n -> off + n <= len arr ->
  load (Lit arr off) n (mkWorld h b o j) = Ok (slice off n arr) (mkWorld h b o j).
Proof.
  intros H0 H1 H2. unfold load. destruct (Z.eqb_spec n 0) as [-> | Hn].
  - reflexivity.
  - unfold array_of. now rewrite in_bounds_true.
Qed.

Lemma store_obj_ok (this off : Z) (bs buf : list Z) :
  o !! this = Some buf -> 0 <= off -> off + len bs <= len buf ->
  store (Obj this off) bs (mkWorld h b o j)
  = Ok tt (mkWorld h b (<[this := put off bs buf]> o) j).
Proof.
  intros Hb H0 H1. unfold store. destruct bs as [| c bs].
  - f_equal. f_equal. symmetry. apply insert_id. rewrite Hb. f_equal.
    unfold put. simpl. rewrite Nat.add_0_r. symmetry. apply take_drop.
  - cbn [objs]. rewrite Hb. rewrite in_bounds_true by lia. reflexivity.
Qed.

Lemma store_heap_ok (base off : Z) (bs blk : list Z) :
  h !! base = Some blk -> 0 <= off -> off + len bs <= len blk ->
  store (Heap base off) bs (mkWorld h b o j)
  = Ok tt (mkWorld (<[base := put off bs blk]> h) b o j).
Proof.
  intros Hb H0 H1. unfold store. destruct bs as [| c bs].
  - f_equal. f_equal. symmetry. apply insert_id. rewrite Hb. f_equal.
    unfold put. simpl. rewrite Nat.add_0_r. symmetry. apply take_drop.
  - cbn [heap]. rewrite Hb. rewrite in_bounds_true by lia. reflexivity.
Qed.

Lemma get_word_ok (this off : Z) (buf : list Z) :
  o !! this = Some buf -> 0 <= off -> off + 8 <= len buf ->
  String.get_word this off (mkWorld h b o j) = Ok (word_at off buf) (mkWorld h b o j).
Proof.
  intros. unfold String.get_word.
  erewrite bind_ok by (apply load_obj_ok; eauto; lia). reflexivity.
Qed.

Lemma get_byte_ok (this off : Z) (buf : list Z) :
  o !! this = Some buf -> 0 <= off -> off + 1 <= len buf ->
  String.get_byte this off (mkWorld h b o j) = Ok (byte_at off buf) (mkWorld h b o j).
Proof.
  intros. unfold String.get_byte.
  erewrite bind_ok by (apply load_obj_ok; eauto; lia). reflexivity.
Qed.

Lemma set_word_ok (this off v : Z) (buf : list Z) :
  o !! this = Some buf -> 0 <= off -> off + 8 <= len buf ->
  String.set_word this off v (mkWorld h b o j)
  = Ok tt (mkWorld h b (<[this := put off (le_bytes 8 v) buf]> o) j).
Proof.
  intros. unfold String.set_word. apply store_obj_ok; auto; rewrite length_le_bytes; lia.
Qed.

Lemma set_byte_ok (this off v : Z) (buf : list Z) :
  o !! this = Some buf -> 0 <= off -> off + 1 <= len buf ->
  String.set_byte this off v (mkWorld h b o j)
  = Ok tt (mkWorld h b (<[this := put off (le_bytes 1 v) buf]> o) j).
Proof.
  intros. unfold String.set_byte. apply store_obj_ok; auto; rewrite length_le_bytes; lia.
Qed.

Lemma memset_buffer_ok (this : Z) :
  String.memset_buffer this (mkWorld h b o j)
  = Ok tt (mkWorld h b (<[this := replicate 48 0]> o) j).
Proof. reflexivity. Qed.

Lemma IsSmall_ok (this : Z) (buf : list Z) :
  o !! this = Some buf -> length buf = 48%nat ->
  String.IsSmall this (mkWorld h b o j)
  = Ok (LSBFlag.GetFlag (byte_at 47 buf)) (mkWorld h b o j).
Proof.
  intros Hb Hl. unfold String.IsSmall.
  erewrite bind_ok by (apply get_byte_ok; eauto; unfold String.small_remainingSizeFlag, String.sboSize; lia).
  reflexivity.
Qed.

Lemma new_array_ok (n : Z) :
  b + Z.max n 1 <= heap_limit ->
  new_array n (mkWorld h b o j)
  = Ok b (mkWorld (<[b := fresh_block (mkWorld h b o j) n]> h) (b + Z.max n 1) o j).
Proof.
  intros Hfit. unfold new_array. cbn [brk heap objs junk].
  destruct (Z.leb_spec (b + Z.max n 1) heap_limit); [reflexivity | lia].
Qed.

Lemma new_array_bad (n : Z) :
  heap_limit < b + Z.max n 1 ->
  new_array n (mkWorld h b o j) = BadAlloc (mkWorld h b o j).
Proof.
  intros Hfit. unfold new_array. cbn [brk].
  destruct (Z.leb_spec (b + Z.max n 1) heap_limit); [lia | reflexivity].
Qed.

Lemma delete_array_ok (a : Z) (blk : list Z) :
  h !! a = Some blk -> a <> 0 ->
  delete_array a (mkWorld h b o j) = Ok tt (mkWorld (delete a h) b o j).
Proof.
  intros Hb Ha. unfold delete_array. destruct (Z.eqb_spec a 0); [contradiction |].
  cbn [heap]. now rewrite Hb.
Qed.

Lemma strlen_ok (p : pointer) (s : list Z) :
  points_to_text (mkWorld h b o j) p s ->
  strlen p (mkWorld h b o j) = Ok (len s) (mkWorld h b o j).
Proof.
  intros (Hs & Hlim & arr & off & rest & Ha & Hoff & Hd). unfold strlen.
  rewrite Ha. destruct (Z.leb_spec 0 off); [| lia].
  rewrite Hd, strlen_list_text by assumption. reflexivity.
Qed.

End Exec.

Lemma length_fresh_block (w : World) (n : Z) : length (fresh_block w n) = Z.to_nat n.
Proof. unfold fresh_block. now rewrite length_fmap, length_seqZ. Qed.

(** Reading a terminated text through the pointer that denotes it. *)
Lemma points_to_text_load (w : World) (p : pointer) (s : list Z) :
  points_to_text w p s -> load p (len s + 1) w = Ok (s ++ [0]) w.
Proof.
  intros (Hs & Hlim & arr & off & rest & Ha & Hoff & Hd). unfold load.
  destruct (Z.eqb_spec (len s + 1) 0); [lia |]. rewrite Ha.
  assert (length (drop (Z.to_nat off) arr) = (length s + S (length rest))%nat) as Hl
    by (rewrite Hd, length_app; reflexivity).
  rewrite length_drop in Hl.
  rewrite in_bounds_true by lia. f_equal.
  unfold slice. rewrite Hd.
  replace (Z.to_nat (len s + 1)) with (length s + 1)%nat by lia.
  rewrite take_app_add. reflexivity.
Qed.

Lemma points_to_text_c_str (w : World) (p : pointer) (s : list Z) :
  points_to_text w p s -> c_str p w = Some s.
Proof.
  intros Hp. unfold c_str. destruct w as [h b o j].
  rewrite (strlen_ok _ _ _ _ _ _ Hp).
  destruct Hp as (Hs & Hlim & arr & off & rest & Ha & Hoff & Hd). rewrite Ha.
  f_equal. unfold slice. rewrite Hd, Nat2Z.id. apply take_app_length.
Qed.

(** The methods in terms of the blocks they repeat. *)
Lemma String_copy_unfold (this other : Z) :
  String.String_copy this other
  = (do* String.memset_buffer this in String.copy_from this other).
Proof. reflexivity. Qed.

Lemma String_move_unfold (this other : Z) :
  String.String_move this other
  = (do* String.memset_buffer this in String.move_from this other).
Proof. reflexivity. Qed.

Lemma String_dtor_unfold (this : Z) :
  String.String_dtor this
  = (do* String.release this in
     fun w => Ok tt (set_objs (delete this (objs w)) w)).
Proof. reflexivity. Qed.

Lemma assign_copy_unfold (this other : Z) :
  String.assign_copy this other
  = if this =? other then ret tt
    else do* String.release this in
         do* String.memset_buffer this in String.copy_from this other.
Proof. reflexivity. Qed.

Lemma assign_move_unfold (this other : Z) :
  String.assign_move this other
  = if this =? other then ret tt
    else do* String.release this in
         do* String.memset_buffer this in String.move_from this other.
Proof. reflexivity. Qed.

Lemma Append_cstr_unfold (this : Z) (str : pointer) :
  String.Append_cstr this str
  = if String.is_null str then ret tt
    else let* appendSize := strlen str in
         if appendSize =? 0 then ret tt
         else String.append_from this (ret str) appendSize.
Proof. reflexivity. Qed.

(* ================================================================== *)
(** ** Facts: the two views of the union *)
(* ================================================================== *)

Lemma heap_limit_eq : heap_limit = 140737488355328.
Proof. reflexivity. Qed.

(** Linear arithmetic that knows the value of [heap_limit]; disequalities
    that the goal does not need are dropped when they get in the way. *)
Ltac zlia :=
  pose proof heap_limit_eq;
  first
    [ lia
    | repeat match goal with H : _ <> _ |- _ => clear H end; lia ].

Ltac layout :=
  unfold String.small_remainingSizeFlag, String.small_sboBuffer,
    String.normal_data, String.normal_capacity, String.normal_sizeFlag,
    String.sboSize in *;
  change (48 - 1) with 47 in *.

Ltac solve_len :=
  layout;
  repeat match goal with
  | |- context [length (put ?off ?bs ?arr)] =>
      rewrite (length_put off bs arr) by solve_len
  | |- context [length (slice ?off ?n ?arr)] =>
      rewrite (length_slice off n arr) by solve_len
  | |- context [length (le_bytes ?n ?v)] => rewrite (length_le_bytes n v)
  | |- context [length (replicate _ _)] => rewrite length_replicate
  | |- context [length (fresh_block _ _)] => rewrite length_fresh_block
  | |- context [length (_ ++ _)] => rewrite length_app
  end;
  cbn [length]; zlia.

Lemma wrap64_small (x : Z) : 0 <= x < 2 ^ 64 -> String.wrap64 x = x.
Proof. intros. apply Z.mod_small. assumption. Qed.

Lemma wrap8_small (x : Z) : 0 <= x < 2 ^ 8 -> String.wrap8 x = x.
Proof. intros. apply Z.mod_small. assumption. Qed.

Lemma word_at_put_same (off v : Z) (buf : list Z) :
  0 <= off -> off + 8 <= len buf -> 0 <= v < 2 ^ 64 ->
  word_at off (put off (le_bytes 8 v) buf) = v.
Proof.
  intros. unfold word_at. rewrite slice_put_same by solve_len.
  rewrite le_value_bytes. apply Z.mod_small. assumption.
Qed.

Lemma word_at_put_disj (off off' : Z) (bs buf : list Z) :
  0 <= off -> 0 <= off' -> off' + len bs <= len buf ->
  off + 8 <= off' \/ off' + len bs <= off ->
  word_at off (put off' bs buf) = word_at off buf.
Proof. intros. unfold word_at. now rewrite slice_put_disj. Qed.

Lemma byte_at_put_same (off v : Z) (buf : list Z) :
  0 <= off -> off + 1 <= len buf -> 0 <= v < 2 ^ 8 ->
  byte_at off (put off (le_bytes 1 v) buf) = v.
Proof.
  intros. unfold byte_at. rewrite slice_put_same by solve_len.
  rewrite le_value_bytes. apply Z.mod_small. assumption.
Qed.

Lemma byte_at_put_disj (off off' : Z) (bs buf : list Z) :
  0 <= off -> 0 <= off' -> off' + len bs <= len buf ->
  off + 1 <= off' \/ off' + len bs <= off ->
  byte_at off (put off' bs buf) = byte_at off buf.
Proof. intros. unfold byte_at. now rewrite slice_put_disj. Qed.

(** The mode byte seen through the small view, after the normal view wrote
    the [sizeFlag] word: it is the top byte of that word. *)
Lemma byte_at_put_word_top (off v : Z) (buf : list Z) :
  0 <= off -> off + 8 <= len buf ->
  byte_at (off + 7) (put off (le_bytes 8 v) buf) = (v / 2 ^ 56) mod 256.
Proof.
  intros. unfold byte_at. rewrite slice_put_inside by solve_len.
  unfold slice. change (Z.to_nat 7) with 7%nat. change (Z.to_nat 1) with 1%nat.
  cbn [le_bytes drop take le_value].
  rewrite !Z.div_div by zlia. rewrite Z.mul_0_r, Z.add_0_r. reflexivity.
Qed.

Lemma byte_at_47_put_40 (v : Z) (buf : list Z) :
  48 <= len buf -> 0 <= v < 2 ^ 56 ->
  byte_at 47 (put 40 (le_bytes 8 v) buf) = 0.
Proof.
  intros. change 47 with (40 + 7). rewrite byte_at_put_word_top by zlia.
  rewrite Z.div_small by zlia. reflexivity.
Qed.

Lemma byte_at_zeros (i : Z) (n : nat) : byte_at i (replicate n 0) = 0.
Proof.
  unfold byte_at, slice. rewrite drop_replicate, take_replicate.
  destruct (Z.to_nat 1 `min` (n - Z.to_nat i))%nat as [| [| k]] eqn:E;
    [reflexivity | reflexivity | lia].
Qed.

Lemma word_at_zeros (i : Z) : word_at i (replicate 48 0) = 0.
Proof.
  unfold word_at, slice. rewrite drop_replicate, take_replicate.
  generalize (Z.to_nat 8 `min` (48 - Z.to_nat i))%nat as k.
  induction k as [| k IH]; [reflexivity |].
  cbn [replicate le_value]. rewrite IH. reflexivity.
Qed.

Lemma GetFlag_odd (x : Z) : LSBFlag.GetFlag (2 * x + 1) = true.
Proof. apply (GetFlag_pack x true). Qed.

Lemma GetValue_odd (x : Z) : LSBFlag.GetValue (2 * x + 1) = x.
Proof. apply (GetValue_pack x true). Qed.

Lemma GetValue_even (x : Z) : LSBFlag.GetValue (2 * x) = x.
Proof. rewrite <- (Z.add_0_r (2 * x)). apply (GetValue_pack x false). Qed.

Lemma Set_8_true (v : Z) : 0 <= v < 128 -> LSBFlag.Set_ 8 v true = 2 * v + 1.
Proof.
  intros. rewrite Set__pack by zlia. change (2 ^ (8 - 1)) with 128.
  rewrite Z.mod_small by zlia. reflexivity.
Qed.

Lemma Set_64_false (v : Z) : 0 <= v < 2 ^ 63 -> LSBFlag.Set_ 64 v false = 2 * v.
Proof.
  intros. rewrite Set__pack by zlia. change (2 ^ (64 - 1)) with (2 ^ 63).
  rewrite Z.mod_small by zlia. cbn [Z.b2z]. lia.
Qed.

(* ================================================================== *)
(** ** Facts: the observers *)
(* ================================================================== *)

(** Side conditions of a step: which buffer an object has, and bounds. *)
Ltac side :=
  first
    [ eassumption
    | apply lookup_insert_eq
    | rewrite lookup_insert_ne by congruence; side
    | solve_len ].

Ltac run_with lem := erewrite bind_ok; [| eapply lem; side]; cbv beta; layout.

Lemma shape_length (h : gmap Z (list Z)) (buf : list Z) (sh : shape) :
  buf_shape h buf sh -> length buf = 48%nat.
Proof. destruct sh; cbn; intros H; apply H. Qed.

Lemma shape_mode_byte (h : gmap Z (list Z)) (buf : list Z) (sh : shape) :
  buf_shape h buf sh ->
  LSBFlag.GetFlag (byte_at 47 buf) = match sh with Small _ => true | _ => false end.
Proof.
  destruct sh; cbn.
  - intros (_ & _ & _ & -> & _). apply GetFlag_odd.
  - intros (_ & _ & _ & _ & _ & -> & _). reflexivity.
  - intros (_ & _ & _ & _ & ->). reflexivity.
Qed.

Lemma IsSmall_shape (w : World) (this : Z) (sh : shape) :
  has_shape w this sh ->
  String.IsSmall this w = Ok (match sh with Small _ => true | _ => false end) w.
Proof.
  destruct w as [h b o j]. intros (buf & Hb & Hsh). cbn [objs heap] in *.
  rewrite (IsSmall_ok _ _ _ _ _ _ Hb (shape_length _ _ _ Hsh)).
  now rewrite (shape_mode_byte _ _ _ Hsh).
Qed.

Lemma GetSize_shape (w : World) (this : Z) (sh : shape) :
  has_shape w this sh ->
  String.GetSize this w = Ok (len (text_of sh)) w.
Proof.
  intros Hsh. unfold String.GetSize.
  rewrite (bind_ok _ _ _ _ _ (IsSmall_shape _ _ _ Hsh)).
  destruct w as [h b o j]. destruct Hsh as (buf & Hb & Hsh). cbn [objs heap] in *.
  destruct sh as [s | s base cap |]; cbn in Hsh.
  - destruct Hsh as (Hl & Hs & Hle & Hflag & Htxt).
    run_with get_byte_ok. rewrite Hflag, GetValue_odd.
    unfold String.sboSize. cbn [text_of]. unfold ret. f_equal.
    rewrite wrap64_small; lia.
  - destruct Hsh as (Hl & Hs & Hd & Hc & Hsz & _).
    run_with get_word_ok. rewrite Hsz, GetValue_even. reflexivity.
  - destruct Hsh as (Hl & Hd & Hc & Hsz & _).
    run_with get_word_ok. rewrite Hsz. reflexivity.
Qed.

Lemma CStr_shape (w : World) (this : Z) (sh : shape) :
  has_shape w this sh ->
  String.CStr this w = Ok (cstr_of this sh) w.
Proof.
  intros Hsh. unfold String.CStr.
  rewrite (bind_ok _ _ _ _ _ (IsSmall_shape _ _ _ Hsh)).
  destruct w as [h b o j]. destruct Hsh as (buf & Hb & Hsh). cbn [objs heap] in *.
  destruct sh as [s | s base cap |]; cbn in Hsh.
  - reflexivity.
  - destruct Hsh as (Hl & Hs & Hd & Hc & Hsz & Hm & Hnz & _).
    run_with get_word_ok. rewrite Hd. unfold ret, to_ptr. cbn [cstr_of].
    destruct (Z.eqb_spec base 0); [contradiction | reflexivity].
  - destruct Hsh as (Hl & Hd & _).
    run_with get_word_ok. rewrite Hd. reflexivity.
Qed.

(** The text a String holds is what its [CStr()] denotes. *)
Lemma shape_points_to_text (w : World) (this : Z) (sh : shape) :
  has_shape w this sh -> sh <> Moved ->
  points_to_text w (cstr_of this sh) (text_of sh).
Proof.
  intros (buf & Hb & Hsh) Hm. destruct sh as [s | s base cap |]; cbn in Hsh.
  - destruct Hsh as (Hl & Hs & Hle & Hflag & Htxt).
    split; [assumption |]. split; [rewrite heap_limit_eq; cbn [text_of]; lia |].
    exists buf, 0, (drop (length s + 1) buf). cbn [cstr_of array_of text_of].
    rewrite Hb. split; [reflexivity |]. split; [lia |].
    rewrite drop_0. rewrite <- (take_drop (length s + 1) buf) at 1.
    replace (s ++ 0 :: drop (length s + 1) buf)
      with ((s ++ [0]) ++ drop (length s + 1) buf) by now rewrite <- app_assoc.
    f_equal. rewrite <- Htxt. unfold slice. rewrite drop_0. f_equal. lia.
  - destruct Hsh as (Hl & Hs & Hd & Hc & Hsz & Hm' & Hnz & Hlt & Hcap & blk & Hblk & Hbl & Htxt).
    split; [assumption |]. split; [cbn [text_of]; lia |].
    exists blk, 0, (drop (length s + 1) blk). cbn [cstr_of array_of text_of].
    rewrite Hblk. split; [reflexivity |]. split; [lia |].
    rewrite drop_0. rewrite <- (take_drop (length s + 1) blk) at 1.
    replace (s ++ 0 :: drop (length s + 1) blk)
      with ((s ++ [0]) ++ drop (length s + 1) blk) by now rewrite <- app_assoc.
    f_equal. rewrite <- Htxt. unfold slice. rewrite drop_0. f_equal. lia.
  - contradiction.
Qed.

(* ================================================================== *)
(** ** Facts: construction *)
(* ================================================================== *)

Ltac views :=
  repeat first
    [ rewrite wrap64_small by zlia
    | rewrite wrap8_small by zlia
    | rewrite Set_64_false by zlia
    | rewrite Set_8_true by zlia
    | rewrite word_at_put_same by solve_len
    | rewrite word_at_put_disj by solve_len
    | rewrite byte_at_put_same by solve_len
    | rewrite byte_at_47_put_40 by solve_len
    | rewrite byte_at_put_disj by solve_len
    | rewrite word_at_zeros
    | rewrite byte_at_zeros ].

(** The conjuncts of a shape: lengths, views of the union, bounds. *)
Ltac shape_goals :=
  repeat split;
  first
    [ assumption
    | solve_len
    | views; first [reflexivity | assumption | zlia]
    | idtac ].

Ltac solve_frame :=
  split; [reflexivity |];
  split; [cbn [brk]; pose proof heap_limit_eq; lia |];
  split;
  [ let x := fresh "x" in let Hx := fresh "Hx" in
    intros x Hx; cbn [objs];
    repeat (apply not_elem_of_cons in Hx; destruct Hx as [? Hx]);
    rewrite ?lookup_insert_ne, ?lookup_delete_ne by congruence; reflexivity
  | let k := fresh "k" in let Hk1 := fresh "Hk" in let Hk2 := fresh "Hk" in
    intros k Hk1 Hk2; cbn [heap brk] in Hk2 |- *;
    rewrite ?lookup_insert_ne, ?lookup_delete_ne by zlia; reflexivity ].

Lemma frame_refl (this : list Z) (a : Z) (w : World) : frame this a w w.
Proof. repeat split; reflexivity || lia. Qed.

Lemma stable_text_lit (this : list Z) (a : Z) (w : World) (arr rest s : list Z) (off : Z) :
  no_nul s -> len s < heap_limit -> 0 <= off ->
  drop (Z.to_nat off) arr = s ++ 0 :: rest ->
  stable_text this a w (Lit arr off) s.
Proof.
  intros Hs Hl Ho Hd w' _. split; [assumption |]. split; [assumption |].
  exists arr, off, rest. auto.
Qed.

Lemma points_to_text_not_null (w : World) (p : pointer) (s : list Z) :
  points_to_text w p s -> String.is_null p = false.
Proof.
  intros (_ & _ & arr & off & rest & Ha & _). destruct p; try reflexivity.
  discriminate.
Qed.

Lemma empty_buffer_shape : small_shape empty_buffer [].
Proof.
  unfold small_shape. split; [reflexivity |]. split; [constructor |].
  split; [cbn; lia |]. split; reflexivity.
Qed.

Lemma String_default_ok (h : gmap Z (list Z)) (b : Z) (o : gmap Z (list Z))
    (j : Z -> Z -> Z) (this : Z) :
  String.String_default this (mkWorld h b o j)
  = Ok tt (mkWorld h b (<[this := empty_buffer]> o) j).
Proof.
  unfold String.String_default.
  run_with memset_buffer_ok.
  run_with set_byte_ok. rewrite insert_insert_eq.
  erewrite store_obj_ok by side. rewrite insert_insert_eq. reflexivity.
Qed.

Lemma String_cstr_null_ok (h : gmap Z (list Z)) (b : Z) (o : gmap Z (list Z))
    (j : Z -> Z -> Z) (this : Z) :
  String.String_cstr this Null (mkWorld h b o j)
  = Ok tt (mkWorld h b (<[this := empty_buffer]> o) j).
Proof.
  unfold String.String_cstr.
  run_with memset_buffer_ok. cbn [String.is_null].
  run_with set_byte_ok. rewrite insert_insert_eq.
  erewrite store_obj_ok by side. rewrite insert_insert_eq. reflexivity.
Qed.

Lemma String_cstr_spec (w : World) (this : Z) (p : pointer) (s : list Z) :
  heap_ok w -> stable_text [this] 0 w p s ->
  match String.String_cstr this p w with
  | Ok _ w' =>
      frame [this] 0 w w' /\ heap_ok w' /\
      if len s <? 47
      then has_shape w' this (Small s) /\ heap w' = heap w /\ brk w' = brk w
      else has_shape w' this (Large s (brk w) (len s + 1)) /\
           heap w' = <[brk w := s ++ [0]]> (heap w) /\
           brk w' = brk w + (len s + 1)
  | BadAlloc w' =>
      47 <= len s /\ heap_limit < brk w + (len s + 1) /\
      set_objs (delete this (objs w')) w' = set_objs (delete this (objs w)) w
  | Undefined => False
  end.
Proof.
  destruct w as [h b o j]. intros [Hbrk Hheap] Hp. cbn [brk heap] in *.
  pose proof heap_limit_eq as Hlim.
  assert (no_nul s /\ len s < heap_limit) as [Hs Hlen].
  { destruct (Hp _ (frame_refl _ _ _)) as (? & ? & _). auto. }
  unfold String.String_cstr.
  run_with memset_buffer_ok.
  rewrite (points_to_text_not_null _ _ _ (Hp _ (frame_refl _ _ _))).
  erewrite bind_ok; [| apply strlen_ok, Hp; solve_frame]. cbv beta. layout.
  destruct (Z.ltb_spec (len s) 47) as [Hsmall | Hlarge].
  - run_with set_byte_ok. rewrite insert_insert_eq.
    unfold memcpy. rewrite wrap64_small by zlia.
    erewrite bind_ok; [| apply points_to_text_load, Hp; solve_frame]. cbv beta.
    erewrite store_obj_ok by side. rewrite insert_insert_eq.
    split; [solve_frame |]. split; [split; assumption |].
    split; [| split; reflexivity].
    eexists. split; [apply lookup_insert_eq |]. cbn [buf_shape].
    shape_goals.
    rewrite slice_put_same by solve_len. reflexivity.
  - run_with set_word_ok. rewrite insert_insert_eq.
    run_with set_word_ok. rewrite insert_insert_eq.
    run_with get_word_ok. views.
    destruct (Z_le_gt_dec (b + (len s + 1)) heap_limit) as [Hfit | Hfull].
    + run_with new_array_ok.
      run_with set_word_ok. rewrite insert_insert_eq.
      run_with get_word_ok. views.
      unfold to_ptr. destruct (Z.eqb_spec b 0); [lia |].
      unfold memcpy.
      erewrite bind_ok; [| apply points_to_text_load, Hp; solve_frame]. cbv beta.
      erewrite store_heap_ok; [| apply lookup_insert_eq | lia | solve_len].
      rewrite insert_insert_eq, put_full by solve_len.
      replace (Z.max (len s + 1) 1) with (len s + 1) by zlia.
      split; [solve_frame |]. split.
      { split; cbn [brk heap]; [lia |]. intros a blk Ha.
        destruct (decide (a = b)) as [-> | Hne]; [lia |].
        rewrite lookup_insert_ne in Ha by congruence.
        apply Hheap in Ha. zlia. }
      split; [| split; reflexivity].
      eexists. split; [apply lookup_insert_eq |]. cbn [buf_shape heap].
      shape_goals.
      * exists (s ++ [0]). split; [apply lookup_insert_eq |].
        split; [solve_len |]. apply slice_all. solve_len.
    + erewrite bind_bad by (apply new_array_bad; zlia).
      split; [zlia |]. split; [zlia |].
      unfold set_objs. cbn [heap brk objs junk]. now rewrite delete_insert_eq.
Qed.

(* ================================================================== *)
(** ** Facts: growth *)
(* ================================================================== *)

Lemma text_prefix (arr s : list Z) :
  slice 0 (len s + 1) arr = s ++ [0] -> slice 0 (len s) arr = s.
Proof.
  intros H. rewrite (slice_0_prefix (len s) (len s + 1) arr (s ++ [0])) by (lia || assumption).
  now apply slice_app_l.
Qed.

Lemma shape_text_bound (h : gmap Z (list Z)) (buf : list Z) (sh : shape) :
  buf_shape h buf sh -> len (text_of sh) < heap_limit.
Proof.
  pose proof heap_limit_eq.
  destruct sh as [s | s base cap |]; cbn.
  - intros (_ & _ & Hle & _). lia.
  - intros (_ & _ & _ & _ & _ & _ & _ & Hlt & Hcap & _). lia.
  - intros _. lia.
Qed.

Lemma heap_ok_no_null (h : gmap Z (list Z)) (b : Z) (o : gmap Z (list Z))
    (j : Z -> Z -> Z) :
  heap_ok (mkWorld h b o j) -> h !! 0 = None.
Proof.
  intros [_ Hh]. destruct (h !! 0) as [blk |] eqn:E; [| reflexivity].
  apply Hh in E. lia.
Qed.

Lemma heap_ok_fresh (h : gmap Z (list Z)) (b : Z) (o : gmap Z (list Z))
    (j : Z -> Z -> Z) :
  heap_ok (mkWorld h b o j) -> h !! b = None.
Proof.
  intros [_ Hh]. destruct (h !! b) as [blk |] eqn:E; [| reflexivity].
  apply Hh in E. cbn in E. lia.
Qed.

(** [ReallocateAndCopy(newCapacity, GetSize())]: the new block receives the
    live text and nothing else; the old block, if any, is released. *)
Lemma ReallocateAndCopy_ok (h : gmap Z (list Z)) (b : Z) (o : gmap Z (list Z))
    (j : Z -> Z -> Z) (this : Z) (sh : shape) (buf : list Z) (newCapacity : Z) :
  heap_ok (mkWorld h b o j) ->
  o !! this = Some buf -> buf_shape h buf sh ->
  len (text_of sh) < newCapacity -> b + newCapacity <= heap_limit ->
  String.ReallocateAndCopy this newCapacity (len (text_of sh)) (mkWorld h b o j)
  = Ok tt
      (mkWorld
         (<[b := put 0 (text_of sh) (fresh_block (mkWorld h b o j) newCapacity)]>
            (delete (owned sh) h))
         (b + newCapacity)
         (<[this := put 0 (le_bytes 8 b)
                      (put 8 (le_bytes 8 newCapacity)
                         (put 40 (le_bytes 8 (2 * len (text_of sh))) buf))]> o)
         j).
Proof.
  intros Hok Hb Hsh Hcap Hfit.
  pose proof (shape_length _ _ _ Hsh) as Hl.
  pose proof (shape_mode_byte _ _ _ Hsh) as Hmode.
  pose proof (shape_text_bound _ _ _ Hsh) as Hbound.
  pose proof (heap_ok_no_null _ _ _ _ Hok) as Hnull.
  pose proof (heap_ok_fresh _ _ _ _ Hok) as Hfresh.
  destruct Hok as [Hbrk Hheap]. cbn [brk heap] in *.
  unfold String.ReallocateAndCopy.
  run_with new_array_ok. replace (Z.max newCapacity 1) with newCapacity by lia.
  run_with IsSmall_ok. rewrite Hmode.
  unfold to_ptr at 1 2. destruct (Z.eqb_spec b 0) as [| Hb0]; [lia |].
  set (fresh := fresh_block (mkWorld h b o j) newCapacity).
  assert (length fresh = Z.to_nat newCapacity) as Hfl by apply length_fresh_block.
  destruct sh as [s | s base cap |]; cbn [text_of owned] in *; cbn in Hsh.
  - destruct Hsh as (_ & Hs & Hle & Hflag & Htxt).
    unfold memcpy.
    erewrite bind_ok; [| erewrite bind_ok by (eapply load_obj_ok; side);
                         apply store_heap_ok; [apply lookup_insert_eq | lia | ]].
    2:{ rewrite length_slice by solve_len. lia. }
    cbv beta. layout. rewrite (text_prefix _ _ Htxt), insert_insert_eq.
    run_with set_word_ok. run_with set_word_ok. rewrite insert_insert_eq.
    erewrite set_word_ok by side. rewrite insert_insert_eq.
    rewrite Set_64_false by zlia.
    rewrite (delete_id h 0) by assumption. reflexivity.
  - destruct Hsh as (_ & Hs & Hd & Hc & Hsz & _ & Hnz & Hlt & Hcl & blk & Hblk & Hbl & Htxt).
    assert (base <> b) as Hne by (apply Hheap in Hblk; lia).
    erewrite bind_ok.
    2:{ run_with get_word_ok. rewrite Hd. unfold to_ptr.
        destruct (Z.eqb_spec base 0); [contradiction |].
        unfold memcpy.
        erewrite bind_ok.
        2:{ erewrite bind_ok.
            2:{ eapply load_heap_ok; [| lia | lia |].
                - rewrite lookup_insert_ne by congruence. eassumption.
                - lia. }
            apply store_heap_ok; [apply lookup_insert_eq | lia |].
            rewrite length_slice by lia. lia. }
        eapply delete_array_ok; [| assumption].
        rewrite lookup_insert_ne by congruence.
        rewrite lookup_insert_ne by congruence. eassumption. }
    cbv beta. rewrite (text_prefix _ _ Htxt), insert_insert_eq.
    run_with set_word_ok. run_with set_word_ok. rewrite insert_insert_eq.
    erewrite set_word_ok by side. rewrite insert_insert_eq.
    rewrite Set_64_false by zlia.
    rewrite delete_insert_ne by congruence. reflexivity.
  - destruct Hsh as (_ & Hd & Hc & Hsz & _).
    erewrite bind_ok.
    2:{ run_with get_word_ok. rewrite Hd. cbn [to_ptr Z.eqb].
        unfold memcpy.
        erewrite bind_ok; [| reflexivity]. reflexivity. }
    cbv beta. cbn [length Z.of_nat].
    run_with set_word_ok. run_with set_word_ok. rewrite insert_insert_eq.
    erewrite set_word_ok by side. rewrite insert_insert_eq.
    rewrite (delete_id h 0) by assumption.
    rewrite Set_64_false by zlia.
    reflexivity.
Qed.

Lemma ReallocateAndCopy_bad (h : gmap Z (list Z)) (b : Z) (o : gmap Z (list Z))
    (j : Z -> Z -> Z) (this newCapacity currentSize : Z) :
  1 <= newCapacity -> heap_limit < b + newCapacity ->
  String.ReallocateAndCopy this newCapacity currentSize (mkWorld h b o j)
  = BadAlloc (mkWorld h b o j).
Proof.
  intros. unfold String.ReallocateAndCopy.
  apply bind_bad, new_array_bad. lia.
Qed.

Lemma put_put_end (off : Z) (s t arr : list Z) :
  off = len s -> len s + len t <= len arr ->
  put off t (put 0 s arr) = put 0 (s ++ t) arr.
Proof.
  intros -> Hl. apply list_eq; intros i.
  rewrite !lookup_put by (rewrite ?length_put by lia; lia).
  rewrite length_app. cbn [Z.to_nat].
  repeat case_decide; try lia; try reflexivity.
  - now rewrite lookup_app_l by lia.
  - rewrite lookup_app_r by lia. f_equal. lia.
Qed.

(** What both overloads do once the block at [base] has room: copy the
    source after the text, record the new length. *)
Lemma append_tail (h : gmap Z (list Z)) (b : Z) (o : gmap Z (list Z))
    (j : Z -> Z -> Z) (this base cur total : Z) (src : M pointer) (p : pointer)
    (t buf blk : list Z) :
  let w := mkWorld h b o j in
  o !! this = Some buf -> length buf = 48%nat ->
  word_at 0 buf = base -> base <> 0 -> byte_at 47 buf = 0 ->
  h !! base = Some blk -> 0 <= cur -> cur + len t + 1 <= len blk ->
  len t < heap_limit -> total = cur + len t -> total < heap_limit ->
  src w = Ok p w -> load p (len t + 1) w = Ok (t ++ [0]) w ->
  (do* (let* data := String.get_word this String.normal_data in
        let* s := src in
        memcpy (padd (to_ptr data) cur) s (String.wrap64 (len t + 1))) in
   let* small' := String.IsSmall this in
   if small' then ret tt
   else String.set_word this String.normal_sizeFlag (LSBFlag.Set_ 64 total false)) w
  = Ok tt (mkWorld (<[base := put cur (t ++ [0]) blk]> h) b
             (<[this := put 40 (le_bytes 8 (2 * total)) buf]> o) j).
Proof.
  intros w Hb Hl Hd Hnz Hm Hblk Hcur Hroom Ht Htot Htl Hsrc Hload. subst w.
  erewrite bind_ok.
  2:{ run_with get_word_ok. rewrite Hd.
      erewrite bind_ok by eassumption. cbv beta.
      unfold to_ptr. destruct (Z.eqb_spec base 0); [contradiction |].
      cbn [padd]. unfold memcpy. rewrite wrap64_small by zlia.
      erewrite bind_ok by eassumption. cbv beta.
      apply store_heap_ok; [eassumption | lia |].
      rewrite length_app. cbn [length]. lia. }
  cbv beta. run_with IsSmall_ok. rewrite Hm.
  change (LSBFlag.GetFlag 0) with false. cbv iota.
  erewrite set_word_ok by side. rewrite Set_64_false by zlia.
  reflexivity.
Qed.

Lemma no_nul_app (s t : list Z) : no_nul s -> no_nul t -> no_nul (s ++ t).
Proof. intros. now apply Forall_app. Qed.

Lemma shape_no_nul (h : gmap Z (list Z)) (buf : list Z) (sh : shape) :
  buf_shape h buf sh -> no_nul (text_of sh).
Proof.
  destruct sh; cbn; try (intros H; apply H). intros _. constructor.
Qed.

(** The reallocating path of [Append], from the call of
    [ReallocateAndCopy] to the end of the function. *)
Lemma append_grow (h : gmap Z (list Z)) (b : Z) (o : gmap Z (list Z))
    (j : Z -> Z -> Z) (this : Z) (sh : shape) (buf : list Z) (src : M pointer)
    (t : list Z) :
  let w := mkWorld h b o j in
  let cur := len (text_of sh) in
  let total := cur + len t in
  heap_ok w -> o !! this = Some buf -> buf_shape h buf sh ->
  stable_source this (owned sh) w src t ->
  (do* (do* String.ReallocateAndCopy this (String.wrap64 (total * 2 + 1)) cur in
        let* data := String.get_word this String.normal_data in
        let* s := src in
        memcpy (padd (to_ptr data) cur) s (String.wrap64 (len t + 1))) in
   let* small' := String.IsSmall this in
   if small' then ret tt
   else String.set_word this String.normal_sizeFlag (LSBFlag.Set_ 64 total false)) w
  = if decide (b + (2 * total + 1) <= heap_limit)
    then Ok tt
           (mkWorld
              (<[b := put 0 (text_of sh ++ t ++ [0]) (fresh_block w (2 * total + 1))]>
                 (delete (owned sh) h))
              (b + (2 * total + 1))
              (<[this := put 40 (le_bytes 8 (2 * total))
                           (put 0 (le_bytes 8 b)
                              (put 8 (le_bytes 8 (2 * total + 1))
                                 (put 40 (le_bytes 8 (2 * cur)) buf)))]> o)
              j)
    else BadAlloc w.
Proof.
  intros w cur total Hok Hb Hsh (Ht & Htl & p & Hsrc). subst w.
  pose proof (shape_length _ _ _ Hsh) as Hl.
  pose proof (shape_text_bound _ _ _ Hsh) as Hbound.
  pose proof Hok as [Hbrk Hheap]. cbn [brk heap] in *.
  pose proof heap_limit_eq as Hlim.
  rewrite (wrap64_small (total * 2 + 1)) by lia.
  replace (total * 2 + 1) with (2 * total + 1) by lia.
  case_decide as Hfit.
  - rewrite bind_assoc.
    erewrite bind_ok; [| apply ReallocateAndCopy_ok; eauto; lia].
    set (fresh := fresh_block _ _).
    assert (length fresh = Z.to_nat (2 * total + 1)) as Hfl by apply length_fresh_block.
    set (buf1 := put 0 (le_bytes 8 b) _).
    set (w1 := mkWorld _ _ _ _).
    assert (frame [this] (owned sh) (mkWorld h b o j) w1) as Hfr by (subst w1; solve_frame).
    destruct (Hsrc _ Hfr) as [Hp Hload].
    subst w1. erewrite append_tail with (base := b) (buf := buf1); try eassumption;
      try apply lookup_insert_eq; try reflexivity; try lia.
    + rewrite !insert_insert_eq. f_equal. f_equal.
      rewrite put_put_end by (first [reflexivity | rewrite length_app; cbn [length]; lia]).
      reflexivity.
    + subst buf1. solve_len.
    + subst buf1. views. reflexivity.
    + subst buf1. views. reflexivity.
    + rewrite length_put by lia. lia.
  - erewrite bind_bad; [reflexivity |]. apply bind_bad, ReallocateAndCopy_bad; lia.
Qed.

Lemma heap_ok_alloc (h : gmap Z (list Z)) (b n a : Z) (o o' : gmap Z (list Z))
    (j : Z -> Z -> Z) (blk : list Z) :
  heap_ok (mkWorld h b o j) -> 1 <= n -> b + n <= heap_limit ->
  heap_ok (mkWorld (<[b := blk]> (delete a h)) (b + n) o' j).
Proof.
  intros [Hbrk Hheap] Hn Hfit. cbn [brk heap] in *. split; cbn [brk heap]; [lia |].
  intros k blk' Hk. destruct (decide (k = b)) as [-> | Hne]; [lia |].
  rewrite lookup_insert_ne in Hk by congruence.
  destruct (decide (k = a)) as [-> | Hne'].
  - now rewrite lookup_delete_eq in Hk.
  - rewrite lookup_delete_ne in Hk by congruence. apply Hheap in Hk. lia.
Qed.

Lemma append_from_spec (w : World) (this : Z) (sh : shape) (src : M pointer)
    (t : list Z) :
  heap_ok w -> has_shape w this sh -> stable_source this (owned sh) w src t ->
  match String.append_from this src (len t) w with
  | Ok _ w' =>
      frame [this] (owned sh) w w' /\ heap_ok w' /\
      has_shape w' this (appended (brk w) sh t) /\
      if needs_realloc sh (len t)
      then heap w'
           = <[brk w := put 0 (text_of sh ++ t ++ [0])
                          (fresh_block w (2 * (len (text_of sh) + len t) + 1))]>
               (delete (owned sh) (heap w))
           /\ brk w' = brk w + (2 * (len (text_of sh) + len t) + 1)
      else brk w' = brk w
  | BadAlloc w' =>
      w' = w /\ needs_realloc sh (len t) = true /\
      heap_limit < brk w + (2 * (len (text_of sh) + len t) + 1)
  | Undefined => False
  end.
Proof.
  intros Hok Hsh Hstable.
  pose proof (GetSize_shape _ _ _ Hsh) as Hsize.
  pose proof (IsSmall_shape _ _ _ Hsh) as Hsmall.
  destruct w as [h b o j]. destruct Hsh as (buf & Hb & Hsh). cbn [objs heap brk] in *.
  pose proof (append_grow h b o j this sh buf src t Hok Hb Hsh Hstable) as Hgrow.
  cbv zeta in Hgrow.
  destruct Hstable as (Ht & Htl & p & Hsrc).
  pose proof (shape_length _ _ _ Hsh) as Hl.
  pose proof (shape_text_bound _ _ _ Hsh) as Hbound.
  pose proof (shape_no_nul _ _ _ Hsh) as Hnn.
  pose proof Hok as [Hbrk Hheap]. cbn [brk heap] in *.
  pose proof heap_limit_eq as Hlim.
  unfold String.append_from.
  rewrite (bind_ok _ _ _ _ _ Hsize). cbv zeta.
  rewrite (bind_ok _ _ _ _ _ Hsmall).
  rewrite (wrap64_small (len (text_of sh) + len t)) by lia.
  unfold appended.
  destruct (needs_realloc sh (len t)) eqn:Hre.
  - (* a new block *)
    assert (match
        (if decide (b + (2 * (len (text_of sh) + len t) + 1) <= heap_limit)
         then Ok tt
           (mkWorld
              (<[b := put 0 (text_of sh ++ t ++ [0])
                        (fresh_block (mkWorld h b o j)
                           (2 * (len (text_of sh) + len t) + 1))]>
                 (delete (owned sh) h))
              (b + (2 * (len (text_of sh) + len t) + 1))
              (<[this := put 40 (le_bytes 8 (2 * (len (text_of sh) + len t)))
                           (put 0 (le_bytes 8 b)
                              (put 8 (le_bytes 8 (2 * (len (text_of sh) + len t) + 1))
                                 (put 40 (le_bytes 8 (2 * len (text_of sh))) buf)))]> o)
              j)
         else BadAlloc (mkWorld h b o j))
      with
      | Ok _ w' =>
          frame [this] (owned sh) (mkWorld h b o j) w' /\ heap_ok w' /\
          has_shape w' this
            (Large (text_of sh ++ t) b (2 * (len (text_of sh) + len t) + 1)) /\
          heap w'
          = <[b := put 0 (text_of sh ++ t ++ [0])
                     (fresh_block (mkWorld h b o j)
                        (2 * (len (text_of sh) + len t) + 1))]>
              (delete (owned sh) h)
          /\ brk w' = b + (2 * (len (text_of sh) + len t) + 1)
      | BadAlloc w' =>
          w' = mkWorld h b o j /\
          true = true /\ heap_limit < b + (2 * (len (text_of sh) + len t) + 1)
      | Undefined => False
      end) as Hgoal.
    { case_decide as Hfit; [| split; [reflexivity | split; [reflexivity | lia]]].
      set (total := len (text_of sh) + len t) in *.
      split; [solve_frame |].
      split; [eapply heap_ok_alloc; eauto; lia |].
      split; [| split; reflexivity].
      eexists. split; [apply lookup_insert_eq |]. cbn [buf_shape heap].
      shape_goals; try (now apply no_nul_app).
      - rewrite length_app. views. unfold total. f_equal. lia.
      - eexists. split; [apply lookup_insert_eq |]. split.
        + rewrite length_put; rewrite ?length_fresh_block, ?length_app; cbn [length]; lia.
        + rewrite app_assoc.
          apply slice_put_same; rewrite ?length_fresh_block, ?length_app; cbn [length]; lia. }
    rewrite <- Hgrow in Hgoal. clear Hgrow.
    destruct sh as [s | s base cap |]; cbn [text_of needs_realloc owned] in *; cbn in Hsh.
    + destruct Hsh as (_ & _ & Hle & Hflag & _).
      rewrite (bind_assoc (String.get_byte _ _)).
      run_with get_byte_ok. rewrite Hflag, GetValue_odd.
      apply negb_true_iff in Hre. rewrite Hre. exact Hgoal.
    + destruct Hsh as (_ & _ & _ & Hc & _).
      rewrite (bind_assoc (String.get_word _ _)).
      run_with get_word_ok. rewrite Hc.
      rewrite (wrap64_small (len s + len t + 1)) by lia.
      rewrite Hre. exact Hgoal.
    + destruct Hsh as (_ & _ & Hc & _).
      rewrite (bind_assoc (String.get_word _ _)).
      run_with get_word_ok. rewrite Hc.
      rewrite wrap64_small by (cbn [length]; lia).
      match goal with
      | |- context [?a <? ?c] => destruct (Z.ltb_spec a c); [| cbn [length] in *; lia]
      end.
      exact Hgoal.
  - (* in place *)
    clear Hgrow.
    destruct (Hsrc _ (frame_refl _ _ _)) as [Hp Hload].
    destruct sh as [s | s base cap |]; cbn [text_of needs_realloc owned] in *;
      cbn in Hsh; [| | discriminate].
    + destruct Hsh as (_ & _ & Hle & Hflag & Htxt).
      apply negb_false_iff in Hre. pose proof Hre as Hfits. apply Z.ltb_lt in Hfits.
      erewrite bind_ok.
      2:{ run_with get_byte_ok. rewrite Hflag, GetValue_odd, Hre.
          erewrite bind_ok by eassumption. cbv beta.
          unfold memcpy. rewrite wrap64_small by zlia.
          erewrite bind_ok.
          2:{ erewrite bind_ok by eassumption. cbv beta.
              apply store_obj_ok; [eassumption | lia |].
              rewrite length_app. cbn [length]. lia. }
          cbv beta. apply set_byte_ok; [apply lookup_insert_eq | lia | solve_len]. }
      cbv beta. rewrite insert_insert_eq, Z.add_0_l.
      views.
      set (buf' := put 47 _ _).
      assert (length buf' = 48%nat) as Hl'.
      { subst buf'. solve_len. }
      assert (byte_at 47 buf' = 2 * (47 - (len s + len t)) + 1) as Hflag'.
      { subst buf'. rewrite byte_at_put_same by solve_len. lia. }
      run_with IsSmall_ok. rewrite Hflag', GetFlag_odd. unfold ret.
      split; [solve_frame |]. split; [assumption |]. split; [| reflexivity].
      eexists. split; [apply lookup_insert_eq |]. cbn [buf_shape].
      split; [assumption |]. split; [now apply no_nul_app |].
      rewrite length_app.
      split; [lia |]. split; [rewrite Hflag'; lia |].
      subst buf'. rewrite slice_put_disj.
      * replace (Z.of_nat (length s + length t) + 1) with (len s + len (t ++ [0]))
          by (rewrite length_app; cbn [length]; lia).
        rewrite slice_0_put_end.
        -- rewrite (text_prefix _ _ Htxt). now rewrite app_assoc.
        -- lia.
        -- rewrite length_app. cbn [length]. lia.
      * lia.
      * lia.
      * solve_len.
      * left. rewrite ?length_app. lia.
    + destruct Hsh as (_ & _ & Hd & Hc & Hsz & Hm & Hnz & Hlt & Hcl & blk & Hblk & Hbl & Htxt).
      apply Z.ltb_ge in Hre.
      rewrite (bind_assoc (String.get_word _ _)).
      run_with get_word_ok. rewrite Hc.
      rewrite (wrap64_small (len s + len t + 1)) by lia.
      destruct (Z.ltb_spec cap (len s + len t + 1)); [lia |].
      rewrite bind_assoc, bind_ret_l.
      erewrite append_tail with (base := base) (buf := buf); try eassumption;
        try reflexivity; try lia.
      split; [solve_frame |].
      split.
      { split; cbn [brk heap]; [lia |]. intros k blk' Hk.
        destruct (decide (k = base)) as [-> | Hne]; [eapply Hheap; eassumption |].
        rewrite lookup_insert_ne in Hk by congruence. eapply Hheap; eassumption. }
      split; [| reflexivity].
      eexists. split; [apply lookup_insert_eq |]. cbn [buf_shape heap].
      shape_goals; try (now apply no_nul_app).
      * rewrite length_app. views. lia.
      * eexists. split; [apply lookup_insert_eq |]. split.
        -- solve_len.
        -- rewrite length_app.
           replace (Z.of_nat (length s + length t) + 1) with (len s + len (t ++ [0]))
             by (rewrite length_app; cbn [length]; lia).
           rewrite slice_0_put_end.
           ++ rewrite (text_prefix _ _ Htxt). now rewrite app_assoc.
           ++ lia.
           ++ rewrite length_app. cbn [length]. lia.
Qed.

(** An object that an operation leaves alone keeps its state. *)
Lemma has_shape_frame (w w' : World) (this : list Z) (a o : Z) (sh : shape) :
  heap_ok w -> frame this a w w' -> has_shape w o sh ->
  o ∉ this -> owned sh = 0 \/ owned sh <> a ->
  has_shape w' o sh.
Proof.
  intros [_ Hheap] (_ & _ & Hobjs & Hblocks) (buf & Hb & Hsh) Ho Hown.
  exists buf. split; [now rewrite Hobjs |].
  destruct sh as [s | s base cap |]; cbn in *; try assumption.
  destruct Hsh as (Hl & Hs & Hd & Hc & Hsz & Hm & Hnz & Hlt & Hcl & blk & Hblk & Hrest).
  repeat split; try assumption.
  exists blk. split; [| assumption].
  rewrite Hblocks; [assumption | |].
  - destruct Hown; [contradiction | assumption].
  - apply Hheap in Hblk. lia.
Qed.

Lemma stable_source_ret (this a : Z) (w : World) (p : pointer) (t : list Z) :
  stable_text [this] a w p t -> stable_source this a w (ret p) t.
Proof.
  intros Hp. destruct (Hp _ (frame_refl _ _ _)) as (Ht & Hl & _).
  split; [assumption |]. split; [assumption |].
  exists p. intros w' Hfr. split; [reflexivity |].
  apply points_to_text_load, Hp, Hfr.
Qed.

Lemma stable_source_CStr (this other : Z) (w : World) (sh sho : shape) :
  heap_ok w -> has_shape w other sho -> sho <> Moved -> this <> other ->
  owned sho = 0 \/ owned sho <> owned sh ->
  stable_source this (owned sh) w (String.CStr other) (text_of sho).
Proof.
  intros Hok Hsho Hnm Hne Hown.
  destruct Hsho as (buf & Hb & Hsh).
  split; [eapply shape_no_nul; eassumption |].
  split; [eapply shape_text_bound; eassumption |].
  exists (cstr_of other sho). intros w' Hfr.
  assert (has_shape w' other sho) as Hsho'.
  { eapply has_shape_frame; eauto.
    - exists buf. auto.
    - intros Hin. apply list_elem_of_singleton in Hin. congruence. }
  split; [now apply CStr_shape |].
  now apply points_to_text_load, shape_points_to_text.
Qed.

Lemma Append_cstr_spec (w : World) (this : Z) (sh : shape) (p : pointer)
    (t : list Z) :
  heap_ok w -> has_shape w this sh -> stable_text [this] (owned sh) w p t ->
  match String.Append_cstr this p w with
  | Ok _ w' =>
      if decide (t = []) then w' = w
      else
        frame [this] (owned sh) w w' /\ heap_ok w' /\
        has_shape w' this (appended (brk w) sh t) /\
        if needs_realloc sh (len t)
        then heap w'
             = <[brk w := put 0 (text_of sh ++ t ++ [0])
                            (fresh_block w (2 * (len (text_of sh) + len t) + 1))]>
                 (delete (owned sh) (heap w))
             /\ brk w' = brk w + (2 * (len (text_of sh) + len t) + 1)
        else brk w' = brk w
  | BadAlloc w' =>
      w' = w /\ t <> [] /\ needs_realloc sh (len t) = true /\
      heap_limit < brk w + (2 * (len (text_of sh) + len t) + 1)
  | Undefined => False
  end.
Proof.
  intros Hok Hsh Hp.
  pose proof (Hp _ (frame_refl _ _ _)) as Hp0.
  rewrite Append_cstr_unfold.
  rewrite (points_to_text_not_null _ _ _ Hp0).
  destruct w as [h b o j].
  rewrite (bind_ok _ _ _ _ _ (strlen_ok _ _ _ _ _ _ Hp0)).
  destruct t as [| c t].
  - reflexivity.
  - destruct (Z.eqb_spec (len (c :: t)) 0) as [E | _]; [cbn [length] in E; lia |].
    pose proof (append_from_spec _ this sh (ret p) (c :: t) Hok Hsh
                  (stable_source_ret _ _ _ _ _ Hp)) as H.
    destruct (String.append_from _ _ _ _); try assumption.
    destruct H as (? & ? & ?). split; [assumption |]. split; [discriminate | auto].
Qed.

Lemma Append_spec (w : World) (this other : Z) (sh sho : shape) :
  heap_ok w -> this <> other ->
  has_shape w this sh -> has_shape w other sho -> sho <> Moved ->
  owned sho = 0 \/ owned sho <> owned sh ->
  match String.Append this other w with
  | Ok _ w' =>
      frame [this] (owned sh) w w' /\ heap_ok w' /\
      has_shape w' this (appended (brk w) sh (text_of sho)) /\
      if needs_realloc sh (len (text_of sho))
      then heap w'
           = <[brk w := put 0 (text_of sh ++ text_of sho ++ [0])
                          (fresh_block w
                             (2 * (len (text_of sh) + len (text_of sho)) + 1))]>
               (delete (owned sh) (heap w))
           /\ brk w' = brk w + (2 * (len (text_of sh) + len (text_of sho)) + 1)
      else brk w' = brk w
  | BadAlloc w' =>
      w' = w /\ needs_realloc sh (len (text_of sho)) = true /\
      heap_limit < brk w + (2 * (len (text_of sh) + len (text_of sho)) + 1)
  | Undefined => False
  end.
Proof.
  intros Hok Hne Hsh Hsho Hnm Hown.
  unfold String.Append.
  rewrite (bind_ok _ _ _ _ _ (GetSize_shape _ _ _ Hsh)).
  rewrite (bind_ok _ _ _ _ _ (GetSize_shape _ _ _ Hsho)).
  pose proof (append_from_spec w this sh (String.CStr other) (text_of sho) Hok Hsh
                (stable_source_CStr this other w sh sho Hok Hsho Hnm Hne Hown)) as H.
  unfold String.append_from in H.
  rewrite (bind_ok _ _ _ _ _ (GetSize_shape _ _ _ Hsh)) in H.
  exact H.
Qed.

(* ================================================================== *)
(** ** Facts: copy, move, destruction *)
(* ================================================================== *)

Lemma has_shape_other (h : gmap Z (list Z)) (b b' : Z) (o : gmap Z (list Z))
    (j j' : Z -> Z -> Z) (this other : Z) (x : list Z) (sh : shape) :
  this <> other ->
  has_shape (mkWorld h b o j) other sh ->
  has_shape (mkWorld h b' (<[this := x]> o) j') other sh.
Proof.
  intros Hne (buf & Hb & Hsh). exists buf. cbn [objs heap] in *.
  split; [now rewrite lookup_insert_ne by congruence | assumption].
Qed.

Lemma String_copy_spec (w : World) (this other : Z) (sho : shape) :
  heap_ok w -> this <> other -> has_shape w other sho ->
  match String.String_copy this other w with
  | Ok _ w' =>
      sho <> Moved /\
      frame [this] 0 w w' /\ heap_ok w' /\
      has_shape w' this (copied (brk w) sho) /\
      has_shape w' other sho /\
      match sho with
      | Large s base cap =>
          brk w' = brk w + cap /\
          exists blk, heap w' = <[brk w := blk]> (heap w)
      | _ => heap w' = heap w /\ brk w' = brk w
      end
  | BadAlloc w' =>
      match sho with
      | Large _ _ cap => heap_limit < brk w + cap
      | Moved => heap_limit < brk w + 1
      | Small _ => False
      end /\
      exists buf', w' = set_objs (<[this := buf']> (objs w)) w /\
                   failed_shape buf' (len (text_of sho))
  | Undefined => sho = Moved
  end.
Proof.
  intros Hok Hne Hsho.
  pose proof heap_limit_eq as Hlim.
  destruct w as [h b o j]. cbn [brk heap] in *.
  pose proof (heap_ok_fresh _ _ _ _ Hok) as Hfresh.
  pose proof Hok as [Hbrk Hheap]. cbn [brk heap] in *.
  unfold String.String_copy.
  run_with memset_buffer_ok.
  assert (forall x, has_shape (mkWorld h b (<[this := x]> o) j) other sho) as Hsho'
    by (intros x; eapply has_shape_other; eauto).
  rewrite (bind_ok _ _ _ _ _ (IsSmall_shape _ _ _ (Hsho' _))).
  destruct Hsho as (bufo & Hbo & Hsh). cbn [objs heap] in *.
  pose proof (shape_length _ _ _ Hsh) as Hlo.
  destruct sho as [s | s base cap |]; cbn in Hsh.
  - (* inline: the whole union is copied *)
    unfold memcpy. run_with load_obj_ok.
    erewrite store_obj_ok by side. rewrite insert_insert_eq.
    rewrite slice_all by lia. rewrite put_full by (rewrite length_replicate; lia).
    split; [discriminate |]. split; [solve_frame |]. split; [assumption |].
    split; [exists bufo; split; [apply lookup_insert_eq | assumption] |].
    split; [apply Hsho' |]. split; reflexivity.
  - (* heap: a block of the same capacity *)
    destruct Hsh as (_ & Hs & Hd & Hc & Hsz & Hm & Hnz & Hlt & Hcl & blk & Hblk & Hbl & Htxt).
    rewrite (bind_ok _ _ _ _ _ (GetSize_shape _ _ _ (Hsho' _))). cbn [text_of].
    run_with set_word_ok. rewrite insert_insert_eq.
    run_with get_word_ok. rewrite Hc.
    run_with set_word_ok. rewrite insert_insert_eq.
    run_with get_word_ok. views.
    destruct (Z_le_gt_dec (b + cap) heap_limit) as [Hfit | Hfull].
    + run_with new_array_ok. replace (Z.max cap 1) with cap by lia.
      run_with set_word_ok. rewrite insert_insert_eq.
      run_with get_word_ok. views.
      run_with get_word_ok. rewrite Hd.
      unfold to_ptr. destruct (Z.eqb_spec b 0); [lia |].
      destruct (Z.eqb_spec base 0); [contradiction |].
      assert (base <> b) as Hneb by (apply Hheap in Hblk; lia).
      unfold memcpy.
      erewrite bind_ok.
      2:{ eapply load_heap_ok; [| lia | lia |].
          - rewrite lookup_insert_ne by congruence. eassumption.
          - lia. }
      cbv beta. rewrite Htxt.
      erewrite store_heap_ok;
        [| apply lookup_insert_eq | lia
         | rewrite length_fresh_block, length_app; cbn [length]; lia].
      rewrite insert_insert_eq.
      split; [discriminate |]. split; [solve_frame |].
      split.
      { rewrite <- (delete_id h 0) by (eapply heap_ok_no_null; eassumption).
        eapply heap_ok_alloc; eauto; lia. }
      split.
      { eexists. split; [apply lookup_insert_eq |]. cbn [copied buf_shape heap].
        shape_goals. eexists. split; [apply lookup_insert_eq |]. split.
        - rewrite length_put; rewrite ?length_fresh_block, ?length_app; cbn [length]; lia.
        - apply slice_put_same;
            rewrite ?length_fresh_block, ?length_app; cbn [length]; lia. }
      split.
      { exists bufo. split; [cbn [objs]; now rewrite lookup_insert_ne by congruence |].
        cbn [buf_shape heap]. shape_goals.
        exists blk. split; [now rewrite lookup_insert_ne by congruence |]. auto. }
      split; [reflexivity | eexists; reflexivity].
    + erewrite bind_bad by (apply new_array_bad; lia).
      split; [lia |]. eexists. split; [reflexivity |].
      cbn [text_of]. unfold failed_shape. shape_goals.
  - (* a source emptied by a move has nothing to copy *)
    destruct Hsh as (_ & Hd & Hc & Hsz & Hm).
    rewrite (bind_ok _ _ _ _ _ (GetSize_shape _ _ _ (Hsho' _))). cbn [text_of length].
    run_with set_word_ok. rewrite insert_insert_eq.
    run_with get_word_ok. rewrite Hc.
    run_with set_word_ok. rewrite insert_insert_eq.
    run_with get_word_ok. views.
    destruct (Z_le_gt_dec (b + 1) heap_limit) as [Hfit | Hfull].
    + run_with new_array_ok.
      run_with set_word_ok. rewrite insert_insert_eq.
      run_with get_word_ok. views.
      run_with get_word_ok. rewrite Hd. reflexivity.
    + erewrite bind_bad by (apply new_array_bad; lia).
      split; [lia |]. eexists. split; [reflexivity |].
      cbn [text_of length]. unfold failed_shape. shape_goals.
Qed.

(** The branch shared by the move constructor and move assignment, run on
    a zeroed [this]. *)
Lemma move_from_ok (h : gmap Z (list Z)) (b : Z) (o : gmap Z (list Z))
    (j : Z -> Z -> Z) (this other : Z) (sho : shape) :
  heap_ok (mkWorld h b o j) -> this <> other ->
  has_shape (mkWorld h b o j) other sho ->
  o !! this = Some (replicate 48 0) ->
  exists buf bufo,
    String.move_from this other (mkWorld h b o j)
    = Ok tt (mkWorld h b (<[other := bufo]> (<[this := buf]> o)) j) /\
    buf_shape h buf sho /\ buf_shape h bufo (moved_out sho).
Proof.
  intros [Hbrk Hheap] Hne Hsho Hthis. cbn [brk heap] in *.
  pose proof heap_limit_eq as Hlim.
  unfold String.move_from.
  rewrite (bind_ok _ _ _ _ _ (IsSmall_shape _ _ _ Hsho)).
  pose proof (GetSize_shape _ _ _ Hsho) as Hsize.
  destruct Hsho as (bufo & Hbo & Hsh). cbn [objs heap] in *.
  pose proof (shape_length _ _ _ Hsh) as Hlo.
  assert (forall (s : list Z) (base cap : Z),
    word_at 0 bufo = base -> word_at 8 bufo = cap ->
    0 <= base < 2 ^ 64 -> 0 <= cap < 2 ^ 64 -> len s < heap_limit ->
    String.GetSize other (mkWorld h b o j) = Ok (len s) (mkWorld h b o j) ->
    (let* len := String.GetSize other in
     do* String.set_word this String.normal_sizeFlag (LSBFlag.Set_ 64 len false) in
     let* capacity := String.get_word other String.normal_capacity in
     do* String.set_word this String.normal_capacity capacity in
     let* data := String.get_word other String.normal_data in
     do* String.set_word this String.normal_data data in
     do* String.set_word other String.normal_sizeFlag (LSBFlag.Set_ 64 0 false) in
     do* String.set_word other String.normal_capacity 0 in
     String.set_word other String.normal_data 0) (mkWorld h b o j)
    = Ok tt
        (mkWorld h b
           (<[other := put 0 (le_bytes 8 0)
                         (put 8 (le_bytes 8 0) (put 40 (le_bytes 8 0) bufo))]>
              (<[this := put 0 (le_bytes 8 base)
                           (put 8 (le_bytes 8 cap)
                              (put 40 (le_bytes 8 (2 * len s))
                                 (replicate 48 0)))]> o)) j)) as Hsteal.
  { intros s base cap Hd Hc Hbase Hcap Hs Hsz.
    rewrite (bind_ok _ _ _ _ _ Hsz).
    run_with set_word_ok.
    run_with get_word_ok. rewrite Hc.
    run_with set_word_ok. rewrite insert_insert_eq.
    run_with get_word_ok. rewrite Hd.
    run_with set_word_ok. rewrite insert_insert_eq.
    run_with set_word_ok.
    run_with set_word_ok. rewrite insert_insert_eq.
    erewrite set_word_ok by side. rewrite insert_insert_eq.
    views. reflexivity. }
  destruct sho as [s | s base cap |]; cbn in Hsh.
  - exists bufo, bufo. split; [| split; assumption].
    unfold memcpy. run_with load_obj_ok.
    erewrite store_obj_ok by side.
    rewrite slice_all by lia. rewrite put_full by (rewrite length_replicate; lia).
    f_equal. f_equal. symmetry. apply insert_id.
    now rewrite lookup_insert_ne by congruence.
  - destruct Hsh as (_ & Hs & Hd & Hc & Hsz & Hm & Hnz & Hlt & Hcl & blk & Hblk & Hbl & Htxt).
    pose proof (Hheap _ _ Hblk) as Hbase.
    eexists _, _. split; [apply (Hsteal s base cap); auto; lia |].
    cbn [moved_out buf_shape]. split.
    + shape_goals. exists blk. auto.
    + shape_goals.
  - destruct Hsh as (_ & Hd & Hc & Hsz & Hm).
    eexists _, _. split; [apply (Hsteal [] 0 0); auto; cbn [length]; lia |].
    cbn [moved_out buf_shape]. split; shape_goals.
Qed.

Lemma String_move_spec (w : World) (this other : Z) (sho : shape) :
  heap_ok w -> this <> other -> has_shape w other sho ->
  exists w',
    String.String_move this other w = Ok tt w' /\
    frame [this; other] 0 w w' /\
    heap w' = heap w /\ brk w' = brk w /\
    has_shape w' this sho /\ has_shape w' other (moved_out sho).
Proof.
  intros Hok Hne Hsho. destruct w as [h b o j].
  rewrite String_move_unfold. run_with memset_buffer_ok.
  destruct (move_from_ok h b (<[this := replicate 48 0]> o) j this other sho)
    as (buf & bufo & Hrun & Hsh & Hsho'); [exact Hok | exact Hne | |  |].
  { eapply has_shape_other; eauto. }
  { apply lookup_insert_eq. }
  rewrite Hrun, insert_insert_eq. eexists. split; [reflexivity |].
  split; [solve_frame |]. split; [reflexivity |]. split; [reflexivity |].
  split.
  - exists buf. cbn [objs heap]. split; [| assumption].
    rewrite lookup_insert_ne by congruence. apply lookup_insert_eq.
  - exists bufo. cbn [objs heap]. split; [apply lookup_insert_eq | assumption].
Qed.

(** The clean-up that assignment and destruction start with. *)
Lemma release_ok (h : gmap Z (list Z)) (b : Z) (o : gmap Z (list Z))
    (j : Z -> Z -> Z) (this : Z) (sh : shape) :
  heap_ok (mkWorld h b o j) -> has_shape (mkWorld h b o j) this sh ->
  exists buf,
    String.release this (mkWorld h b o j)
    = Ok tt (mkWorld (delete (owned sh) h) b (<[this := buf]> o) j).
Proof.
  intros Hok Hsh. unfold String.release.
  rewrite (bind_ok _ _ _ _ _ (IsSmall_shape _ _ _ Hsh)).
  pose proof (heap_ok_no_null _ _ _ _ Hok) as Hnull.
  destruct Hsh as (buf & Hb & Hsh). cbn [objs heap] in *.
  pose proof (shape_length _ _ _ Hsh) as Hl.
  destruct sh as [s | s base cap |]; cbn in Hsh; cbn [owned].
  - exists buf. unfold ret. rewrite delete_id by assumption.
    now rewrite insert_id.
  - destruct Hsh as (_ & Hs & Hd & Hc & Hsz & Hm & Hnz & Hlt & Hcl & blk & Hblk & _).
    run_with get_word_ok. rewrite Hd.
    destruct (Z.eqb_spec base 0); [contradiction |].
    erewrite bind_ok; [| eapply delete_array_ok; eassumption]. cbv beta.
    erewrite set_word_ok by side. eexists. reflexivity.
  - destruct Hsh as (_ & Hd & _).
    run_with get_word_ok. rewrite Hd. cbn [Z.eqb].
    exists buf. unfold ret. rewrite delete_id by assumption.
    now rewrite insert_id.
Qed.

Lemma String_dtor_spec (w : World) (this : Z) (sh : shape) :
  heap_ok w -> has_shape w this sh ->
  String.String_dtor this w
  = Ok tt (mkWorld (delete (owned sh) (heap w)) (brk w) (delete this (objs w)) (junk w)).
Proof.
  intros Hok Hsh. destruct w as [h b o j]. cbn [heap brk objs junk].
  destruct (release_ok h b o j this sh Hok Hsh) as (buf & Hrel).
  rewrite String_dtor_unfold. rewrite (bind_ok _ _ _ _ _ Hrel).
  unfold set_objs. cbn [heap brk objs junk].
  now rewrite delete_insert_eq.
Qed.

Lemma heap_ok_delete (h : gmap Z (list Z)) (b a : Z) (o o' : gmap Z (list Z))
    (j : Z -> Z -> Z) :
  heap_ok (mkWorld h b o j) -> heap_ok (mkWorld (delete a h) b o' j).
Proof.
  intros [Hbrk Hheap]. split; [assumption |]. cbn [heap brk] in *.
  intros k blk Hk. destruct (decide (k = a)) as [-> | Hne].
  - now rewrite lookup_delete_eq in Hk.
  - rewrite lookup_delete_ne in Hk by congruence. eauto.
Qed.

(** What [operator=] does to [this] before it copies or moves: its block
    is released and its union zeroed. *)
Lemma assign_prologue (w : World) (this : Z) (sh : shape) :
  heap_ok w -> has_shape w this sh ->
  let w1 := mkWorld (delete (owned sh) (heap w)) (brk w)
              (<[this := replicate 48 0]> (objs w)) (junk w) in
  forall (k : M unit),
    (do* String.release this in do* String.memset_buffer this in k) w = k w1.
Proof.
  intros Hok Hsh w1 k. subst w1. destruct w as [h b o j]. cbn [heap brk objs junk].
  destruct (release_ok h b o j this sh Hok Hsh) as (buf & Hrel).
  rewrite (bind_ok _ _ _ _ _ Hrel).
  run_with memset_buffer_ok. now rewrite insert_insert_eq.
Qed.

Lemma assign_prologue_frame (w : World) (this : Z) (sh : shape) :
  heap_ok w ->
  let w1 := mkWorld (delete (owned sh) (heap w)) (brk w)
              (<[this := replicate 48 0]> (objs w)) (junk w) in
  heap_ok w1 /\ frame [this] (owned sh) w w1.
Proof.
  intros Hok w1. subst w1. destruct w as [h b o j]. cbn [heap brk objs junk].
  split; [eapply heap_ok_delete; eassumption | solve_frame].
Qed.

Lemma heap_ok_null (w : World) : heap_ok w -> heap w !! 0 = None.
Proof. destruct w. apply heap_ok_no_null. Qed.

Lemma frame_trans (this : list Z) (a : Z) (w1 w2 w3 : World) :
  heap_ok w1 -> heap_ok w3 ->
  frame this a w1 w2 -> frame this 0 w2 w3 ->
  frame this a w1 w3.
Proof.
  intros Hok1 Hok3 (Hj1 & Hb1 & Ho1 & Hh1) (Hj2 & Hb2 & Ho2 & Hh2).
  split; [congruence |]. split; [lia |]. split.
  - intros o Ho. rewrite Ho2, Ho1 by assumption. reflexivity.
  - intros k Hk Hlt. destruct (decide (k = 0)) as [-> | Hk0].
    + now rewrite !heap_ok_null.
    + rewrite Hh2 by lia. now apply Hh1.
Qed.

Lemma assign_move_spec (w : World) (this other : Z) (sh sho : shape) :
  heap_ok w -> this <> other ->
  has_shape w this sh -> has_shape w other sho ->
  owned sho = 0 \/ owned sho <> owned sh ->
  exists w',
    String.assign_move this other w = Ok tt w' /\
    frame [this; other] (owned sh) w w' /\
    heap w' = delete (owned sh) (heap w) /\ brk w' = brk w /\
    has_shape w' this sho /\ has_shape w' other (moved_out sho).
Proof.
  intros Hok Hne Hsh Hsho Hown.
  rewrite assign_move_unfold. destruct (Z.eqb_spec this other); [contradiction |].
  rewrite (assign_prologue w this sh Hok Hsh).
  destruct (assign_prologue_frame w this sh Hok) as [Hok1 Hfr1].
  set (w1 := mkWorld _ _ _ _) in *.
  assert (has_shape w1 other sho) as Hsho1.
  { apply (has_shape_frame w w1 [this] (owned sh) other sho Hok Hfr1 Hsho); [| assumption].
    intros Hin. apply list_elem_of_singleton in Hin. congruence. }
  destruct w as [h b o j]. subst w1. cbn [heap brk objs junk] in *.
  destruct (move_from_ok _ _ _ _ this other sho Hok1 Hne Hsho1 (lookup_insert_eq _ _ _))
    as (buf & bufo & Hrun & Hshape & Hshapeo).
  rewrite Hrun, insert_insert_eq. eexists. split; [reflexivity |].
  split; [solve_frame |]. split; [reflexivity |]. split; [reflexivity |].
  split.
  - exists buf. cbn [objs heap]. split; [| assumption].
    rewrite lookup_insert_ne by congruence. apply lookup_insert_eq.
  - exists bufo. cbn [objs heap]. split; [apply lookup_insert_eq | assumption].
Qed.

Lemma assign_copy_spec (w : World) (this other : Z) (sh sho : shape) :
  heap_ok w -> this <> other ->
  has_shape w this sh -> has_shape w other sho ->
  owned sho = 0 \/ owned sho <> owned sh ->
  match String.assign_copy this other w with
  | Ok _ w' =>
      sho <> Moved /\
      frame [this] (owned sh) w w' /\ heap_ok w' /\
      has_shape w' this (copied (brk w) sho) /\
      has_shape w' other sho
  | BadAlloc w' =>
      match sho with
      | Large _ _ cap => heap_limit < brk w + cap
      | Moved => heap_limit < brk w + 1
      | Small _ => False
      end /\
      exists buf',
        w' = mkWorld (delete (owned sh) (heap w)) (brk w)
               (<[this := buf']> (objs w)) (junk w) /\
        failed_shape buf' (len (text_of sho))
  | Undefined => sho = Moved
  end.
Proof.
  intros Hok Hne Hsh Hsho Hown.
  rewrite assign_copy_unfold. destruct (Z.eqb_spec this other); [contradiction |].
  rewrite (assign_prologue w this sh Hok Hsh).
  destruct (assign_prologue_frame w this sh Hok) as [Hok1 Hfr1].
  set (w1 := mkWorld _ _ _ _) in *.
  assert (has_shape w1 other sho) as Hsho1.
  { apply (has_shape_frame w w1 [this] (owned sh) other sho Hok Hfr1 Hsho); [| assumption].
    intros Hin. apply list_elem_of_singleton in Hin. congruence. }
  pose proof (String_copy_spec w1 this other sho Hok1 Hne Hsho1) as H.
  rewrite String_copy_unfold in H.
  replace ((do* String.memset_buffer this in String.copy_from this other) w1)
    with (String.copy_from this other w1) in H.
  2:{ subst w1. unfold bind, String.memset_buffer, set_objs. cbn [heap brk objs junk].
      now rewrite insert_insert_eq. }
  destruct (String.copy_from this other w1) as [[] w' | w' |]; try assumption.
  - destruct H as (Hnm & Hfr & Hok' & Hthis & Hother & _).
    split; [assumption |].
    split; [eapply frame_trans; eassumption |].
    auto.
  - destruct H as (Hfull & buf' & -> & Hfailed).
    split; [exact Hfull |]. exists buf'. split; [| assumption].
    subst w1. unfold set_objs. cbn [heap brk objs junk].
    now rewrite insert_insert_eq.
Qed.

(* ================================================================== *)
(** ** Construction from a byte sequence *)
(* ================================================================== *)

Lemma text_shape (w : World) (this : Z) (sh : shape) :
  has_shape w this sh -> sh <> Moved -> text this w = Some (text_of sh).
Proof.
  intros Hsh Hm. unfold text. rewrite (CStr_shape _ _ _ Hsh).
  now apply points_to_text_c_str, shape_points_to_text.
Qed.

Lemma heap_ok_world0 : heap_ok world0.
Proof. split; [cbn; pose proof heap_limit_eq; lia |]. intros a blk H. discriminate. Qed.

Lemma stable_text_array (this : list Z) (a : Z) (w : World) (s rest : list Z) :
  no_nul s -> len s < heap_limit ->
  stable_text this a w (Lit (s ++ 0 :: rest) 0) s.
Proof. intros. eapply stable_text_lit; eauto; first [lia | reflexivity]. Qed.

(** C2.  Constructing a String from a terminated byte sequence [s] gives
    [GetSize() = length s] and a [CStr()] that reads as [s]; constructing
    from a null pointer raises nothing and gives exactly the object that
    the empty sequence gives, of size 0 and text [""]. *)
Theorem String_cstr_size_and_text (w : World) (this : Z) (s rest : list Z) :
  heap_ok w -> no_nul s -> len s < heap_limit ->
  (47 <= len s -> brk w + (len s + 1) <= heap_limit) ->
  (exists w',
      String.String_cstr this (Lit (s ++ 0 :: rest) 0) w = Ok tt w' /\
      String.GetSize this w' = Ok (len s) w' /\
      text this w' = Some s) /\
  (exists w',
      String.String_cstr this Null w = Ok tt w' /\
      String.GetSize this w' = Ok 0 w' /\
      text this w' = Some [] /\
      String.String_cstr this (Lit (0 :: rest) 0) w = Ok tt w').
Proof.
  intros Hok Hs Hl Hfit. split.
  - pose proof (String_cstr_spec w this _ s Hok
                  (stable_text_array _ _ _ _ rest Hs Hl)) as H.
    destruct (String.String_cstr _ _ _) as [[] w' | |].
    + exists w'. split; [reflexivity |].
      destruct H as (_ & _ & H).
      destruct (Z.ltb_spec (len s) 47); destruct H as (Hsh & _).
      * split; [apply (GetSize_shape _ _ _ Hsh) | now apply (text_shape _ _ _ Hsh)].
      * split; [apply (GetSize_shape _ _ _ Hsh) | now apply (text_shape _ _ _ Hsh)].
    + lia.
    + contradiction.
  - destruct w as [h b o j].
    assert (has_shape (mkWorld h b (<[this := empty_buffer]> o) j) this (Small []))
      as Hsh by (eexists; split; [apply lookup_insert_eq | apply empty_buffer_shape]).
    eexists. split; [apply String_cstr_null_ok |].
    split; [apply (GetSize_shape _ _ _ Hsh) |].
    split; [now apply (text_shape _ _ _ Hsh) |].
    unfold String.String_cstr. run_with memset_buffer_ok. cbn [String.is_null].
    erewrite bind_ok; [| reflexivity]. cbv beta.
    change (0 <? 47) with true. cbv iota.
    change (String.wrap64 (0 + 1)) with 1.
    run_with set_byte_ok. rewrite insert_insert_eq.
    unfold memcpy. run_with load_lit_ok.
    erewrite store_obj_ok by side. rewrite insert_insert_eq. reflexivity.
Qed.

(** The text "Hello" at program start. *)
Lemma String_cstr_size_and_text_witness :
  (exists w',
      String.String_cstr 1 (Lit ([72; 101; 108; 108; 111] ++ 0 :: []) 0) world0 = Ok tt w' /\
      String.GetSize 1 w' = Ok (len [72; 101; 108; 108; 111]) w' /\
      text 1 w' = Some [72; 101; 108; 108; 111]) /\
  (exists w',
      String.String_cstr 1 Null world0 = Ok tt w' /\
      String.GetSize 1 w' = Ok 0 w' /\
      text 1 w' = Some [] /\
      String.String_cstr 1 (Lit (0 :: []) 0) world0 = Ok tt w').
Proof.
  apply (String_cstr_size_and_text world0 1 [72; 101; 108; 108; 111] []).
  - exact heap_ok_world0.
  - repeat constructor; discriminate.
  - vm_compute. reflexivity.
  - cbn. lia.
Defined.

Lemma capacity_shape (w : World) (this : Z) (s : list Z) (base cap : Z) :
  has_shape w this (Large s base cap) ->
  String.get_word this String.normal_capacity w = Ok cap w.
Proof.
  destruct w as [h b o j]. intros (buf & Hb & Hsh). cbn [objs heap buf_shape] in *.
  destruct Hsh as (Hl & _ & _ & Hc & _).
  erewrite get_word_ok by side. layout. now rewrite Hc.
Qed.

(** C5.  A sequence of length 46 is stored inline and nothing is
    allocated; a sequence of length 47 or more is stored in a block of
    exactly [length + 1] bytes, which is the recorded capacity. *)
Theorem String_cstr_mode_boundary (w : World) (this : Z) (s rest : list Z) :
  heap_ok w -> no_nul s -> len s < heap_limit ->
  (len s = 46 ->
   exists w',
     String.String_cstr this (Lit (s ++ 0 :: rest) 0) w = Ok tt w' /\
     String.IsSmall this w' = Ok true w' /\
     heap w' = heap w) /\
  (47 <= len s -> brk w + (len s + 1) <= heap_limit ->
   exists w',
     String.String_cstr this (Lit (s ++ 0 :: rest) 0) w = Ok tt w' /\
     String.IsSmall this w' = Ok false w' /\
     String.CStr this w' = Ok (Heap (brk w) 0) w' /\
     String.get_word this String.normal_capacity w' = Ok (len s + 1) w' /\
     heap w !! brk w = None /\
     heap w' = <[brk w := s ++ [0]]> (heap w) /\
     len (s ++ [0]) = len s + 1).
Proof.
  intros Hok Hs Hl.
  pose proof (String_cstr_spec w this _ s Hok
                (stable_text_array _ _ _ _ rest Hs Hl)) as H.
  split.
  - intros H46. destruct (String.String_cstr _ _ _) as [[] w' | |].
    + exists w'. split; [reflexivity |]. destruct H as (_ & _ & H).
      destruct (Z.ltb_spec (len s) 47); [| lia]. destruct H as (Hsh & Hh & _).
      split; [apply (IsSmall_shape _ _ _ Hsh) | assumption].
    + lia.
    + contradiction.
  - intros H47 Hfit. destruct (String.String_cstr _ _ _) as [[] w' | |].
    + exists w'. split; [reflexivity |]. destruct H as (_ & _ & H).
      destruct (Z.ltb_spec (len s) 47); [lia |]. destruct H as (Hsh & Hh & _).
      split; [apply (IsSmall_shape _ _ _ Hsh) |].
      split; [apply (CStr_shape _ _ _ Hsh) |].
      split; [apply (capacity_shape _ _ _ _ _ Hsh) |].
      split; [destruct w; now apply heap_ok_fresh in Hok |].
      split; [assumption |]. rewrite length_app. cbn [length]. lia.
    + lia.
    + contradiction.
Qed.

(** 46 and 47 bytes at program start. *)
Lemma String_cstr_mode_boundary_witness :
  (len (replicate 46 65) = 46 ->
   exists w',
     String.String_cstr 1 (Lit (replicate 46 65 ++ 0 :: []) 0) world0 = Ok tt w' /\
     String.IsSmall 1 w' = Ok true w' /\
     heap w' = heap world0) /\
  (47 <= len (replicate 46 65) ->
   brk world0 + (len (replicate 46 65) + 1) <= heap_limit ->
   exists w',
     String.String_cstr 1 (Lit (replicate 46 65 ++ 0 :: []) 0) world0 = Ok tt w' /\
     String.IsSmall 1 w' = Ok false w' /\
     String.CStr 1 w' = Ok (Heap (brk world0) 0) w' /\
     String.get_word 1 String.normal_capacity w' = Ok (len (replicate 46 65) + 1) w' /\
     heap world0 !! brk world0 = None /\
     heap w' = <[brk world0 := replicate 46 65 ++ [0]]> (heap world0) /\
     len (replicate 46 65 ++ [0]) = len (replicate 46 65) + 1).
Proof.
  apply (String_cstr_mode_boundary world0 1 (replicate 46 65) []).
  - exact heap_ok_world0.
  - apply Forall_replicate. discriminate.
  - vm_compute. reflexivity.
Defined.

(* ================================================================== *)
(** ** Append *)
(* ================================================================== *)

Lemma appended_text (a : Z) (sh : shape) (t : list Z) :
  sh <> Moved -> text_of (appended a sh t) = text_of sh ++ t /\ appended a sh t <> Moved.
Proof.
  intros Hm. unfold appended.
  destruct (needs_realloc sh (len t)); [split; [reflexivity | discriminate] |].
  destruct sh; try contradiction; split; (reflexivity || discriminate).
Qed.

(** C1.  A String built from [a] to which [b] is appended, either as a
    byte sequence or as another String built from [b], reads as [a ++ b]
    and has size [length a + length b]. *)
Theorem append_concatenates (w : World) (this other : Z) (a b ra rb : list Z) :
  heap_ok w -> this <> other ->
  no_nul a -> no_nul b -> len a < heap_limit -> len b < heap_limit ->
  brk w + (len a + 1) + (len b + 1) + (2 * (len a + len b) + 1) <= heap_limit ->
  (exists w1 w2,
      String.String_cstr this (Lit (a ++ 0 :: ra) 0) w = Ok tt w1 /\
      String.Append_cstr this (Lit (b ++ 0 :: rb) 0) w1 = Ok tt w2 /\
      String.GetSize this w2 = Ok (len a + len b) w2 /\
      text this w2 = Some (a ++ b)) /\
  (exists w1 w2 w3,
      String.String_cstr this (Lit (a ++ 0 :: ra) 0) w = Ok tt w1 /\
      String.String_cstr other (Lit (b ++ 0 :: rb) 0) w1 = Ok tt w2 /\
      String.Append this other w2 = Ok tt w3 /\
      String.GetSize this w3 = Ok (len a + len b) w3 /\
      text this w3 = Some (a ++ b)).
Proof.
  intros Hok Hne Ha Hb Hla Hlb Hfit.
  pose proof (String_cstr_spec w this _ a Hok
                (stable_text_array _ _ _ _ ra Ha Hla)) as H1.
  destruct (String.String_cstr this _ w) as [[] w1 | |]; [| lia | contradiction].
  destruct H1 as (Hfr1 & Hok1 & H1).
  assert (exists sh, has_shape w1 this sh /\ text_of sh = a /\ sh <> Moved /\
                     brk w1 <= brk w + (len a + 1) /\
                     (owned sh = 0 \/ owned sh < brk w1)) as (sh & Hsh & Hta & Hnm & Hb1 & Hown).
  { destruct (Z.ltb_spec (len a) 47); destruct H1 as (Hsh & _ & Hbrk).
    - exists (Small a). repeat split; try assumption; try discriminate; try lia.
      now left.
    - exists (Large a (brk w) (len a + 1)).
      repeat split; try assumption; try discriminate; try lia.
      right. cbn [owned]. lia. }
  split.
  - exists w1. 
    pose proof (Append_cstr_spec w1 this sh _ b Hok1 Hsh
                  (stable_text_array _ _ _ _ rb Hb Hlb)) as H2.
    destruct (String.Append_cstr this _ w1) as [[] w2 | |];
      [| rewrite Hta in H2; lia | contradiction].
    exists w2. split; [reflexivity |]. split; [reflexivity |].
    destruct (decide (b = [])) as [-> | Hbn].
    + subst w2. rewrite app_nil_r, Z.add_0_r, <- Hta.
      split; [apply (GetSize_shape _ _ _ Hsh) | now apply (text_shape _ _ _ Hsh)].
    + destruct H2 as (_ & _ & Hsh2 & _).
      destruct (appended_text (brk w1) sh b Hnm) as [Ht Hnm2].
      rewrite (GetSize_shape _ _ _ Hsh2), (text_shape _ _ _ Hsh2 Hnm2), Ht, Hta.
      rewrite length_app. split; [f_equal; lia | reflexivity].
  - exists w1.
    pose proof (String_cstr_spec w1 other _ b Hok1
                  (stable_text_array _ _ _ _ rb Hb Hlb)) as H2.
    destruct (String.String_cstr other _ w1) as [[] w2 | |]; [| lia | contradiction].
    destruct H2 as (Hfr2 & Hok2 & H2).
    assert (has_shape w2 this sh) as Hsh2.
    { apply (has_shape_frame w1 w2 [other] 0 this sh Hok1 Hfr2 Hsh).
      - intros Hin. apply list_elem_of_singleton in Hin. congruence.
      - destruct (decide (owned sh = 0)); [now left | right; assumption]. }
    assert (exists sho, has_shape w2 other sho /\ text_of sho = b /\ sho <> Moved /\
                        brk w2 <= brk w1 + (len b + 1) /\
                        (owned sho = 0 \/ owned sho = brk w1))
      as (sho & Hsho & Htb & Hnmo & Hb2 & Howno).
    { destruct (Z.ltb_spec (len b) 47); destruct H2 as (Hsho & _ & Hbrk).
      - exists (Small b). repeat split; try assumption; try discriminate; try lia.
        now left.
      - exists (Large b (brk w1) (len b + 1)).
        repeat split; try assumption; try discriminate; try lia. now right. }
    exists w2.
    assert (owned sho = 0 \/ owned sho <> owned sh) as Hdisj.
    { destruct Howno as [-> | ->]; [now left |]. right.
      destruct Hok1 as [Hbrk1 _]. destruct Hown as [-> | Hlt]; lia. }
    pose proof (Append_spec w2 this other sh sho Hok2 Hne Hsh2 Hsho Hnmo Hdisj) as H3.
    destruct (String.Append this other w2) as [[] w3 | |];
      [| rewrite Hta, Htb in H3; lia | contradiction].
    exists w3. do 3 (split; [reflexivity |]).
    destruct H3 as (_ & _ & Hsh3 & _).
    destruct (appended_text (brk w2) sh (text_of sho) Hnm) as [Ht Hnm3].
    rewrite (GetSize_shape _ _ _ Hsh3), (text_shape _ _ _ Hsh3 Hnm3), Ht, Hta, Htb.
    rewrite length_app. split; [f_equal; lia | reflexivity].
Qed.

(** "Hello" and "World" at program start. *)
Lemma append_concatenates_witness :
  (exists w1 w2,
      String.String_cstr 1 (Lit ([72; 101; 108; 108; 111] ++ 0 :: []) 0) world0 = Ok tt w1 /\
      String.Append_cstr 1 (Lit ([87; 111; 114; 108; 100] ++ 0 :: []) 0) w1 = Ok tt w2 /\
      String.GetSize 1 w2 = Ok (len [72; 101; 108; 108; 111] + len [87; 111; 114; 108; 100]) w2 /\
      text 1 w2 = Some ([72; 101; 108; 108; 111] ++ [87; 111; 114; 108; 100])) /\
  (exists w1 w2 w3,
      String.String_cstr 1 (Lit ([72; 101; 108; 108; 111] ++ 0 :: []) 0) world0 = Ok tt w1 /\
      String.String_cstr 2 (Lit ([87; 111; 114; 108; 100] ++ 0 :: []) 0) w1 = Ok tt w2 /\
      String.Append 1 2 w2 = Ok tt w3 /\
      String.GetSize 1 w3 = Ok (len [72; 101; 108; 108; 111] + len [87; 111; 114; 108; 100]) w3 /\
      text 1 w3 = Some ([72; 101; 108; 108; 111] ++ [87; 111; 114; 108; 100])).
Proof.
  apply (append_concatenates world0 1 2 [72; 101; 108; 108; 111]
           [87; 111; 114; 108; 100] [] []).
  - exact heap_ok_world0.
  - discriminate.
  - repeat constructor; discriminate.
  - repeat constructor; discriminate.
  - vm_compute. reflexivity.
  - vm_compute. reflexivity.
  - vm_compute. discriminate.
Defined.

Lemma put_0_app (l arr : list Z) : put 0 l arr = l ++ drop (length l) arr.
Proof. reflexivity. Qed.

(** C6.  When an append does not fit -- inline, [remaining > incoming]
    fails; on the heap, [total + 1 > capacity], which is always so for a
    String that a move emptied -- the String ends up in a fresh block
    whose recorded capacity is [total * 2 + 1], whether the incoming bytes
    are a byte sequence (the overload of [Append] for [const char*]) or
    the text of another String (the overload for [const String&]).
    [ReallocateAndCopy] moves exactly the live text into that block: after
    it the block is the text followed by untouched fresh bytes, and after
    the append it is the old text, the incoming bytes, the terminator and
    untouched fresh bytes. *)
Theorem append_growth_policy (w : World) (this : Z) (sh : shape) (t rest : list Z) :
  heap_ok w -> has_shape w this sh ->
  no_nul t -> len t < heap_limit ->
  match sh with
  | Small s => 47 - len s <= len t
  | Large s _ cap => cap < len s + len t + 1
  | Moved => True
  end ->
  brk w + (2 * (len (text_of sh) + len t) + 1) <= heap_limit ->
  let total := len (text_of sh) + len t in
  let fresh := fresh_block w (total * 2 + 1) in
  (t <> [] ->
   exists w',
      String.Append_cstr this (Lit (t ++ 0 :: rest) 0) w = Ok tt w' /\
      String.IsSmall this w' = Ok false w' /\
      String.get_word this String.normal_capacity w' = Ok (total * 2 + 1) w' /\
      String.GetSize this w' = Ok total w' /\
      String.CStr this w' = Ok (Heap (brk w) 0) w' /\
      heap w' !! brk w
      = Some (text_of sh ++ t ++ [0] ++ drop (Z.to_nat (total + 1)) fresh)) /\
  (forall other sho,
   this <> other -> has_shape w other sho -> sho <> Moved -> text_of sho = t ->
   owned sho = 0 \/ owned sho <> owned sh ->
   exists w',
      String.Append this other w = Ok tt w' /\
      String.IsSmall this w' = Ok false w' /\
      String.get_word this String.normal_capacity w' = Ok (total * 2 + 1) w' /\
      String.GetSize this w' = Ok total w' /\
      String.CStr this w' = Ok (Heap (brk w) 0) w' /\
      heap w' !! brk w
      = Some (text_of sh ++ t ++ [0] ++ drop (Z.to_nat (total + 1)) fresh)) /\
  (exists w1,
      String.ReallocateAndCopy this (total * 2 + 1) (len (text_of sh)) w = Ok tt w1 /\
      heap w1 !! brk w
      = Some (text_of sh ++ drop (Z.to_nat (len (text_of sh))) fresh)).
Proof.
  intros Hok Hsh Ht Htl Hex Hfit total fresh.
  assert (needs_realloc sh (len t) = true) as Hre.
  { destruct sh as [s | s base cap |]; cbn [needs_realloc]; [| | reflexivity].
    - apply negb_true_iff, Z.ltb_ge. lia.
    - apply Z.ltb_lt. lia. }
  assert (total * 2 + 1 = 2 * total + 1) as Hcap by lia.
  assert (forall w',
            has_shape w' this (appended (brk w) sh t) ->
            heap w' = <[brk w := put 0 (text_of sh ++ t ++ [0])
                                   (fresh_block w (2 * total + 1))]>
                        (delete (owned sh) (heap w)) ->
            String.IsSmall this w' = Ok false w' /\
            String.get_word this String.normal_capacity w' = Ok (2 * total + 1) w' /\
            String.GetSize this w' = Ok total w' /\
            String.CStr this w' = Ok (Heap (brk w) 0) w' /\
            heap w' !! brk w
            = Some (text_of sh ++ t ++ [0] ++
                    drop (Z.to_nat (total + 1)) (fresh_block w (2 * total + 1))))
    as Hgrown.
  { intros w' Hsh' Hheap. unfold appended in Hsh'. rewrite Hre in Hsh'.
    split; [apply (IsSmall_shape _ _ _ Hsh') |].
    split; [apply (capacity_shape _ _ _ _ _ Hsh') |].
    split.
    { rewrite (GetSize_shape _ _ _ Hsh'). cbn [text_of]. rewrite length_app.
      f_equal. unfold total. lia. }
    split; [apply (CStr_shape _ _ _ Hsh') |].
    rewrite Hheap, lookup_insert_eq, put_0_app. f_equal.
    rewrite <- !app_assoc. do 4 f_equal.
    rewrite !length_app. cbn [length]. unfold total. lia. }
  subst fresh. rewrite Hcap. split; [| split].
  - intros Hne.
    pose proof (Append_cstr_spec w this sh _ t Hok Hsh
                  (stable_text_array _ _ _ _ rest Ht Htl)) as H.
    destruct (String.Append_cstr this _ w) as [[] w' | w' |]; [| | contradiction].
    + exists w'. split; [reflexivity |].
      destruct (decide (t = [])); [contradiction |].
      destruct H as (_ & _ & Hsh' & H). rewrite Hre in H. destruct H as [Hheap _].
      now apply Hgrown.
    + destruct H as (_ & _ & _ & H). unfold total in Hfit. lia.
  - intros other sho Hne Hsho Hnm <- Hown.
    pose proof (Append_spec w this other sh sho Hok Hne Hsh Hsho Hnm Hown) as H.
    destruct (String.Append this other w) as [[] w' | w' |]; [| | contradiction].
    + exists w'. split; [reflexivity |].
      destruct H as (_ & _ & Hsh' & H). rewrite Hre in H. destruct H as [Hheap _].
      now apply Hgrown.
    + destruct H as (_ & _ & H). unfold total in Hfit. lia.
  - destruct w as [h b o j]. destruct Hsh as (buf & Hb & Hsh).
    cbn [brk heap objs] in *.
    eexists. split.
    + apply ReallocateAndCopy_ok; eauto. unfold total. destruct Hok. lia.
    + cbn [heap]. rewrite lookup_insert_eq, put_0_app. do 3 f_equal. lia.
Qed.

(* ================================================================== *)
(** ** Copy and move *)
(* ================================================================== *)

Lemma data_shape (w : World) (this : Z) (sh : shape) :
  has_shape w this sh -> (forall s, sh <> Small s) ->
  String.get_word this String.normal_data w = Ok (owned sh) w.
Proof.
  destruct w as [h b o j]. intros (buf & Hb & Hsh) Hns. cbn [objs heap] in *.
  pose proof (shape_length _ _ _ Hsh) as Hl.
  erewrite get_word_ok by side. layout.
  destruct sh as [s | s base cap |]; cbn in Hsh; cbn [owned].
  - now destruct (Hns s).
  - destruct Hsh as (_ & _ & -> & _). reflexivity.
  - destruct Hsh as (_ & -> & _). reflexivity.
Qed.

Lemma capacity_moved (w : World) (this : Z) :
  has_shape w this Moved ->
  String.get_word this String.normal_capacity w = Ok 0 w.
Proof.
  destruct w as [h b o j]. intros (buf & Hb & Hsh). cbn [objs heap buf_shape] in *.
  destruct Hsh as (Hl & _ & Hc & _).
  erewrite get_word_ok by side. layout. now rewrite Hc.
Qed.

Lemma text_moved (w : World) (this : Z) :
  has_shape w this Moved -> text this w = None.
Proof. intros Hsh. unfold text. now rewrite (CStr_shape _ _ _ Hsh). Qed.

Lemma heap_ok_same (w w' : World) :
  heap w' = heap w -> brk w' = brk w -> heap_ok w -> heap_ok w'.
Proof. unfold heap_ok. intros -> ->. auto. Qed.

Lemma dtor_moved (w : World) (this : Z) :
  heap_ok w -> has_shape w this Moved ->
  exists w', String.String_dtor this w = Ok tt w' /\ heap w' = heap w.
Proof.
  intros Hok Hsh. eexists. split; [apply (String_dtor_spec _ _ _ Hok Hsh) |].
  cbn [heap owned]. apply delete_id, heap_ok_null, Hok.
Qed.

(** C7, as amended.  For a source that holds a text (any String but one
    that a move has emptied), the copy constructor gives the copy the text
    of its source and leaves the source as it was; when the source is on
    the heap, the copy has a block of its own, so the two [CStr()] pointers
    differ, and the capacity of the copy is that of the source. *)
Theorem copy_is_deep (w : World) (this other : Z) (sho : shape) :
  heap_ok w -> this <> other -> has_shape w other sho -> sho <> Moved ->
  (forall s base cap, sho = Large s base cap -> brk w + cap <= heap_limit) ->
  exists w',
    String.String_copy this other w = Ok tt w' /\
    text other w = Some (text_of sho) /\
    text this w' = Some (text_of sho) /\
    text other w' = Some (text_of sho) /\
    (forall s base cap, sho = Large s base cap ->
     exists p q,
       String.CStr this w' = Ok p w' /\ String.CStr other w' = Ok q w' /\
       p <> q /\
       String.get_word other String.normal_capacity w = Ok cap w /\
       String.get_word this String.normal_capacity w' = Ok cap w').
Proof.
  intros Hok Hne Hsho Hnm Hfit.
  pose proof (String_copy_spec w this other sho Hok Hne Hsho) as H.
  destruct (String.String_copy this other w) as [[] w' | |].
  - destruct H as (_ & _ & _ & Hthis & Hother & _).
    exists w'. split; [reflexivity |].
    split; [now apply text_shape |].
    assert (copied (brk w) sho <> Moved /\ text_of (copied (brk w) sho) = text_of sho)
      as [Hnm' Htxt] by (destruct sho; try contradiction; split; (discriminate || reflexivity)).
    split; [rewrite <- Htxt; now apply text_shape |].
    split; [now apply text_shape |].
    intros s base cap ->. cbn [copied] in Hthis.
    exists (Heap (brk w) 0), (Heap base 0).
    split; [apply (CStr_shape _ _ _ Hthis) |].
    split; [apply (CStr_shape _ _ _ Hother) |].
    split.
    + destruct Hsho as (buf & _ & Hsh). cbn in Hsh.
      destruct Hsh as (_ & _ & _ & _ & _ & _ & _ & _ & _ & blk & Hblk & _).
      apply Hok in Hblk. intros [= E]. lia.
    + split; [apply (capacity_shape _ _ _ _ _ Hsho) | apply (capacity_shape _ _ _ _ _ Hthis)].
  - destruct H as [H _]. destruct sho as [s | s base cap |]; try contradiction.
    specialize (Hfit s base cap eq_refl). lia.
  - contradiction.
Qed.

(** C8.  Moving out of a source on the heap hands its block, capacity and
    length to the destination -- same [CStr()] pointer, same size, nothing
    allocated or released -- and leaves the source with length 0,
    capacity 0 and a null data pointer, so that destroying it releases
    nothing. *)
Theorem move_steals_block (w : World) (this other : Z) (s : list Z) (base cap : Z) :
  heap_ok w -> this <> other -> has_shape w other (Large s base cap) ->
  exists w',
    String.String_move this other w = Ok tt w' /\
    String.CStr other w = Ok (Heap base 0) w /\
    String.CStr this w' = Ok (Heap base 0) w' /\
    String.GetSize other w = Ok (len s) w /\
    String.GetSize this w' = Ok (len s) w' /\
    String.get_word this String.normal_data w' = Ok base w' /\
    String.get_word this String.normal_capacity w' = Ok cap w' /\
    String.GetSize other w' = Ok 0 w' /\
    String.get_word other String.normal_capacity w' = Ok 0 w' /\
    String.get_word other String.normal_data w' = Ok 0 w' /\
    heap w' = heap w /\
    exists w'', String.String_dtor other w' = Ok tt w'' /\ heap w'' = heap w'.
Proof.
  intros Hok Hne Hsho.
  destruct (String_move_spec w this other _ Hok Hne Hsho)
    as (w' & Hrun & _ & Hheap & Hbrk & Hthis & Hother).
  cbn [moved_out] in Hother.
  exists w'. split; [assumption |].
  split; [apply (CStr_shape _ _ _ Hsho) |].
  split; [apply (CStr_shape _ _ _ Hthis) |].
  split; [apply (GetSize_shape _ _ _ Hsho) |].
  split; [apply (GetSize_shape _ _ _ Hthis) |].
  split; [apply (data_shape _ _ _ Hthis); discriminate |].
  split; [apply (capacity_shape _ _ _ _ _ Hthis) |].
  split; [apply (GetSize_shape _ _ _ Hother) |].
  split; [apply (capacity_moved _ _ Hother) |].
  split; [apply (data_shape _ _ _ Hother); discriminate |].
  split; [assumption |].
  apply dtor_moved; [| assumption]. eapply heap_ok_same; eassumption.
Qed.

(** C10.  After the move constructor or move assignment has emptied a
    source that was on the heap, the source's [CStr()] is the null pointer,
    which denotes no text, and its [GetSize()] is 0; destroying it is still
    fine. *)
Theorem moved_from_cstr_is_null (w : World) (this other : Z) (s : list Z)
    (base cap : Z) :
  heap_ok w -> this <> other -> has_shape w other (Large s base cap) ->
  (exists w',
      String.String_move this other w = Ok tt w' /\
      String.CStr other w' = Ok Null w' /\
      String.GetSize other w' = Ok 0 w' /\
      text other w' = None /\
      exists w'', String.String_dtor other w' = Ok tt w'') /\
  (forall sh, has_shape w this sh -> owned sh <> base ->
   exists w',
      String.assign_move this other w = Ok tt w' /\
      String.CStr other w' = Ok Null w' /\
      String.GetSize other w' = Ok 0 w' /\
      text other w' = None /\
      exists w'', String.String_dtor other w' = Ok tt w'').
Proof.
  intros Hok Hne Hsho. split.
  - destruct (String_move_spec w this other _ Hok Hne Hsho)
      as (w' & Hrun & _ & Hheap & Hbrk & _ & Hother).
    cbn [moved_out] in Hother.
    exists w'. split; [assumption |].
    split; [apply (CStr_shape _ _ _ Hother) |].
    split; [apply (GetSize_shape _ _ _ Hother) |].
    split; [now apply text_moved |].
    assert (heap_ok w') as Hok' by (eapply heap_ok_same; eassumption).
    destruct (dtor_moved w' other Hok' Hother) as (w'' & Hd & _).
    exists w''. exact Hd.
  - intros sh Hsh Hown.
    destruct (assign_move_spec w this other sh _ Hok Hne Hsh Hsho)
      as (w' & Hrun & _ & Hheap & Hbrk & _ & Hother).
    { right. cbn [owned]. congruence. }
    cbn [moved_out] in Hother.
    exists w'. split; [assumption |].
    split; [apply (CStr_shape _ _ _ Hother) |].
    split; [apply (GetSize_shape _ _ _ Hother) |].
    split; [now apply text_moved |].
    assert (heap_ok w') as Hok'.
    { destruct w as [h b o j], w' as [h' b' o' j']. cbn [heap brk] in *. subst.
      exact (heap_ok_delete h b (owned sh) o o' j' Hok). }
    destruct (dtor_moved w' other Hok' Hother) as (w'' & Hd & _).
    exists w''. exact Hd.
Qed.

(** A String of 70 bytes built at program start: it is on the heap, in the
    block at address 1. *)
Lemma fixture_large :
  exists w,
    String.String_cstr 1 (literal (replicate 70 66)) world0 = Ok tt w /\
    heap_ok w /\ brk w = 72 /\
    has_shape w 1 (Large (replicate 70 66) 1 71).
Proof.
  pose proof (String_cstr_spec world0 1 (literal (replicate 70 66))
                (replicate 70 66) heap_ok_world0) as H.
  destruct (String.String_cstr 1 _ world0) as [[] w | |] eqn:E.
  - destruct H as (_ & Hok & Hsh & _ & Hbrk).
    { apply stable_text_array; [apply Forall_replicate; discriminate | vm_compute; reflexivity]. }
    exists w. split; [reflexivity |]. split; [exact Hok |].
    split; [rewrite Hbrk; reflexivity | exact Hsh].
  - vm_compute in E. discriminate.
  - vm_compute in E. discriminate.
Qed.

(** A 70-byte String copied at program start. *)
Lemma copy_is_deep_witness :
  exists w w',
    String.String_cstr 1 (literal (replicate 70 66)) world0 = Ok tt w /\
    String.String_copy 2 1 w = Ok tt w' /\
    text 2 w' = Some (replicate 70 66) /\
    text 1 w' = Some (replicate 70 66).
Proof.
  destruct fixture_large as (w & Hc & Hok & Hbrk & Hsh).
  assert (2 <> 1) as Hne by discriminate.
  assert (Large (replicate 70 66) 1 71 <> Moved) as Hnm by discriminate.
  assert (forall s base cap,
    Large (replicate 70 66) 1 71 = Large s base cap -> brk w + cap <= heap_limit) as Hfit.
  { intros s base cap [= <- <- <-]. rewrite Hbrk. vm_compute. discriminate. }
  destruct (copy_is_deep w 2 1 _ Hok Hne Hsh Hnm Hfit)
    as (w' & Hcopy & _ & Ht2 & Ht1 & _).
  exists w, w'. auto.
Defined.

(** A 70-byte String moved from at program start. *)
Lemma move_steals_block_witness :
  exists w w',
    String.String_cstr 1 (literal (replicate 70 66)) world0 = Ok tt w /\
    String.String_move 2 1 w = Ok tt w' /\
    String.CStr 1 w = Ok (Heap 1 0) w /\
    String.CStr 2 w' = Ok (Heap 1 0) w' /\
    String.GetSize 2 w' = Ok 70 w' /\
    String.GetSize 1 w' = Ok 0 w'.
Proof.
  destruct fixture_large as (w & Hc & Hok & Hbrk & Hsh).
  assert (2 <> 1) as Hne by discriminate.
  destruct (move_steals_block w 2 1 _ _ _ Hok Hne Hsh)
    as (w' & Hmove & Hp1 & Hp2 & _ & Hs2 & _ & _ & Hs1 & _).
  exists w, w'. auto 10.
Defined.

Lemma moved_from_cstr_is_null_witness :
  exists w w',
    String.String_cstr 1 (literal (replicate 70 66)) world0 = Ok tt w /\
    String.String_move 2 1 w = Ok tt w' /\
    String.CStr 1 w' = Ok Null w' /\
    String.GetSize 1 w' = Ok 0 w' /\
    text 1 w' = None.
Proof.
  destruct fixture_large as (w & Hc & Hok & Hbrk & Hsh).
  assert (2 <> 1) as Hne by discriminate.
  destruct (moved_from_cstr_is_null w 2 1 _ _ _ Hok Hne Hsh)
    as [(w' & Hmove & Hp & Hs & Ht & _) _].
  exists w, w'. auto 10.
Defined.

(** Seventy 'B' in String 1, on the heap, and "Hi" in String 2, inline. *)
Lemma fixture_pair :
  exists w0 w,
    String.String_cstr 1 (literal (replicate 70 66)) world0 = Ok tt w0 /\
    String.String_cstr 2 (literal [72; 105]) w0 = Ok tt w /\
    heap_ok w /\ brk w = 72 /\
    has_shape w 1 (Large (replicate 70 66) 1 71) /\
    has_shape w 2 (Small [72; 105]).
Proof.
  destruct fixture_large as (w0 & Hc & Hok0 & Hbrk0 & Hsh0).
  exists w0.
  pose proof (String_cstr_spec w0 2 (literal [72; 105]) [72; 105] Hok0) as H.
  destruct (String.String_cstr 2 _ w0) as [[] w | w |] eqn:E.
  - destruct H as (Hfr & Hok & Hsh & _ & Hbrk).
    { apply stable_text_array; [repeat constructor; discriminate | vm_compute; reflexivity]. }
    exists w. split; [assumption |]. split; [reflexivity |].
    split; [assumption |]. split; [congruence |]. split; [| assumption].
    apply (has_shape_frame w0 w [2] 0 1 _ Hok0 Hfr Hsh0).
    + intros Hin. apply list_elem_of_singleton in Hin. discriminate.
    + right. discriminate.
  - exfalso. destruct H as [H _].
    { apply stable_text_array; [repeat constructor; discriminate | vm_compute; reflexivity]. }
    vm_compute in H. now apply H.
  - exfalso. apply H.
    apply stable_text_array; [repeat constructor; discriminate | vm_compute; reflexivity].
Qed.

(** "Hi" (inline, 44 bytes remaining) is appended seventy 'B', once as a
    byte sequence and once as the text of String 1: capacity
    [72 * 2 + 1]. *)
Lemma append_growth_policy_witness :
  exists w0 w,
    String.String_cstr 1 (literal (replicate 70 66)) world0 = Ok tt w0 /\
    String.String_cstr 2 (literal [72; 105]) w0 = Ok tt w /\
    (exists w',
        String.Append_cstr 2 (Lit (replicate 70 66 ++ 0 :: []) 0) w = Ok tt w' /\
        String.IsSmall 2 w' = Ok false w' /\
        String.get_word 2 String.normal_capacity w' = Ok 145 w' /\
        String.GetSize 2 w' = Ok 72 w') /\
    (exists w',
        String.Append 2 1 w = Ok tt w' /\
        String.IsSmall 2 w' = Ok false w' /\
        String.get_word 2 String.normal_capacity w' = Ok 145 w' /\
        String.GetSize 2 w' = Ok 72 w').
Proof.
  destruct fixture_pair as (w0 & w & Hc1 & Hc2 & Hok & Hbrk & Hsh1 & Hsh2).
  exists w0, w. split; [exact Hc1 |]. split; [exact Hc2 |].
  destruct (append_growth_policy w 2 (Small [72; 105]) (replicate 70 66) [] Hok Hsh2)
    as (Hcstr & Hstring & _).
  - apply Forall_replicate. discriminate.
  - vm_compute. reflexivity.
  - vm_compute. discriminate.
  - rewrite Hbrk. vm_compute. discriminate.
  - split.
    + destruct Hcstr as (w' & Ha & Hs & Hc & Hz & _); [discriminate |].
      exists w'. repeat split; assumption.
    + destruct (Hstring 1 (Large (replicate 70 66) 1 71)) as (w' & Ha & Hs & Hc & Hz & _).
      * discriminate.
      * exact Hsh1.
      * discriminate.
      * reflexivity.
      * right. discriminate.
      * exists w'. repeat split; assumption.
Defined.

(* ================================================================== *)
(** ** The invariant of reachable stores *)
(* ================================================================== *)



Lemma owned_below_brk (w : World) (buf : list Z) (sh : shape) :
  heap_ok w -> buf_shape (heap w) buf sh -> owned sh < brk w.
Proof.
  intros [Hbrk Hheap] Hsh. destruct sh as [s | s base cap |]; cbn in *; try lia.
  destruct Hsh as (_ & _ & _ & _ & _ & _ & _ & _ & _ & blk & Hblk & _).
  apply Hheap in Hblk. lia.
Qed.


























(* ================================================================== *)
(** ** Null termination *)
(* ================================================================== *)




Lemma after_move_reachable (allowed : op -> Prop) :
  allowed (OpFromCstr 1 (literal (replicate 70 66))) -> allowed (OpMove 2 1) ->
  reachable allowed after_move.
Proof.
  intros Hall1 Hall2.
  apply (reach_call allowed after_ctor after_move (OpMove 2 1)).
  - apply (reach_call allowed world0 after_ctor (OpFromCstr 1 (literal (replicate 70 66)))).
    + apply reach_start. vm_compute. split; discriminate.
    + exact Hall1.
    + split.
      * intros [x Hx]. vm_compute in Hx. discriminate.
      * vm_compute. reflexivity.
    + vm_compute. reflexivity.
  - exact Hall2.
  - split.
    + intros [x Hx]. vm_compute in Hx. discriminate.
    + vm_compute. eexists. reflexivity.
  - vm_compute. reflexivity.
Qed.


(** The two limits of the amended statement are needed.  Appending to a
    String bytes of its own: with forty 'a' inline, [x.Append(x.CStr())]
    has to grow, [ReallocateAndCopy] writes pointer, capacity and size
    over the inline buffer that the argument points into, and the bytes
    copied from there end in the low byte of the size word instead of the
    terminator. *)
Lemma append_of_own_bytes_not_terminated :
  exists w1 w2,
    String.String_cstr 1 (literal (replicate 40 97)) world0 = Ok tt w1 /\
    String.CStr 1 w1 = Ok (Obj 1 0) w1 /\
    String.Append_cstr 1 (Obj 1 0) w1 = Ok tt w2 /\
    String.GetSize 1 w2 = Ok 80 w2 /\
    String.CStr 1 w2 = Ok (Heap 1 0) w2 /\
    load (Heap 1 80) 1 w2 = Ok [80] w2 /\
    ~ terminated w2 1 /\ ~ emptied w2 1.
Proof.
  eexists _, _. split; [vm_compute; reflexivity |].
  split; [vm_compute; reflexivity |].
  split; [vm_compute; reflexivity |].
  split; [vm_compute; reflexivity |].
  split; [vm_compute; reflexivity |].
  split; [vm_compute; reflexivity |].
  split.
  - intros (n & p & Hn & Hp & Hload).
    vm_compute in Hn. injection Hn as <-.
    vm_compute in Hp. injection Hp as <-.
    vm_compute in Hload. discriminate.
  - intros [Hn _]. vm_compute in Hn. discriminate.
Qed.

Lemma failed_shape_reads (w : World) (this : Z) (buf : list Z) (n : Z) :
  objs w !! this = Some buf -> failed_shape buf n ->
  String.IsSmall this w = Ok false w /\
  String.GetSize this w = Ok n w /\
  String.CStr this w = Ok Null w.
Proof.
  destruct w as [h b o j]. cbn [objs]. intros Hb (Hl & Hd & Hsz & Hm).
  assert (String.IsSmall this (mkWorld h b o j) = Ok false (mkWorld h b o j)) as Hsmall
    by (rewrite (IsSmall_ok _ _ _ _ _ _ Hb Hl), Hm; reflexivity).
  split; [exact Hsmall |]. split.
  - unfold String.GetSize. rewrite (bind_ok _ _ _ _ _ Hsmall).
    run_with get_word_ok. now rewrite Hsz, GetValue_even.
  - unfold String.CStr. rewrite (bind_ok _ _ _ _ _ Hsmall).
    run_with get_word_ok. now rewrite Hd.
Qed.

(** A copy assignment that throws: by the time [new[]] throws the target
    has released its block and taken the size of the source, so that it
    is left alive with that size and a null [CStr()] -- not terminated,
    and not emptied unless the source was empty. *)
Lemma copy_assignment_that_throws (w w' : World) (this other : Z) (sh sho : shape) :
  heap_ok w -> this <> other ->
  has_shape w this sh -> has_shape w other sho ->
  owned sho = 0 \/ owned sho <> owned sh ->
  String.assign_copy this other w = BadAlloc w' ->
  alive w' this /\ heap w' = delete (owned sh) (heap w) /\
  String.GetSize this w' = Ok (len (text_of sho)) w' /\
  String.CStr this w' = Ok Null w' /\
  ~ terminated w' this /\
  (text_of sho <> [] -> ~ emptied w' this).
Proof.
  intros Hok Hne Hsh Hsho Hown Hrun.
  pose proof (assign_copy_spec w this other sh sho Hok Hne Hsh Hsho Hown) as H.
  rewrite Hrun in H. destruct H as (_ & buf' & -> & Hfailed).
  set (w' := mkWorld _ _ _ _).
  assert (objs w' !! this = Some buf') as Hb by apply lookup_insert_eq.
  destruct (failed_shape_reads w' this buf' _ Hb Hfailed) as (_ & Hsize & Hp).
  split; [now exists buf' |]. split; [reflexivity |].
  split; [exact Hsize |]. split; [exact Hp |]. split.
  - intros (n & p & Hn & Hp' & Hload).
    rewrite Hp in Hp'. injection Hp' as <-.
    rewrite Hsize in Hn. injection Hn as <-.
    cbn [padd] in Hload. unfold load in Hload. cbn [array_of Z.eqb] in Hload.
    discriminate.
  - intros Hne' [Hn _]. rewrite Hsize in Hn. injection Hn as Hn.
    destruct (text_of sho); [contradiction | discriminate].
Qed.

(** It happens when the free store is nearly used up: a program that
    starts 100 bytes below the limit, builds seventy 'B' and "Hi", and
    assigns the former to the latter. *)
Lemma copy_assignment_throws_near_the_limit :
  exists w0 w1 w2,
    String.String_cstr 1 (literal (replicate 70 66))
      (mkWorld ∅ (heap_limit - 100) ∅ (fun _ _ => 205)) = Ok tt w0 /\
    String.String_cstr 2 (literal [72; 105]) w0 = Ok tt w1 /\
    String.assign_copy 2 1 w1 = BadAlloc w2 /\
    String.GetSize 2 w2 = Ok 70 w2 /\
    String.CStr 2 w2 = Ok Null w2.
Proof.
  eexists _, _, _. split; [vm_compute; reflexivity |].
  split; [vm_compute; reflexivity |].
  split; [vm_compute; reflexivity |].
  split; vm_compute; reflexivity.
Qed.


(* ================================================================== *)
(** ** Self-append *)
(* ================================================================== *)

(** In place, [x += x] doubles the text: "Self" becomes "SelfSelf". *)
Lemma self_append_in_place :
  exists w1 w2,
    String.String_cstr 1 (literal [83; 101; 108; 102]) world0 = Ok tt w1 /\
    String.plus_eq 1 1 w1 = Ok tt w2 /\
    String.GetSize 1 w2 = Ok 8 w2 /\
    text 1 w2 = Some [83; 101; 108; 102; 83; 101; 108; 102].
Proof.
  eexists _, _. split; [vm_compute; reflexivity |].
  split; [vm_compute; reflexivity |].
  split; vm_compute; reflexivity.
Qed.

(** With the free store of [world0], which hands out blocks filled with
    [0xCD], growing by self-append leaves a [CStr()] that no longer reads
    as a text at all: no terminator is found in the block. *)
Lemma self_append_after_growth_text :
  exists w1 w2,
    String.String_cstr 1 (literal (replicate 30 65)) world0 = Ok tt w1 /\
    String.plus_eq 1 1 w1 = Ok tt w2 /\
    String.GetSize 1 w2 = Ok 60 w2 /\
    text 1 w2 = None.
Proof.
  eexists _, _. split; [vm_compute; reflexivity |].
  split; [vm_compute; reflexivity |].
  split; vm_compute; reflexivity.
Qed.

(** C4.  When [x += x] has to grow, [Append] reads [other.CStr()] after
    [ReallocateAndCopy] has replaced the block of [*this], which is the
    block of [other]: with [x] holding thirty 'A', the size becomes 60 and
    the block starts with sixty 'A', but the byte at offset 60 is byte 30
    of the fresh block as the allocator left it, not the terminator that
    the text twice would end with. *)
Theorem self_append_after_growth (j : Z -> Z -> Z) :
  exists w1 w2,
    String.String_cstr 1 (literal (replicate 30 65)) (mkWorld ∅ 1 ∅ j) = Ok tt w1 /\
    String.plus_eq 1 1 w1 = Ok tt w2 /\
    String.GetSize 1 w2 = Ok 60 w2 /\
    String.CStr 1 w2 = Ok (Heap 1 0) w2 /\
    load (Heap 1 0) 60 w2 = Ok (replicate 30 65 ++ replicate 30 65) w2 /\
    load (Heap 1 60) 1 w2 = Ok [j 1 30] w2 /\
    (terminated w2 1 -> j 1 30 = 0).
Proof.
  eexists _, _. split; [vm_compute; reflexivity |].
  split; [vm_compute; reflexivity |].
  split; [vm_compute; reflexivity |].
  split; [vm_compute; reflexivity |].
  split; [vm_compute; reflexivity |].
  split; [vm_compute; reflexivity |].
  intros (n & p & Hn & Hp & Hload).
  vm_compute in Hn. injection Hn as <-.
  vm_compute in Hp. injection Hp as <-.
  vm_compute in Hload. injection Hload as Hj. exact Hj.
Qed.

(* ================================================================== *)
(** ** Copying an emptied source *)
(* ================================================================== *)

(** C7 as stated fails: the source of a move is a String, and copying it
    runs [new char[0]] and then [memcpy(data, nullptr, 1)]. *)
Lemma copy_of_emptied_source_undefined :
  ~ (forall w this other,
       reachable any_call w -> ~ alive w this -> alive w other ->
       brk w + 2 ^ 32 <= heap_limit ->
       exists w', String.String_copy this other w = Ok tt w' /\
                  text this w' = text other w).
Proof.
  intros H.
  destruct (H after_move 3 1) as (w' & Hcopy & _).
  - apply after_move_reachable; exact I.
  - intros [x Hx]. vm_compute in Hx. discriminate.
  - vm_compute. eexists. reflexivity.
  - vm_compute. discriminate.
  - vm_compute in Hcopy. discriminate.
Qed.

(* ================================================================== *)
(** ** Valid calls are defined *)
(* ================================================================== *)

Lemma moved_emptied (w : World) (this : Z) :
  has_shape w this Moved -> emptied w this.
Proof.
  intros Hsh. split; [apply (GetSize_shape _ _ _ Hsh) | apply (CStr_shape _ _ _ Hsh)].
Qed.





(* ================================================================== *)
(** ** Calls write only their arguments *)
(* ================================================================== *)




(* ================================================================== *)
(** ** No block is lost *)
(* ================================================================== *)

Lemma assign_copy_heap (w w' : World) (this other : Z) (sh sho : shape) :
  heap_ok w -> this <> other ->
  has_shape w this sh -> has_shape w other sho ->
  owned sho = 0 \/ owned sho <> owned sh ->
  String.assign_copy this other w = Ok tt w' ->
  match sho with
  | Large _ _ cap =>
      brk w' = brk w + cap /\
      exists blk, heap w' = <[brk w := blk]> (delete (owned sh) (heap w))
  | _ => heap w' = delete (owned sh) (heap w) /\ brk w' = brk w
  end.
Proof.
  intros Hok Hne Hsh Hsho Hown Hrun.
  rewrite assign_copy_unfold in Hrun.
  destruct (Z.eqb_spec this other); [contradiction |].
  rewrite (assign_prologue w this sh Hok Hsh) in Hrun.
  destruct (assign_prologue_frame w this sh Hok) as [Hok1 Hfr1].
  set (w1 := mkWorld _ _ _ _) in *.
  assert (has_shape w1 other sho) as Hsho1.
  { apply (has_shape_frame w w1 [this] (owned sh) other sho Hok Hfr1 Hsho); [| assumption].
    intros Hin. apply list_elem_of_singleton in Hin. congruence. }
  pose proof (String_copy_spec w1 this other sho Hok1 Hne Hsho1) as H.
  rewrite String_copy_unfold in H.
  replace ((do* String.memset_buffer this in String.copy_from this other) w1)
    with (String.copy_from this other w1) in H.
  2:{ subst w1. unfold bind, String.memset_buffer, set_objs. cbn [heap brk objs junk].
      now rewrite insert_insert_eq. }
  rewrite Hrun in H. destruct H as (_ & _ & _ & _ & _ & H). exact H.
Qed.






(* ================================================================== *)
(** ** Storage: live, unshared, large enough *)
(* ================================================================== *)



(* ================================================================== *)
(** ** Moves and assignments *)
(* ================================================================== *)

(** X7.  Moving out of a String that is stored inline copies it: the
    destination gets the text and the source keeps it, with its size;
    move construction touches no block, and move assignment releases the
    block the destination had and no other. *)
Theorem move_of_inline_source_copies (w : World) (this other : Z) (s : list Z) :
  heap_ok w -> this <> other -> has_shape w other (Small s) ->
  (exists w',
      String.String_move this other w = Ok tt w' /\
      text this w' = Some s /\ text other w' = Some s /\
      String.GetSize other w' = Ok (len s) w' /\
      heap w' = heap w) /\
  (forall sh, has_shape w this sh ->
   exists w',
      String.assign_move this other w = Ok tt w' /\
      text this w' = Some s /\ text other w' = Some s /\
      String.GetSize other w' = Ok (len s) w' /\
      heap w' = delete (owned sh) (heap w)).
Proof.
  intros Hok Hne Hsho. split.
  - destruct (String_move_spec w this other _ Hok Hne Hsho)
      as (w' & Hrun & _ & Hheap & _ & Hthis & Hother).
    cbn [moved_out] in Hother. exists w'.
    split; [assumption |].
    split; [apply (text_shape _ _ _ Hthis); discriminate |].
    split; [apply (text_shape _ _ _ Hother); discriminate |].
    split; [apply (GetSize_shape _ _ _ Hother) | assumption].
  - intros sh Hsh.
    destruct (assign_move_spec w this other sh _ Hok Hne Hsh Hsho)
      as (w' & Hrun & _ & Hheap & _ & Hthis & Hother); [now left |].
    cbn [moved_out] in Hother. exists w'.
    split; [assumption |].
    split; [apply (text_shape _ _ _ Hthis); discriminate |].
    split; [apply (text_shape _ _ _ Hother); discriminate |].
    split; [apply (GetSize_shape _ _ _ Hother) | assumption].
Qed.

(** X8.  Copy assignment from another String that holds a text gives the
    destination that text and size and leaves the source as it was; the
    block the destination had is released, and the two Strings have
    different [CStr()] pointers afterwards.  Assigning a String to itself
    changes nothing. *)
Theorem copy_assignment_replaces (w : World) (this other : Z) (sh sho : shape) :
  heap_ok w -> this <> other ->
  has_shape w this sh -> has_shape w other sho -> sho <> Moved ->
  owned sho = 0 \/ owned sho <> owned sh ->
  (forall s base cap, sho = Large s base cap -> brk w + cap <= heap_limit) ->
  String.assign_copy this this w = Ok tt w /\
  exists w',
    String.assign_copy this other w = Ok tt w' /\
    String.GetSize this w' = Ok (len (text_of sho)) w' /\
    text this w' = Some (text_of sho) /\
    text other w' = Some (text_of sho) /\
    (owned sh <> 0 -> heap w !! owned sh <> None /\ heap w' !! owned sh = None) /\
    exists p q,
      String.CStr this w' = Ok p w' /\ String.CStr other w' = Ok q w' /\ p <> q.
Proof.
  intros Hok Hne Hsh Hsho Hnm Hdisj Hfit. split.
  { unfold String.assign_copy. now rewrite Z.eqb_refl. }
  pose proof (assign_copy_spec w this other sh sho Hok Hne Hsh Hsho Hdisj) as H.
  destruct (String.assign_copy this other w) as [[] w' | |] eqn:Hrun.
  - pose proof (assign_copy_heap w w' this other sh sho Hok Hne Hsh Hsho Hdisj Hrun)
      as Hheap.
    destruct H as (_ & _ & Hok' & Hthis & Hother).
    exists w'. split; [reflexivity |].
    assert (copied (brk w) sho <> Moved /\ text_of (copied (brk w) sho) = text_of sho)
      as [Hnm' Htxt] by (destruct sho; try contradiction; split; (discriminate || reflexivity)).
    split; [rewrite <- Htxt; apply (GetSize_shape _ _ _ Hthis) |].
    split; [rewrite <- Htxt; now apply text_shape |].
    split; [now apply text_shape |].
    split.
    + intros Hnz.
      destruct Hsh as (buf & Hb & Hshape).
      pose proof (owned_below_brk w buf sh Hok Hshape) as Hbelow.
      split.
      * destruct sh as [s | s base cap |]; cbn [owned] in *; try contradiction.
        cbn in Hshape.
        destruct Hshape as (_ & _ & _ & _ & _ & _ & _ & _ & _ & blk & Hblk & _).
        congruence.
      * destruct sho as [s | s base cap |]; try contradiction.
        -- destruct Hheap as [-> _]. apply lookup_delete_eq.
        -- destruct Hheap as (_ & blk & ->).
           rewrite lookup_insert_ne by lia. apply lookup_delete_eq.
    + exists (cstr_of this (copied (brk w) sho)), (cstr_of other sho).
      split; [apply (CStr_shape _ _ _ Hthis) |].
      split; [apply (CStr_shape _ _ _ Hother) |].
      destruct Hsho as (bufo & _ & Hshapeo).
      pose proof (owned_below_brk w bufo sho Hok Hshapeo) as Hbelow.
      destruct sho as [s | s base cap |]; cbn [copied cstr_of owned] in *;
        try contradiction.
      * congruence.
      * intros [= E]. lia.
  - destruct H as [H _]. destruct sho as [s | s base cap |]; try contradiction.
    specialize (Hfit s base cap eq_refl). lia.
  - contradiction.
Qed.

(** X9.  Move assignment from another String on the heap hands the
    source's block to the destination -- same pointer, size and capacity,
    nothing allocated -- releases the block the destination had, and
    leaves the source emptied.  Move-assigning a String to itself changes
    nothing. *)
Theorem move_assignment_steals_and_releases (w : World) (this other : Z)
    (sh : shape) (s : list Z) (base cap : Z) :
  heap_ok w -> this <> other ->
  has_shape w this sh -> has_shape w other (Large s base cap) ->
  owned sh <> base ->
  String.assign_move this this w = Ok tt w /\
  exists w',
    String.assign_move this other w = Ok tt w' /\
    String.CStr other w = Ok (Heap base 0) w /\
    String.CStr this w' = Ok (Heap base 0) w' /\
    String.GetSize this w' = Ok (len s) w' /\
    String.get_word this String.normal_capacity w' = Ok cap w' /\
    text this w' = Some s /\
    emptied w' other /\
    heap w' = delete (owned sh) (heap w) /\ brk w' = brk w.
Proof.
  intros Hok Hne Hsh Hsho Hown. split.
  { unfold String.assign_move. now rewrite Z.eqb_refl. }
  destruct (assign_move_spec w this other sh _ Hok Hne Hsh Hsho)
    as (w' & Hrun & _ & Hheap & Hbrk & Hthis & Hother).
  { right. cbn [owned]. congruence. }
  cbn [moved_out] in Hother. exists w'.
  split; [assumption |].
  split; [apply (CStr_shape _ _ _ Hsho) |].
  split; [apply (CStr_shape _ _ _ Hthis) |].
  split; [apply (GetSize_shape _ _ _ Hthis) |].
  split; [apply (capacity_shape _ _ _ _ _ Hthis) |].
  split; [apply (text_shape _ _ _ Hthis); discriminate |].
  split; [now apply moved_emptied | auto].
Qed.

(** X10.  Building a String from a terminated sequence and destroying it
    gives back the free store and the set of objects there were before:
    the destructor releases exactly the block the constructor
    allocated. *)
Theorem construct_then_destroy_restores (w : World) (this : Z) (s rest : list Z) :
  heap_ok w -> ~ alive w this -> no_nul s -> len s < heap_limit ->
  (47 <= len s -> brk w + (len s + 1) <= heap_limit) ->
  exists w1 w2,
    String.String_cstr this (Lit (s ++ 0 :: rest) 0) w = Ok tt w1 /\
    String.String_dtor this w1 = Ok tt w2 /\
    heap w2 = heap w /\ objs w2 = objs w.
Proof.
  intros Hok Hfresh Hs Hl Hfit.
  pose proof (String_cstr_spec w this _ s Hok
                (stable_text_array _ _ _ _ rest Hs Hl)) as H.
  destruct (String.String_cstr _ _ _) as [[] w1 | |]; [| lia | contradiction].
  destruct H as (Hfr & Hok1 & H).
  assert (exists sh, has_shape w1 this sh /\
                     delete (owned sh) (heap w1) = heap w) as (sh & Hsh & Hheap).
  { destruct (len s <? 47); destruct H as (Hsh & Hheap & _).
    - exists (Small s). split; [assumption |]. rewrite Hheap. cbn [owned].
      apply delete_id. now apply heap_ok_null.
    - exists (Large s (brk w) (len s + 1)). split; [assumption |].
      rewrite Hheap. cbn [owned]. rewrite delete_insert_eq.
      apply delete_id. destruct w. now apply (heap_ok_fresh _ _ _ _ Hok). }
  exists w1. eexists. split; [reflexivity |].
  split; [apply (String_dtor_spec _ _ _ Hok1 Hsh) |].
  cbn [heap objs]. split; [assumption |].
  apply map_eq. intros o. destruct Hfr as (_ & _ & Hobjs & _).
  destruct (decide (o = this)) as [-> | Ho].
  - rewrite lookup_delete_eq. symmetry. apply eq_None_not_Some. exact Hfresh.
  - rewrite lookup_delete_ne by congruence. apply Hobjs.
    intros Hin. apply list_elem_of_singleton in Hin. contradiction.
Qed.

(* ================================================================== *)
(** ** Appends that fit, and appends of nothing *)
(* ================================================================== *)

Lemma fits_needs_realloc (sh : shape) (n : Z) :
  fits sh n <-> needs_realloc sh n = false.
Proof.
  destruct sh as [s | s base cap |]; cbn [fits needs_realloc].
  - rewrite negb_false_iff, Z.ltb_lt. reflexivity.
  - rewrite Z.ltb_ge. reflexivity.
  - split; [contradiction | discriminate].
Qed.

Lemma appended_in_place (this a : Z) (sh : shape) (t : list Z) :
  fits sh (len t) ->
  cstr_of this (appended a sh t) = cstr_of this sh /\
  text_of (appended a sh t) = text_of sh ++ t /\
  appended a sh t <> Moved.
Proof.
  intros Hfit. unfold appended.
  rewrite (proj1 (fits_needs_realloc sh (len t)) Hfit).
  destruct sh; [| | contradiction]; repeat split; discriminate.
Qed.

(** Appending what any stable pointer [str] points at, when it fits. *)
Lemma Append_cstr_in_place (w : World) (this : Z) (sh : shape) (str : pointer)
    (t : list Z) :
  heap_ok w -> has_shape w this sh -> stable_text [this] (owned sh) w str t ->
  fits sh (len t) ->
  exists w' p,
    String.Append_cstr this str w = Ok tt w' /\
    String.CStr this w = Ok p w /\ String.CStr this w' = Ok p w' /\
    String.GetSize this w' = Ok (len (text_of sh) + len t) w' /\
    text this w' = Some (text_of sh ++ t) /\
    brk w' = brk w.
Proof.
  intros Hok Hsh Hstr Hfit.
  pose proof (Append_cstr_spec w this sh _ t Hok Hsh Hstr) as H.
  pose proof (proj1 (fits_needs_realloc _ _) Hfit) as Hneed.
  assert (sh <> Moved) as Hnm by (intros ->; contradiction).
  destruct (String.Append_cstr this _ w) as [[] w' | |];
    [| rewrite Hneed in H; now destruct H as (_ & _ & [=] & _) | contradiction].
  exists w', (cstr_of this sh). split; [reflexivity |].
  split; [apply (CStr_shape _ _ _ Hsh) |].
  destruct (decide (t = [])) as [-> | Hne].
  - subst w'. rewrite app_nil_r. cbn [length]. rewrite Z.add_0_r.
    split; [apply (CStr_shape _ _ _ Hsh) |].
    split; [apply (GetSize_shape _ _ _ Hsh) |].
    split; [now apply text_shape | reflexivity].
  - destruct H as (_ & _ & Hsh' & H). rewrite Hneed in H.
    destruct (appended_in_place this (brk w) sh t Hfit) as (Hp & Htxt & Hnm').
    split; [rewrite <- Hp; apply (CStr_shape _ _ _ Hsh') |].
    split; [rewrite (GetSize_shape _ _ _ Hsh'), Htxt, length_app; f_equal; lia |].
    split; [rewrite <- Htxt; now apply text_shape | assumption].
Qed.

(** X11.  An append that fits the storage the String has -- inline,
    [remaining > incoming]; on the heap, [total + 1 <= capacity] --
    always returns, allocates nothing and leaves [CStr()] where it was,
    with the incoming bytes added to the text. *)
Theorem append_that_fits_stays_in_place (w : World) (this : Z) (sh : shape)
    (t rest : list Z) :
  heap_ok w -> has_shape w this sh -> no_nul t -> len t < heap_limit ->
  fits sh (len t) ->
  exists w' p,
    String.Append_cstr this (Lit (t ++ 0 :: rest) 0) w = Ok tt w' /\
    String.CStr this w = Ok p w /\ String.CStr this w' = Ok p w' /\
    String.GetSize this w' = Ok (len (text_of sh) + len t) w' /\
    text this w' = Some (text_of sh ++ t) /\
    brk w' = brk w.
Proof.
  intros Hok Hsh Ht Hl Hfit.
  apply (Append_cstr_in_place w this sh _ t Hok Hsh); [| assumption].
  now apply stable_text_array.
Qed.

(** X12.  After an append that had to reallocate, the new capacity is
    twice the new size plus one, so the next append of up to that size is
    done in place: same block, nothing allocated. *)
Theorem growth_pays_for_the_next_append (w : World) (this : Z) (sh : shape)
    (t1 t2 r1 r2 : list Z) :
  heap_ok w -> has_shape w this sh -> sh <> Moved ->
  no_nul t1 -> no_nul t2 -> ~ fits sh (len t1) ->
  len t2 <= len (text_of sh) + len t1 ->
  brk w + (2 * (len (text_of sh) + len t1) + 1) <= heap_limit ->
  exists w1 w2,
    String.Append_cstr this (Lit (t1 ++ 0 :: r1) 0) w = Ok tt w1 /\
    String.Append_cstr this (Lit (t2 ++ 0 :: r2) 0) w1 = Ok tt w2 /\
    String.CStr this w1 = Ok (Heap (brk w) 0) w1 /\
    String.CStr this w2 = Ok (Heap (brk w) 0) w2 /\
    String.get_word this String.normal_capacity w2
      = Ok (2 * (len (text_of sh) + len t1) + 1) w2 /\
    brk w2 = brk w1 /\
    text this w2 = Some (text_of sh ++ t1 ++ t2).
Proof.
  intros Hok Hsh Hnm Ht1 Ht2 Hnofit Hle Hroom.
  assert (1 <= brk w) as Hbrk by apply Hok.
  assert (len t1 < heap_limit) as Hl1 by lia.
  assert (len t2 < heap_limit) as Hl2 by lia.
  assert (needs_realloc sh (len t1) = true) as Hneed.
  { destruct (needs_realloc sh (len t1)) eqn:E; [reflexivity |].
    destruct Hnofit. now apply fits_needs_realloc. }
  assert (t1 <> []) as Hne1.
  { intros ->. apply Hnofit. destruct Hsh as (buf & _ & Hshape).
    destruct sh as [s | s base cap |]; cbn in Hshape |- *; try contradiction.
    - destruct Hshape as (_ & _ & Hs & _). lia.
    - destruct Hshape as (_ & _ & _ & _ & _ & _ & _ & Hlt & _). lia. }
  pose proof (Append_cstr_spec w this sh _ t1 Hok Hsh
                (stable_text_array _ _ _ _ r1 Ht1 Hl1)) as H.
  destruct (String.Append_cstr this _ w) as [[] w1 | |]; [| lia | contradiction].
  destruct (decide (t1 = [])); [contradiction |].
  destruct H as (_ & Hok1 & Hsh1 & H). rewrite Hneed in H.
  unfold appended in Hsh1. rewrite Hneed in Hsh1.
  set (sh1 := Large (text_of sh ++ t1) (brk w) (2 * (len (text_of sh) + len t1) + 1))
    in *.
  assert (fits sh1 (len t2)) as Hfit2
    by (subst sh1; cbn [fits]; rewrite length_app; lia).
  destruct (Append_cstr_in_place w1 this sh1 _ t2 Hok1 Hsh1
              (stable_text_array _ _ _ _ r2 Ht2 Hl2) Hfit2)
    as (w2 & p & Hrun2 & Hp1 & Hp2 & _ & Htxt & Hbrk2).
  exists w1, w2. split; [reflexivity |]. split; [assumption |].
  rewrite (CStr_shape _ _ _ Hsh1) in Hp1. injection Hp1 as <-.
  split; [apply (CStr_shape _ _ _ Hsh1) |]. split; [assumption |].
  split.
  - pose proof (Append_cstr_spec w1 this sh1 _ t2 Hok1 Hsh1
                  (stable_text_array _ _ _ _ r2 Ht2 Hl2)) as H2.
    rewrite Hrun2 in H2.
    destruct (decide (t2 = [])) as [-> | Hne2].
    + subst w2. apply (capacity_shape _ _ _ _ _ Hsh1).
    + destruct H2 as (_ & _ & Hsh2 & _). unfold appended in Hsh2.
      rewrite (proj1 (fits_needs_realloc _ _) Hfit2) in Hsh2.
      apply (capacity_shape _ _ _ _ _ Hsh2).
  - split; [assumption |]. rewrite Htxt. cbn [sh1 text_of].
    now rewrite <- app_assoc.
Qed.

(** X13.  Appending a null pointer or an empty sequence returns before
    anything is read from or written to the String: the store is left as
    it is, whatever state the String is in.  Appending another String
    that holds the empty text (its [CStr()] is not null) has no early
    return.  On a String that holds a text it writes the terminator and
    the size again and changes neither text, size, [CStr()] nor the
    allocator.  On a String that a move has emptied it calls
    [ReallocateAndCopy(1, 0)]: when that allocation succeeds the String
    has a block of capacity 1 afterwards, holding the empty text, and
    [CStr()] is no longer null. *)
Theorem append_of_nothing (w : World) (this : Z) (rest : list Z) :
  String.Append_cstr this Null w = Ok tt w /\
  String.Append_cstr this (Lit (0 :: rest) 0) w = Ok tt w /\
  (forall other sh sho,
     heap_ok w -> this <> other ->
     has_shape w this sh -> has_shape w other sho ->
     sho <> Moved -> text_of sho = [] ->
     owned sho = 0 \/ owned sho <> owned sh ->
     (sh <> Moved ->
      exists w' p,
        String.Append this other w = Ok tt w' /\
        String.CStr this w = Ok p w /\ String.CStr this w' = Ok p w' /\
        String.GetSize this w' = Ok (len (text_of sh)) w' /\
        text this w' = Some (text_of sh) /\
        brk w' = brk w) /\
     (sh = Moved -> brk w + 1 <= heap_limit ->
      exists w',
        String.Append this other w = Ok tt w' /\
        String.CStr this w = Ok Null w /\
        String.CStr this w' = Ok (Heap (brk w) 0) w' /\
        String.GetSize this w' = Ok 0 w' /\
        String.get_word this String.normal_capacity w' = Ok 1 w' /\
        text this w' = Some [] /\
        brk w' = brk w + 1)).
Proof.
  split; [reflexivity |]. split; [reflexivity |].
  intros other sh sho Hok Hne Hsh Hsho Hnmo Hempty Hown.
  pose proof (Append_spec w this other sh sho Hok Hne Hsh Hsho Hnmo Hown) as H.
  rewrite Hempty in H. cbn [length] in H. change (Z.of_nat 0) with 0 in H.
  split.
  - intros Hnm.
    assert (fits sh 0) as Hfit.
    { destruct Hsh as (buf & _ & Hshape).
      destruct sh as [s | s base cap |]; cbn in Hshape |- *; try contradiction.
      - destruct Hshape as (_ & _ & Hs & _). lia.
      - destruct Hshape as (_ & _ & _ & _ & _ & _ & _ & Hlt & _). lia. }
    pose proof (proj1 (fits_needs_realloc _ _) Hfit) as Hneed.
    rewrite Hneed in H.
    destruct (String.Append this other w) as [[] w' | w' |].
    + destruct H as (_ & _ & Hsh' & H).
      destruct (appended_in_place this (brk w) sh [] Hfit) as (Hp & Htxt & Hnm').
      rewrite app_nil_r in Htxt.
      exists w', (cstr_of this sh). split; [reflexivity |].
      split; [apply (CStr_shape _ _ _ Hsh) |].
      split; [rewrite <- Hp; apply (CStr_shape _ _ _ Hsh') |].
      split; [rewrite <- Htxt; apply (GetSize_shape _ _ _ Hsh') |].
      split; [rewrite <- Htxt; now apply text_shape | assumption].
    + destruct H as (_ & [=] & _).
    + contradiction.
  - intros -> Hroom. cbn [needs_realloc text_of length appended] in H.
    change (Z.of_nat 0) with 0 in H. cbn [Z.add Z.mul app] in H.
    destruct (String.Append this other w) as [[] w' | w' |].
    + destruct H as (_ & _ & Hsh' & _ & Hbrk).
      unfold appended in Hsh'. cbn [needs_realloc text_of app length] in Hsh'.
      change (2 * (Z.of_nat 0 + Z.of_nat 0) + 1) with 1 in Hsh'.
      exists w'. split; [reflexivity |].
      split; [apply (CStr_shape _ _ _ Hsh) |].
      split; [apply (CStr_shape _ _ _ Hsh') |].
      split; [apply (GetSize_shape _ _ _ Hsh') |].
      split; [apply (capacity_shape _ _ _ _ _ Hsh') |].
      split; [apply (text_shape _ _ _ Hsh'); discriminate | assumption].
    + destruct H as (_ & _ & H). lia.
    + contradiction.
Qed.

(** X14.  [String()] builds what [String(nullptr)] builds: an inline
    String of size 0 whose text is empty; nothing is allocated. *)
Theorem default_constructor_builds_empty (w : World) (this : Z) :
  exists w',
    String.String_default this w = Ok tt w' /\
    String.String_cstr this Null w = Ok tt w' /\
    String.IsSmall this w' = Ok true w' /\
    String.GetSize this w' = Ok 0 w' /\
    String.CStr this w' = Ok (Obj this 0) w' /\
    text this w' = Some [] /\
    heap w' = heap w /\ brk w' = brk w.
Proof.
  destruct w as [h b o j].
  assert (has_shape (mkWorld h b (<[this := empty_buffer]> o) j) this (Small []))
    as Hsh by (eexists; split; [apply lookup_insert_eq | apply empty_buffer_shape]).
  eexists. split; [apply String_default_ok |].
  split; [apply String_cstr_null_ok |].
  split; [apply (IsSmall_shape _ _ _ Hsh) |].
  split; [apply (GetSize_shape _ _ _ Hsh) |].
  split; [apply (CStr_shape _ _ _ Hsh) |].
  split; [apply (text_shape _ _ _ Hsh); discriminate |].
  split; reflexivity.
Qed.

(* ================================================================== *)
(** ** The theorems above at work *)
(* ================================================================== *)

(** "Hi" built at program start: it is stored inline. *)
Lemma fixture_small :
  exists w,
    String.String_cstr 1 (literal [72; 105]) world0 = Ok tt w /\
    heap_ok w /\ brk w = 1 /\ has_shape w 1 (Small [72; 105]).
Proof.
  pose proof (String_cstr_spec world0 1 (literal [72; 105]) [72; 105] heap_ok_world0) as H.
  destruct (String.String_cstr 1 _ world0) as [[] w | |] eqn:E.
  - destruct H as (_ & Hok & Hsh & _ & Hbrk).
    { apply stable_text_array; [repeat constructor; discriminate | vm_compute; reflexivity]. }
    exists w. split; [reflexivity |]. split; [exact Hok |].
    split; [rewrite Hbrk; reflexivity | exact Hsh].
  - vm_compute in E. discriminate.
  - vm_compute in E. discriminate.
Qed.











(** "Hi" moved from: both Strings read "Hi" afterwards. *)
Lemma move_of_inline_source_copies_witness :
  exists w w',
    String.String_cstr 1 (literal [72; 105]) world0 = Ok tt w /\
    String.String_move 2 1 w = Ok tt w' /\
    text 2 w' = Some [72; 105] /\ text 1 w' = Some [72; 105].
Proof.
  destruct fixture_small as (w & Hc & Hok & Hbrk & Hsh).
  assert (2 <> 1) as Hne by discriminate.
  destruct (move_of_inline_source_copies w 2 1 _ Hok Hne Hsh)
    as [(w' & Hmove & Ht2 & Ht1 & _) _].
  exists w, w'. auto.
Defined.

(** The 70-byte String is assigned "Hi": its block is released. *)
Lemma copy_assignment_replaces_witness :
  exists w0 w w',
    String.String_cstr 1 (literal (replicate 70 66)) world0 = Ok tt w0 /\
    String.String_cstr 2 (literal [72; 105]) w0 = Ok tt w /\
    String.assign_copy 1 2 w = Ok tt w' /\
    text 1 w' = Some [72; 105] /\ text 2 w' = Some [72; 105] /\
    heap w !! 1 <> None /\ heap w' !! 1 = None.
Proof.
  destruct fixture_pair as (w0 & w & Hc1 & Hc2 & Hok & Hbrk & Hsh1 & Hsh2).
  assert (1 <> 2) as Hne by discriminate.
  assert (Small [72; 105] <> Moved) as Hnm by discriminate.
  assert (owned (Small [72; 105]) = 0 \/
          owned (Small [72; 105]) <> owned (Large (replicate 70 66) 1 71)) as Hdisj
    by (left; reflexivity).
  assert (forall s base cap,
    Small [72; 105] = Large s base cap -> brk w + cap <= heap_limit) as Hfit
    by discriminate.
  destruct (copy_assignment_replaces w 1 2 _ _ Hok Hne Hsh1 Hsh2 Hnm Hdisj Hfit)
    as (_ & w' & Hrun & _ & Ht1 & Ht2 & Hrel & _).
  assert (owned (Large (replicate 70 66) 1 71) <> 0) as Hnz by discriminate.
  destruct (Hrel Hnz) as [Hbefore Hafter].
  exists w0, w, w'. auto 10.
Defined.

(** "Hi" is move-assigned the 70-byte String. *)
Lemma move_assignment_steals_and_releases_witness :
  exists w0 w w',
    String.String_cstr 1 (literal (replicate 70 66)) world0 = Ok tt w0 /\
    String.String_cstr 2 (literal [72; 105]) w0 = Ok tt w /\
    String.assign_move 2 1 w = Ok tt w' /\
    String.CStr 2 w' = Ok (Heap 1 0) w' /\
    text 2 w' = Some (replicate 70 66) /\
    emptied w' 1.
Proof.
  destruct fixture_pair as (w0 & w & Hc1 & Hc2 & Hok & Hbrk & Hsh1 & Hsh2).
  assert (2 <> 1) as Hne by discriminate.
  assert (owned (Small [72; 105]) <> 1) as Hown by discriminate.
  destruct (move_assignment_steals_and_releases w 2 1 _ _ _ _ Hok Hne Hsh2 Hsh1 Hown)
    as (_ & w' & Hrun & _ & Hp & _ & _ & Ht & He & _).
  exists w0, w, w'. auto 10.
Defined.

(** Seventy 'B' built and destroyed at program start. *)
Lemma construct_then_destroy_restores_witness :
  exists w1 w2,
    String.String_cstr 1 (Lit (replicate 70 66 ++ 0 :: []) 0) world0 = Ok tt w1 /\
    String.String_dtor 1 w1 = Ok tt w2 /\
    heap w2 = heap world0 /\ objs w2 = objs world0.
Proof.
  apply (construct_then_destroy_restores world0 1 (replicate 70 66) []).
  - exact heap_ok_world0.
  - intros [x Hx]. vm_compute in Hx. discriminate.
  - apply Forall_replicate. discriminate.
  - vm_compute. reflexivity.
  - intros _. vm_compute. discriminate.
Defined.

(** "Hi" and "!". *)
Lemma append_that_fits_stays_in_place_witness :
  exists w w' p,
    String.String_cstr 1 (literal [72; 105]) world0 = Ok tt w /\
    String.Append_cstr 1 (Lit ([33] ++ 0 :: []) 0) w = Ok tt w' /\
    String.CStr 1 w = Ok p w /\ String.CStr 1 w' = Ok p w' /\
    text 1 w' = Some ([72; 105] ++ [33]).
Proof.
  destruct fixture_small as (w & Hc & Hok & Hbrk & Hsh).
  assert (no_nul [33]) as Ht by (repeat constructor; discriminate).
  assert (len [33] < heap_limit) as Hl by (vm_compute; reflexivity).
  assert (fits (Small [72; 105]) (len [33])) as Hfit by (vm_compute; reflexivity).
  destruct (append_that_fits_stays_in_place w 1 _ [33] [] Hok Hsh Ht Hl Hfit)
    as (w' & p & Hrun & Hp & Hp' & _ & Htxt & _).
  exists w, w', p. auto 10.
Defined.

(** "Hi", then fifty 'B' (the String moves to the heap), then ten 'C'. *)
Lemma growth_pays_for_the_next_append_witness :
  exists w w1 w2,
    String.String_cstr 1 (literal [72; 105]) world0 = Ok tt w /\
    String.Append_cstr 1 (Lit (replicate 50 66 ++ 0 :: []) 0) w = Ok tt w1 /\
    String.Append_cstr 1 (Lit (replicate 10 67 ++ 0 :: []) 0) w1 = Ok tt w2 /\
    String.CStr 1 w1 = Ok (Heap (brk w) 0) w1 /\
    String.CStr 1 w2 = Ok (Heap (brk w) 0) w2 /\
    brk w2 = brk w1.
Proof.
  destruct fixture_small as (w & Hc & Hok & Hbrk & Hsh).
  assert (Small [72; 105] <> Moved) as Hnm by discriminate.
  assert (no_nul (replicate 50 66)) as Ht1 by (apply Forall_replicate; discriminate).
  assert (no_nul (replicate 10 67)) as Ht2 by (apply Forall_replicate; discriminate).
  assert (~ fits (Small [72; 105]) (len (replicate 50 66))) as Hnofit
    by (vm_compute; discriminate).
  assert (len (replicate 10 67) <= len (text_of (Small [72; 105])) + len (replicate 50 66))
    as Hle by (vm_compute; discriminate).
  assert (brk w + (2 * (len (text_of (Small [72; 105])) + len (replicate 50 66)) + 1)
          <= heap_limit) as Hroom by (rewrite Hbrk; vm_compute; discriminate).
  destruct (growth_pays_for_the_next_append w 1 _ _ _ [] [] Hok Hsh Hnm Ht1 Ht2
              Hnofit Hle Hroom)
    as (w1 & w2 & Hr1 & Hr2 & Hp1 & Hp2 & _ & Hb & _).
  exists w, w1, w2. auto 10.
Defined.

(** Seventy 'B' moved from String 1 to String 2, and an empty String 3. *)
Lemma fixture_emptied :
  exists w0 w1 w,
    String.String_cstr 1 (literal (replicate 70 66)) world0 = Ok tt w0 /\
    String.String_move 2 1 w0 = Ok tt w1 /\
    String.String_default 3 w1 = Ok tt w /\
    heap_ok w /\ brk w = 72 /\
    has_shape w 1 Moved /\
    has_shape w 2 (Large (replicate 70 66) 1 71) /\
    has_shape w 3 (Small []).
Proof.
  destruct fixture_large as (w0 & Hc & Hok0 & Hbrk0 & Hsh0).
  assert (2 <> 1) as Hne by discriminate.
  destruct (String_move_spec w0 2 1 _ Hok0 Hne Hsh0)
    as (w1 & Hmove & _ & Hheap & Hbrk & Hsh2 & Hsh1).
  cbn [moved_out] in Hsh1.
  pose proof (heap_ok_same w0 w1 Hheap Hbrk Hok0) as Hok1.
  destruct w1 as [h b o j]. cbn [brk] in Hbrk.
  exists w0, (mkWorld h b o j). eexists.
  split; [exact Hc |]. split; [exact Hmove |].
  split; [apply String_default_ok |].
  split; [exact Hok1 |]. split; [cbn [brk]; congruence |].
  split; [apply (has_shape_other h b b o j j 3 1); [discriminate | exact Hsh1] |].
  split; [apply (has_shape_other h b b o j j 3 2); [discriminate | exact Hsh2] |].
  eexists. split; [apply lookup_insert_eq | apply empty_buffer_shape].
Qed.

(** The empty String 3 appended to the 70-byte String 2, which keeps its
    block, and to the emptied String 1, which gets one. *)
Lemma append_of_nothing_witness :
  exists w0 w1 w,
    String.String_cstr 1 (literal (replicate 70 66)) world0 = Ok tt w0 /\
    String.String_move 2 1 w0 = Ok tt w1 /\
    String.String_default 3 w1 = Ok tt w /\
    (exists w' p,
        String.Append 2 3 w = Ok tt w' /\
        String.CStr 2 w = Ok p w /\ String.CStr 2 w' = Ok p w' /\
        text 2 w' = Some (replicate 70 66) /\ brk w' = brk w) /\
    (exists w',
        String.Append 1 3 w = Ok tt w' /\
        String.CStr 1 w = Ok Null w /\
        String.CStr 1 w' = Ok (Heap (brk w) 0) w' /\
        text 1 w' = Some [] /\ brk w' = brk w + 1).
Proof.
  destruct fixture_emptied as (w0 & w1 & w & Hc & Hm & Hd & Hok & Hbrk & Hsh1 & Hsh2 & Hsh3).
  exists w0, w1, w. split; [exact Hc |]. split; [exact Hm |]. split; [exact Hd |].
  assert (Small [] <> Moved) as Hnm3 by discriminate.
  split.
  - destruct (append_of_nothing w 2 []) as (_ & _ & H).
    destruct (H 3 _ _ Hok ltac:(discriminate) Hsh2 Hsh3 Hnm3 eq_refl
                (or_introl eq_refl)) as [Hkeep _].
    destruct (Hkeep ltac:(discriminate)) as (w' & p & Hrun & Hp & Hp' & _ & Ht & Hb).
    exists w', p. auto.
  - destruct (append_of_nothing w 1 []) as (_ & _ & H).
    destruct (H 3 _ _ Hok ltac:(discriminate) Hsh1 Hsh3 Hnm3 eq_refl
                (or_introl eq_refl)) as [_ Hnew].
    destruct (Hnew eq_refl ltac:(rewrite Hbrk; vm_compute; discriminate))
      as (w' & Hrun & Hp & Hp' & _ & _ & Ht & Hb).
    exists w'. auto.
Defined.

(* ================================================================== *)
(** ** LSBFlag: the setters and the comparison *)
(* ================================================================== *)

Lemma land_1_mod (data : Z) : Z.land data 1 = data mod 2.
Proof. change 1 with (Z.ones 1). now rewrite Z.land_ones by lia. Qed.

Lemma land_1_b2z (data : Z) : Z.land data 1 = Z.b2z (LSBFlag.GetFlag data).
Proof.
  unfold LSBFlag.GetFlag. rewrite land_1_mod.
  pose proof (Z.mod_pos_bound data 2 ltac:(lia)) as H.
  destruct (Z.eqb_spec (data mod 2) 0) as [-> | Hne]; [reflexivity |].
  cbn [negb Z.b2z]. lia.
Qed.

Lemma lsb_unpack (data : Z) :
  data = 2 * LSBFlag.GetValue data + Z.b2z (LSBFlag.GetFlag data).
Proof.
  rewrite <- land_1_b2z, land_1_mod.
  unfold LSBFlag.GetValue. rewrite Z.shiftr_div_pow2 by lia. change (2 ^ 1) with 2.
  apply Z.div_mod. lia.
Qed.

Lemma GetValue_range (bits data : Z) :
  0 < bits -> 0 <= data < 2 ^ bits ->
  0 <= LSBFlag.GetValue data < 2 ^ (bits - 1).
Proof.
  intros Hb Hd. unfold LSBFlag.GetValue. rewrite Z.shiftr_div_pow2 by lia.
  change (2 ^ 1) with 2.
  assert (2 ^ bits = 2 * 2 ^ (bits - 1)) as E
    by (rewrite <- Z.pow_succ_r by lia; f_equal; lia).
  split; [apply Z.div_pos; lia |].
  apply Z.div_lt_upper_bound; lia.
Qed.

(** X15.  [SetValue] replaces the value and keeps the flag: afterwards
    [GetValue] returns the new value modulo [2 ^ (bits - 1)] and [GetFlag]
    what it returned before. *)
Theorem LSBFlag_SetValue_keeps_flag (bits data value : Z) :
  0 < bits ->
  LSBFlag.GetValue (LSBFlag.SetValue bits data value) = value mod 2 ^ (bits - 1) /\
  LSBFlag.GetFlag (LSBFlag.SetValue bits data value) = LSBFlag.GetFlag data.
Proof.
  intros Hb. unfold LSBFlag.SetValue.
  rewrite land_1_b2z, lsb_pack, lsb_wrap by assumption.
  split; [apply GetValue_pack | apply GetFlag_pack].
Qed.

Lemma land_clear_low (bits data : Z) :
  0 < bits -> 0 <= data < 2 ^ bits ->
  Z.land data (LSBFlag.wrap bits (Z.lnot 1)) = 2 * LSBFlag.GetValue data.
Proof.
  intros Hb Hd. unfold LSBFlag.wrap, LSBFlag.GetValue.
  rewrite <- Z.land_ones by lia.
  rewrite Z.land_assoc, (Z.land_comm data), <- Z.land_assoc.
  rewrite (Z.land_ones data) by lia. rewrite (Z.mod_small data) by assumption.
  apply Z.bits_inj'; intros n Hn.
  rewrite Z.land_spec, Z.lnot_spec by assumption.
  destruct (Z.eq_dec n 0) as [-> | Hne].
  - rewrite Z.testbit_even_0. reflexivity.
  - change 1 with (2 ^ 0) at 1. rewrite Z.pow2_bits_eqb by lia.
    destruct (Z.eqb_spec 0 n); [lia |]. cbn [negb andb].
    replace n with (Z.succ (n - 1)) at 2 by lia.
    rewrite Z.testbit_even_succ, Z.shiftr_spec by lia.
    f_equal. lia.
Qed.

(** X16.  [SetFlag] replaces the flag and keeps the value. *)
Theorem LSBFlag_SetFlag_keeps_value (bits data : Z) (flag : bool) :
  0 < bits -> 0 <= data < 2 ^ bits ->
  LSBFlag.GetValue (LSBFlag.SetFlag bits data flag) = LSBFlag.GetValue data /\
  LSBFlag.GetFlag (LSBFlag.SetFlag bits data flag) = flag.
Proof.
  intros Hb Hd. unfold LSBFlag.SetFlag.
  rewrite land_clear_low by assumption.
  replace (Z.lor (2 * LSBFlag.GetValue data) (Z.b2z flag))
    with (2 * LSBFlag.GetValue data + Z.b2z flag).
  2:{ rewrite <- lsb_pack. reflexivity. }
  rewrite lsb_wrap by assumption.
  rewrite (Z.mod_small (LSBFlag.GetValue data)) by now apply GetValue_range.
  split; [apply GetValue_pack | apply GetFlag_pack].
Qed.

(** X17.  A word of the type is its value and its flag and nothing else:
    [Set] on what [GetValue] and [GetFlag] return rebuilds the word, so
    [operator==] holds exactly when value and flag agree, and
    [operator!=] is its negation.  The default constructor gives value 0
    and a clear flag. *)
Theorem LSBFlag_word_is_value_and_flag (bits a b : Z) :
  0 < bits -> 0 <= a < 2 ^ bits -> 0 <= b < 2 ^ bits ->
  LSBFlag.Set_ bits (LSBFlag.GetValue a) (LSBFlag.GetFlag a) = a /\
  (LSBFlag.eqb a b = true <->
   LSBFlag.GetValue a = LSBFlag.GetValue b /\ LSBFlag.GetFlag a = LSBFlag.GetFlag b) /\
  LSBFlag.neqb a b = negb (LSBFlag.eqb a b) /\
  LSBFlag.GetValue LSBFlag.Default = 0 /\ LSBFlag.GetFlag LSBFlag.Default = false.
Proof.
  intros Hb Ha Hb'. split; [| split; [| repeat split]].
  - rewrite Set__pack by assumption.
    rewrite (Z.mod_small (LSBFlag.GetValue a)) by now apply GetValue_range.
    symmetry. apply lsb_unpack.
  - unfold LSBFlag.eqb. rewrite Z.eqb_eq. split; [now intros -> |].
    intros [Hv Hf]. rewrite (lsb_unpack a), (lsb_unpack b). congruence.
Qed.

(* ================================================================== *)
(** ** MSBFlag *)
(* ================================================================== *)

Lemma flagMask_pow (bits : Z) : 0 < bits -> MSBFlag.flagMask bits = 2 ^ (bits - 1).
Proof.
  intros Hb. unfold MSBFlag.flagMask, LSBFlag.wrap.
  rewrite Z.shiftl_mul_pow2, Z.mul_1_l by lia.
  apply Z.mod_small. split; [apply Z.pow_nonneg; lia |].
  apply Z.pow_lt_mono_r; lia.
Qed.

(** The bit [n] of a word below [2 ^ (n + 1)] and the bits under it. *)
Lemma land_pow2 (n a : Z) :
  0 <= n -> Z.land a (2 ^ n) = if Z.testbit a n then 2 ^ n else 0.
Proof.
  intros Hn. apply Z.bits_inj'; intros m Hm.
  rewrite Z.land_spec, Z.pow2_bits_eqb by assumption.
  destruct (Z.eqb_spec n m) as [<- | Hne].
  - destruct (Z.testbit a n); [| now rewrite Z.testbit_0_l].
    rewrite Z.pow2_bits_true by assumption. reflexivity.
  - rewrite andb_false_r. destruct (Z.testbit a n); [| now rewrite Z.testbit_0_l].
    rewrite Z.pow2_bits_false by lia. reflexivity.
Qed.

Lemma land_lnot_pow2 (n a : Z) :
  0 <= n -> 0 <= a < 2 ^ (n + 1) -> Z.land a (Z.lnot (2 ^ n)) = a mod 2 ^ n.
Proof.
  intros Hn Ha. apply Z.bits_inj'; intros m Hm.
  rewrite Z.land_spec, Z.lnot_spec, Z.pow2_bits_eqb by assumption.
  destruct (Z.ltb_spec m n) as [Hlt | Hge].
  - rewrite Z.mod_pow2_bits_low by lia.
    destruct (Z.eqb_spec n m); [lia |]. apply andb_true_r.
  - rewrite Z.mod_pow2_bits_high by lia.
    destruct (Z.eqb_spec n m) as [<- | Hne]; [apply andb_false_r |].
    rewrite <- (Z.mod_small a (2 ^ (n + 1))) by assumption.
    rewrite Z.mod_pow2_bits_high by lia. reflexivity.
Qed.

Lemma lor_pow2 (n lo : Z) (f : bool) :
  0 <= n -> 0 <= lo < 2 ^ n ->
  Z.lor lo (if f then 2 ^ n else 0) = lo + (if f then 2 ^ n else 0).
Proof.
  intros Hn Hlo. destruct f; [| now rewrite Z.lor_0_r, Z.add_0_r].
  rewrite <- Z.lxor_lor, <- Z.add_nocarry_lxor; try reflexivity.
  all: rewrite land_pow2 by assumption.
  all: rewrite <- (Z.mod_small lo (2 ^ n)) by assumption.
  all: rewrite Z.mod_pow2_bits_high by lia; reflexivity.
Qed.

Lemma testbit_top (n lo : Z) (f : bool) :
  0 <= n -> 0 <= lo < 2 ^ n ->
  Z.testbit (lo + (if f then 2 ^ n else 0)) n = f.
Proof.
  intros Hn Hlo. rewrite <- lor_pow2 by assumption.
  rewrite Z.lor_spec. rewrite <- (Z.mod_small lo (2 ^ n)) by assumption.
  rewrite Z.mod_pow2_bits_high by lia.
  destruct f; [apply Z.pow2_bits_true; assumption | apply Z.testbit_0_l].
Qed.

Lemma msb_split (n a : Z) :
  0 <= n -> 0 <= a < 2 ^ (n + 1) ->
  a = a mod 2 ^ n + (if Z.testbit a n then 2 ^ n else 0).
Proof.
  intros Hn Ha.
  rewrite <- (land_lnot_pow2 n a), <- (land_pow2 n a) by assumption.
  rewrite <- Z.ldiff_land. 
  rewrite Z.add_nocarry_lxor, Z.lxor_lor.
  - apply Z.bits_inj'; intros m Hm.
    rewrite Z.lor_spec, Z.ldiff_spec, Z.land_spec.
    destruct (Z.testbit a m), (Z.testbit (2 ^ n) m); reflexivity.
  - apply Z.bits_inj'; intros m Hm.
    rewrite !Z.land_spec, Z.ldiff_spec, Z.testbit_0_l.
    destruct (Z.testbit a m), (Z.testbit (2 ^ n) m); reflexivity.
  - apply Z.bits_inj'; intros m Hm.
    rewrite !Z.land_spec, Z.ldiff_spec, Z.testbit_0_l.
    destruct (Z.testbit a m), (Z.testbit (2 ^ n) m); reflexivity.
Qed.

Lemma msb_wrap_small (bits lo : Z) (f : bool) :
  0 < bits -> 0 <= lo < 2 ^ (bits - 1) ->
  0 <= lo + (if f then 2 ^ (bits - 1) else 0) < 2 ^ bits.
Proof.
  intros Hb Hlo.
  assert (2 ^ bits = 2 * 2 ^ (bits - 1)) as E
    by (rewrite <- Z.pow_succ_r by lia; f_equal; lia).
  destruct f; lia.
Qed.

Lemma msb_low (bits value : Z) :
  0 < bits ->
  Z.land value (MSBFlag.flagMask bits - 1) = value mod 2 ^ (bits - 1).
Proof.
  intros Hb. rewrite flagMask_pow by assumption.
  rewrite <- Z.land_ones by lia. now rewrite Z.ones_equiv.
Qed.

Lemma MSB_Set__pack (bits value : Z) (flag : bool) :
  0 < bits ->
  MSBFlag.Set_ bits value flag
  = value mod 2 ^ (bits - 1) + (if flag then 2 ^ (bits - 1) else 0).
Proof.
  intros Hb. unfold MSBFlag.Set_. rewrite msb_low, flagMask_pow by assumption.
  pose proof (Z.mod_pos_bound value (2 ^ (bits - 1))
                ltac:(apply Z.pow_pos_nonneg; lia)) as Hlo.
  rewrite lor_pow2 by (assumption || lia).
  apply Z.mod_small, msb_wrap_small; assumption.
Qed.

Lemma MSB_ctor_Set_ (bits value : Z) (flag : bool) :
  0 < bits -> MSBFlag.MSBFlag bits value flag = MSBFlag.Set_ bits value flag.
Proof.
  intros Hb. unfold MSBFlag.MSBFlag, MSBFlag.Set_. do 2 f_equal.
  unfold LSBFlag.wrap. rewrite Z.mod_small.
  - now destruct flag.
  - assert (1 < 2 ^ bits) by (apply Z.pow_gt_1; lia). destruct flag; cbn; lia.
Qed.

Lemma MSB_GetValue_mod (bits data : Z) :
  0 < bits -> 0 <= data < 2 ^ bits ->
  MSBFlag.GetValue bits data = data mod 2 ^ (bits - 1).
Proof.
  intros Hb Hd. unfold MSBFlag.GetValue. rewrite flagMask_pow by assumption.
  replace bits with (bits - 1 + 1) in Hd by lia.
  rewrite land_lnot_pow2 by (assumption || lia).
  pose proof (Z.mod_pos_bound data (2 ^ (bits - 1))
                ltac:(apply Z.pow_pos_nonneg; lia)) as Hlo.
  apply Z.mod_small.
  pose proof (msb_wrap_small bits _ false Hb Hlo). lia.
Qed.

Lemma MSB_GetFlag_testbit (bits data : Z) :
  0 < bits -> MSBFlag.GetFlag bits data = Z.testbit data (bits - 1).
Proof.
  intros Hb. unfold MSBFlag.GetFlag. rewrite flagMask_pow by assumption.
  rewrite land_pow2 by lia.
  assert (0 < 2 ^ (bits - 1)) by (apply Z.pow_pos_nonneg; lia).
  destruct (Z.testbit data (bits - 1)); [| reflexivity].
  destruct (Z.eqb_spec (2 ^ (bits - 1)) 0); [lia | reflexivity].
Qed.

Lemma MSB_GetValue_pack (bits lo : Z) (f : bool) :
  0 < bits -> 0 <= lo < 2 ^ (bits - 1) ->
  MSBFlag.GetValue bits (lo + (if f then 2 ^ (bits - 1) else 0)) = lo.
Proof.
  intros Hb Hlo.
  rewrite MSB_GetValue_mod by (assumption || now apply msb_wrap_small).
  destruct f.
  - rewrite <- (Z.mul_1_l (2 ^ (bits - 1))) at 1.
    rewrite Z.mod_add by lia. now apply Z.mod_small.
  - rewrite Z.add_0_r. now apply Z.mod_small.
Qed.

Lemma MSB_GetFlag_pack (bits lo : Z) (f : bool) :
  0 < bits -> 0 <= lo < 2 ^ (bits - 1) ->
  MSBFlag.GetFlag bits (lo + (if f then 2 ^ (bits - 1) else 0)) = f.
Proof.
  intros Hb Hlo. rewrite MSB_GetFlag_testbit by assumption.
  apply testbit_top; (assumption || lia).
Qed.

Lemma MSB_unpack (bits data : Z) :
  0 < bits -> 0 <= data < 2 ^ bits ->
  data = MSBFlag.GetValue bits data
         + (if MSBFlag.GetFlag bits data then 2 ^ (bits - 1) else 0).
Proof.
  intros Hb Hd. rewrite MSB_GetValue_mod, MSB_GetFlag_testbit by assumption.
  apply msb_split; [lia |]. now replace (bits - 1 + 1) with bits by lia.
Qed.

(** X18.  For a word type of [bits] bits the constructor and [Set] store
    [value] modulo [2 ^ (bits - 1)] under the flag in the top bit: a value
    that reaches the top bit loses it, nothing is rejected.  [GetValue]
    and [GetFlag] read the two back, and the value read back is the one
    [LSBFlag] reads back for the same arguments. *)
Theorem MSBFlag_ctor_truncates (bits value : Z) (flag : bool) :
  0 < bits ->
  MSBFlag.MSBFlag bits value flag
    = value mod 2 ^ (bits - 1) + (if flag then 2 ^ (bits - 1) else 0) /\
  MSBFlag.Set_ bits value flag = MSBFlag.MSBFlag bits value flag /\
  MSBFlag.GetValue bits (MSBFlag.MSBFlag bits value flag) = value mod 2 ^ (bits - 1) /\
  MSBFlag.GetFlag bits (MSBFlag.MSBFlag bits value flag) = flag /\
  MSBFlag.GetValue bits (MSBFlag.MSBFlag bits value flag)
    = LSBFlag.GetValue (LSBFlag.LSBFlag bits value flag).
Proof.
  intros Hb.
  pose proof (Z.mod_pos_bound value (2 ^ (bits - 1))
                ltac:(apply Z.pow_pos_nonneg; lia)) as Hlo.
  rewrite MSB_ctor_Set_, MSB_Set__pack by assumption.
  split; [reflexivity |]. split; [reflexivity |].
  rewrite MSB_GetValue_pack, MSB_GetFlag_pack by assumption.
  split; [reflexivity |]. split; [reflexivity |].
  change (LSBFlag.LSBFlag bits value flag) with (LSBFlag.Set_ bits value flag).
  rewrite Set__pack by assumption. symmetry. apply GetValue_pack.
Qed.

(** X19.  The two setters do not disturb each other: [SetValue] replaces
    the value (modulo [2 ^ (bits - 1)]) and keeps the flag, [SetFlag]
    replaces the flag and keeps the value. *)
Theorem MSBFlag_setters_are_independent (bits data value : Z) (flag : bool) :
  0 < bits -> 0 <= data < 2 ^ bits ->
  MSBFlag.GetValue bits (MSBFlag.SetValue bits data value) = value mod 2 ^ (bits - 1) /\
  MSBFlag.GetFlag bits (MSBFlag.SetValue bits data value) = MSBFlag.GetFlag bits data /\
  MSBFlag.GetValue bits (MSBFlag.SetFlag bits data flag) = MSBFlag.GetValue bits data /\
  MSBFlag.GetFlag bits (MSBFlag.SetFlag bits data flag) = flag.
Proof.
  intros Hb Hd.
  pose proof (Z.mod_pos_bound value (2 ^ (bits - 1))
                ltac:(apply Z.pow_pos_nonneg; lia)) as Hlo.
  pose proof (Z.mod_pos_bound data (2 ^ (bits - 1))
                ltac:(apply Z.pow_pos_nonneg; lia)) as Hdlo.
  assert (MSBFlag.SetValue bits data value
          = MSBFlag.Set_ bits value (MSBFlag.GetFlag bits data)) as ->.
  { unfold MSBFlag.SetValue, MSBFlag.Set_. do 2 f_equal.
    rewrite MSB_GetFlag_testbit, flagMask_pow by assumption.
    apply land_pow2. lia. }
  assert (MSBFlag.SetFlag bits data flag
          = data mod 2 ^ (bits - 1) + (if flag then 2 ^ (bits - 1) else 0)) as ->.
  { unfold MSBFlag.SetFlag. destruct flag.
    - rewrite flagMask_pow by assumption.
      rewrite (msb_split (bits - 1) data) at 1
        by (try lia; now replace (bits - 1 + 1) with bits by lia).
      rewrite <- lor_pow2 by (assumption || lia).
      rewrite <- Z.lor_assoc.
      assert (Z.lor (if Z.testbit data (bits - 1) then 2 ^ (bits - 1) else 0)
                (2 ^ (bits - 1)) = 2 ^ (bits - 1)) as ->
        by (destruct (Z.testbit data (bits - 1)); [apply Z.lor_diag | apply Z.lor_0_l]).
      rewrite (lor_pow2 (bits - 1) _ true) by (assumption || lia).
      apply Z.mod_small, (msb_wrap_small bits _ true); assumption.
    - rewrite Z.add_0_r. exact (MSB_GetValue_mod bits data Hb Hd). }
  rewrite MSB_Set__pack by assumption.
  rewrite !MSB_GetValue_pack, !MSB_GetFlag_pack by assumption.
  rewrite MSB_GetValue_mod by assumption. auto.
Qed.

(** X20.  A word of the type is its value and its flag and nothing else:
    it is the value plus [2 ^ (bits - 1)] when the flag is set, [Set] on
    what [GetValue] and [GetFlag] return rebuilds it, and [operator==]
    holds exactly when value and flag agree.  The default constructor
    gives value 0 and a clear flag. *)
Theorem MSBFlag_word_is_value_and_flag (bits a b : Z) :
  0 < bits -> 0 <= a < 2 ^ bits -> 0 <= b < 2 ^ bits ->
  a = MSBFlag.GetValue bits a + (if MSBFlag.GetFlag bits a then 2 ^ (bits - 1) else 0) /\
  MSBFlag.Set_ bits (MSBFlag.GetValue bits a) (MSBFlag.GetFlag bits a) = a /\
  (MSBFlag.eqb a b = true <->
   MSBFlag.GetValue bits a = MSBFlag.GetValue bits b /\
   MSBFlag.GetFlag bits a = MSBFlag.GetFlag bits b) /\
  MSBFlag.neqb a b = negb (MSBFlag.eqb a b) /\
  MSBFlag.GetValue bits MSBFlag.Default = 0 /\
  MSBFlag.GetFlag bits MSBFlag.Default = false.
Proof.
  intros Hb Ha Hb'.
  pose proof (MSB_unpack bits a Hb Ha) as Ea.
  pose proof (MSB_unpack bits b Hb Hb') as Eb.
  split; [exact Ea |]. split; [| split; [| split; [reflexivity |]]].
  3:{ assert (0 <= 0 < 2 ^ (bits - 1)) as H0
        by (split; [lia | apply Z.pow_pos_nonneg; lia]).
      pose proof (MSB_GetValue_pack bits 0 false Hb H0) as Hv.
      pose proof (MSB_GetFlag_pack bits 0 false Hb H0) as Hf.
      auto. }
  - rewrite MSB_Set__pack by assumption.
    rewrite (MSB_GetValue_mod bits a) at 1 by assumption.
    rewrite Z.mod_mod by (apply Z.pow_nonzero; lia).
    rewrite <- MSB_GetValue_mod by assumption. now symmetry.
  - unfold MSBFlag.eqb. rewrite Z.eqb_eq. split; [now intros -> |].
    intros [Hv Hf]. rewrite Ea, Eb, Hv, Hf. reflexivity.
Qed.

(** The flag words at work on [uint8_t] and [uint32_t]. *)
Lemma LSBFlag_SetValue_keeps_flag_witness :
  LSBFlag.GetValue (LSBFlag.SetValue 8 255 200) = 200 mod 2 ^ (8 - 1) /\
  LSBFlag.GetFlag (LSBFlag.SetValue 8 255 200) = LSBFlag.GetFlag 255.
Proof. apply (LSBFlag_SetValue_keeps_flag 8 255 200). lia. Defined.

Lemma LSBFlag_SetFlag_keeps_value_witness :
  LSBFlag.GetValue (LSBFlag.SetFlag 8 255 false) = LSBFlag.GetValue 255 /\
  LSBFlag.GetFlag (LSBFlag.SetFlag 8 255 false) = false.
Proof. apply (LSBFlag_SetFlag_keeps_value 8 255 false); lia. Defined.

Lemma LSBFlag_word_is_value_and_flag_witness :
  LSBFlag.Set_ 8 (LSBFlag.GetValue 201) (LSBFlag.GetFlag 201) = 201 /\
  (LSBFlag.eqb 201 200 = true <->
   LSBFlag.GetValue 201 = LSBFlag.GetValue 200 /\
   LSBFlag.GetFlag 201 = LSBFlag.GetFlag 200) /\
  LSBFlag.neqb 201 200 = negb (LSBFlag.eqb 201 200) /\
  LSBFlag.GetValue LSBFlag.Default = 0 /\ LSBFlag.GetFlag LSBFlag.Default = false.
Proof. apply (LSBFlag_word_is_value_and_flag 8 201 200); lia. Defined.

Lemma MSBFlag_ctor_truncates_witness :
  MSBFlag.MSBFlag 32 4294967295 true
    = 4294967295 mod 2 ^ (32 - 1) + (if true then 2 ^ (32 - 1) else 0) /\
  MSBFlag.Set_ 32 4294967295 true = MSBFlag.MSBFlag 32 4294967295 true /\
  MSBFlag.GetValue 32 (MSBFlag.MSBFlag 32 4294967295 true) = 4294967295 mod 2 ^ (32 - 1) /\
  MSBFlag.GetFlag 32 (MSBFlag.MSBFlag 32 4294967295 true) = true /\
  MSBFlag.GetValue 32 (MSBFlag.MSBFlag 32 4294967295 true)
    = LSBFlag.GetValue (LSBFlag.LSBFlag 32 4294967295 true).
Proof. apply (MSBFlag_ctor_truncates 32 4294967295 true). lia. Defined.

Lemma MSBFlag_setters_are_independent_witness :
  MSBFlag.GetValue 8 (MSBFlag.SetValue 8 129 200) = 200 mod 2 ^ (8 - 1) /\
  MSBFlag.GetFlag 8 (MSBFlag.SetValue 8 129 200) = MSBFlag.GetFlag 8 129 /\
  MSBFlag.GetValue 8 (MSBFlag.SetFlag 8 129 false) = MSBFlag.GetValue 8 129 /\
  MSBFlag.GetFlag 8 (MSBFlag.SetFlag 8 129 false) = false.
Proof. apply (MSBFlag_setters_are_independent 8 129 200 false); lia. Defined.

Lemma MSBFlag_word_is_value_and_flag_witness :
  129 = MSBFlag.GetValue 8 129 + (if MSBFlag.GetFlag 8 129 then 2 ^ (8 - 1) else 0) /\
  MSBFlag.Set_ 8 (MSBFlag.GetValue 8 129) (MSBFlag.GetFlag 8 129) = 129 /\
  (MSBFlag.eqb 129 1 = true <->
   MSBFlag.GetValue 8 129 = MSBFlag.GetValue 8 1 /\
   MSBFlag.GetFlag 8 129 = MSBFlag.GetFlag 8 1) /\
  MSBFlag.neqb 129 1 = negb (MSBFlag.eqb 129 1) /\
  MSBFlag.GetValue 8 MSBFlag.Default = 0 /\
  MSBFlag.GetFlag 8 MSBFlag.Default = false.
Proof. apply (MSBFlag_word_is_value_and_flag 8 129 1); lia. Defined.

(* ================================================================== *)
(** ** HalfPointer *)
(* ================================================================== *)

(** X21.  A [HalfPointer] built from a pointer at or above [base] gives
    the pointer back exactly when the pointer lies less than [0xFFFFFFFF]
    bytes above [base]: at that distance the offset is [INVALID_OFFSET]
    and the pointer reads back as null, as a default-constructed
    [HalfPointer] does, and beyond it the distance is truncated to 32
    bits.  A pointer below [base] stops a build with assertions. *)
Theorem HalfPointer_round_trip (assertions : bool) (base ptr : Z) :
  0 <= base -> base <= ptr ->
  exists offset,
    HalfPointer.HalfPointer assertions base ptr = Some offset /\
    offset = (ptr - base) mod 2 ^ 32 /\
    (HalfPointer.ToAbsolute offset base = ptr
     <-> ptr - base < HalfPointer.INVALID_OFFSET) /\
    (ptr - base = HalfPointer.INVALID_OFFSET ->
     HalfPointer.ToAbsolute offset base = 0) /\
    HalfPointer.ToAbsolute HalfPointer.Default base = 0 /\
    (forall below, below < base -> HalfPointer.HalfPointer true base below = None).
Proof.
  intros Hbase Hptr. exists ((ptr - base) mod 2 ^ 32).
  unfold HalfPointer.HalfPointer, HalfPointer.ToAbsolute, HalfPointer.Default,
    HalfPointer.INVALID_OFFSET, LSBFlag.wrap.
  pose proof (Z.mod_pos_bound (ptr - base) (2 ^ 32) ltac:(lia)) as Hoff.
  split.
  { destruct (Z.leb_spec base ptr); [| lia]. now rewrite andb_false_r. }
  split; [reflexivity |]. split; [| split; [| split]].
  - destruct (Z.eqb_spec ((ptr - base) mod 2 ^ 32) 4294967295) as [E | E].
    + split.
      * intros <-. assert (base = 0) as -> by lia. discriminate.
      * intros Hlt. rewrite Z.mod_small in E by lia. lia.
    + split.
      * intros Hback.
        assert ((ptr - base) mod 2 ^ 32 = ptr - base) as Hsame by lia.
        rewrite Hsame in *. lia.
      * intros Hlt. rewrite Z.mod_small by lia. lia.
  - intros ->. reflexivity.
  - reflexivity.
  - intros below Hbelow. destruct (Z.leb_spec base below); [lia | reflexivity].
Qed.

(** A pointer 16 bytes into a heap at address 4096. *)
Lemma HalfPointer_round_trip_witness :
  exists offset,
    HalfPointer.HalfPointer true 4096 4112 = Some offset /\
    HalfPointer.ToAbsolute offset 4096 = 4112.
Proof.
  destruct (HalfPointer_round_trip true 4096 4112) as (offset & Hnew & _ & Hback & _);
    [lia | lia |].
  exists offset. split; [assumption |]. apply Hback. reflexivity.
Defined.

(* ================================================================== *)
(** ** Meta: lengths and trimming *)
(* ================================================================== *)

Lemma strnlen_loop_text (pre s rest : list Z) (left : nat) :
  no_nul s ->
  Meta.strnlen_loop (pre ++ s ++ 0 :: rest) left (len pre)
  = Some (len pre + Z.min (len s) (Z.of_nat left)).
Proof.
  revert pre s. induction left as [| left IH]; intros pre s Hs.
  - cbn [Meta.strnlen_loop]. f_equal. lia.
  - cbn [Meta.strnlen_loop]. rewrite Nat2Z.id.
    rewrite lookup_app_r by lia. rewrite Nat.sub_diag.
    destruct s as [| c s']; cbn [app lookup list_lookup mbind option_bind].
    + cbn. f_equal. lia.
    + inversion Hs as [| ? ? Hc Hs']; subst.
      destruct (Z.eqb_spec c 0); [contradiction |].
      specialize (IH (pre ++ [c]) s' Hs').
      rewrite <- app_assoc in IH. cbn [app] in IH.
      rewrite length_app in IH. cbn [length] in IH.
      replace (Z.of_nat (length pre + 1)) with (len pre + 1) in IH by lia.
      rewrite IH. f_equal. cbn [length]. lia.
Qed.

Lemma strnlen_loop_no_terminator (pre s : list Z) (left : nat) :
  no_nul s ->
  Meta.strnlen_loop (pre ++ s) left (len pre)
  = if Z.of_nat left <=? len s then Some (len pre + Z.of_nat left) else None.
Proof.
  revert pre s. induction left as [| left IH]; intros pre s Hs.
  - cbn [Meta.strnlen_loop]. destruct (Z.leb_spec (Z.of_nat 0) (len s)); [| lia].
    f_equal. lia.
  - cbn [Meta.strnlen_loop]. rewrite Nat2Z.id.
    rewrite lookup_app_r by lia. rewrite Nat.sub_diag.
    destruct s as [| c s']; cbn [app lookup list_lookup mbind option_bind].
    + cbn [length]. destruct (Z.leb_spec (Z.of_nat (S left)) (Z.of_nat 0)); [lia |].
      reflexivity.
    + inversion Hs as [| ? ? Hc Hs']; subst.
      destruct (Z.eqb_spec c 0); [contradiction |].
      specialize (IH (pre ++ [c]) s' Hs').
      rewrite <- app_assoc in IH. cbn [app] in IH.
      rewrite length_app in IH. cbn [length] in IH.
      replace (Z.of_nat (length pre + 1)) with (len pre + 1) in IH by lia.
      rewrite IH. cbn [length].
      destruct (Z.leb_spec (Z.of_nat left) (len s'));
        destruct (Z.leb_spec (Z.of_nat (S left)) (Z.of_nat (S (length s')))); try lia.
      * f_equal. lia.
      * reflexivity.
Qed.

(** X22.  [ConstexprStrnlen] returns the index of the first terminator,
    or [maxLen] when there is none before it; on an array that holds no
    terminator it returns [maxLen] as long as that is within the array,
    and reads past the array otherwise. *)
Theorem ConstexprStrnlen_stops_at_terminator_or_bound (s rest : list Z) (maxLen : Z) :
  no_nul s -> 0 <= maxLen ->
  Meta.ConstexprStrnlen (s ++ 0 :: rest) maxLen
    = Some (Meta.ConstexprMin (len s) maxLen) /\
  Meta.ConstexprStrnlen s maxLen
    = if maxLen <=? len s then Some maxLen else None.
Proof.
  intros Hs Hm. unfold Meta.ConstexprStrnlen, Meta.ConstexprMin. split.
  - rewrite (strnlen_loop_text [] s rest _ Hs). cbn [length]. f_equal.
    rewrite Z2Nat.id by assumption.
    destruct (Z.ltb_spec (len s) maxLen); lia.
  - rewrite (strnlen_loop_no_terminator [] s _ Hs). cbn [length].
    rewrite Z2Nat.id by assumption.
    destruct (Z.leb_spec maxLen (len s)); [f_equal; lia | reflexivity].
Qed.

Lemma blank_test (c : Z) : ((c =? 32) || (c =? 9) = true) <-> blank c.
Proof. unfold blank. rewrite orb_true_iff, !Z.eqb_eq. reflexivity. Qed.

Lemma RTrim_loop_spec (n : nat) (buffer : list Z) :
  (n <= length buffer)%nat ->
  exists k : nat,
    (k <= n)%nat /\
    Meta.RTrim_loop n buffer
    = Some (take k buffer ++ replicate (n - k) 0 ++ drop n buffer, Z.of_nat k) /\
    (forall j c, (k <= j < n)%nat -> buffer !! j = Some c -> blank c) /\
    (k = O \/ exists c, buffer !! (k - 1)%nat = Some c /\ ~ blank c).
Proof.
  revert buffer. induction n as [| n IH]; intros buffer Hn.
  - exists O. split; [lia |]. split; [| split; [| now left]].
    + cbn. now rewrite drop_0.
    + intros j c Hj. lia.
  - cbn [Meta.RTrim_loop].
    destruct (lookup_lt_is_Some_2 buffer n ltac:(lia)) as [c Hc].
    rewrite Hc. cbn [mbind option_bind].
    destruct ((c =? 32) || (c =? 9)) eqn:Hblank.
    + apply blank_test in Hblank.
      destruct (IH (<[n := 0]> buffer)) as (k & Hk & Hrun & Hblanks & Hlast).
      { rewrite length_insert. lia. }
      exists k. split; [lia |]. split; [| split].
      * rewrite Hrun. f_equal. f_equal.
        rewrite take_insert_ge by lia. f_equal.
        rewrite drop_insert_ge by lia. rewrite Nat.sub_diag.
        rewrite (drop_S buffer c n Hc). cbn [insert list_insert].
        replace (S n - k)%nat with (S (n - k)) by lia.
        rewrite replicate_S_end. now rewrite <- app_assoc.
      * intros j c' Hj Hc'. destruct (decide (j = n)) as [-> | Hjn].
        -- congruence.
        -- apply (Hblanks j c'); [lia |].
           now rewrite list_lookup_insert_ne by congruence.
      * destruct Hlast as [-> | (c' & Hc' & Hnb)]; [now left |].
        destruct (decide (k = O)) as [-> | Hk0]; [now left | right].
        exists c'. split; [| assumption].
        now rewrite list_lookup_insert_ne in Hc' by lia.
    + exists (S n). split; [lia |]. split; [| split].
      * rewrite Nat.sub_diag. cbn [replicate app]. now rewrite take_drop.
      * intros j c' Hj. lia.
      * right. exists c. replace (S n - 1)%nat with n by lia.
        split; [assumption |]. intros Hb. apply blank_test in Hb. congruence.
Qed.

(** X23.  [RTrim] ends at the last byte before [len] that is neither a
    space nor a tab: the bytes before the new length are untouched, those
    from there to the old length were blanks and are zero afterwards, the
    rest of the buffer is untouched, and trimming again changes
    nothing. *)
Theorem RTrim_removes_trailing_blanks (buffer : list Z) (len_ : Z) :
  0 <= len_ <= len buffer ->
  exists n,
    0 <= n <= len_ /\
    Meta.RTrim buffer len_
    = Some (slice 0 n buffer ++ replicate (Z.to_nat (len_ - n)) 0
              ++ drop (Z.to_nat len_) buffer, n) /\
    (forall j c, n <= j < len_ -> buffer !! Z.to_nat j = Some c -> c = 32 \/ c = 9) /\
    (n = 0 \/ exists c, buffer !! Z.to_nat (n - 1) = Some c /\ c <> 32 /\ c <> 9) /\
    Meta.RTrim (slice 0 n buffer ++ replicate (Z.to_nat (len_ - n)) 0
                  ++ drop (Z.to_nat len_) buffer) n
    = Some (slice 0 n buffer ++ replicate (Z.to_nat (len_ - n)) 0
              ++ drop (Z.to_nat len_) buffer, n).
Proof.
  intros Hlen. unfold Meta.RTrim.
  destruct (RTrim_loop_spec (Z.to_nat len_) buffer ltac:(lia))
    as (k & Hk & Hrun & Hblanks & Hlast).
  exists (Z.of_nat k). split; [lia |].
  unfold slice. rewrite Nat2Z.id. change (drop (Z.to_nat 0) buffer) with buffer.
  replace (Z.to_nat (len_ - Z.of_nat k)) with (Z.to_nat len_ - k)%nat by lia.
  split; [exact Hrun |]. split; [| split].
  - intros j c Hj Hc. apply (Hblanks (Z.to_nat j) c); [lia | assumption].
  - destruct Hlast as [-> | (c & Hc & Hnb)]; [now left | right].
    exists c. replace (Z.to_nat (Z.of_nat k - 1)) with (k - 1)%nat by lia.
    split; [assumption |]. unfold blank in Hnb. lia.
  - set (buffer' := take k buffer ++ _).
    destruct Hlast as [-> | (c & Hc & Hnb)]; [reflexivity |].
    destruct k as [| k']; [reflexivity |].
    cbn [Meta.RTrim_loop]. replace (S k' - 1)%nat with k' in Hc by lia.
    assert (buffer' !! k' = Some c) as ->.
    { subst buffer'. rewrite lookup_app_l by (rewrite length_take; lia).
      rewrite lookup_take_lt by lia. assumption. }
    cbn [mbind option_bind].
    destruct ((c =? 32) || (c =? 9)) eqn:Hb; [| reflexivity].
    apply blank_test in Hb. contradiction.
Qed.

(* ================================================================== *)
(** ** Meta: qualified names *)
(* ================================================================== *)

Lemma drop_nth (s : list Z) (i : nat) :
  (i < length s)%nat -> drop i s = nth i s 0 :: drop (S i) s.
Proof.
  intros Hi. apply lookup_lt_is_Some_2 in Hi as [x Hx].
  rewrite (nth_lookup_Some _ _ 0 _ Hx). now apply drop_S.
Qed.

Lemma find_colon_loop_step (s : list Z) (i : nat) (d : Z) :
  Meta.find_colon_loop s (S (S i)) d
  = if nth (S i) s 0 =? 62 then Meta.find_colon_loop s (S i) (d + 1)
    else if nth (S i) s 0 =? 60 then Meta.find_colon_loop s (S i) (d - 1)
    else if (nth (S i) s 0 =? 58) && (nth i s 0 =? 58) && (d =? 0)
         then Z.of_nat i
         else Meta.find_colon_loop s (S i) d.
Proof. reflexivity. Qed.

Lemma find_colon_loop_spec (s : list Z) (i : nat) :
  (i <= length s)%nat ->
  let r := Meta.find_colon_loop s i (bracket_depth (drop i s)) in
  (r = Meta.npos /\ forall k, (S k < i)%nat -> ~ top_colon s k) \/
  (exists k, r = Z.of_nat k /\ (S k < i)%nat /\ top_colon s k /\
             forall k', (k < k')%nat -> (S k' < i)%nat -> ~ top_colon s k').
Proof.
  induction i as [| i' IH]; intros Hi r.
  - left. split; [reflexivity |]. intros k Hk. lia.
  - destruct i' as [| i''].
    + left. split; [reflexivity |]. intros k Hk. lia.
    + specialize (IH ltac:(lia)). cbv zeta in IH.
      rewrite (drop_nth s (S i'')) in IH by lia.
      cbn [bracket_depth] in IH.
      subst r. rewrite find_colon_loop_step.
      set (c := nth (S i'') s 0) in *.
      set (d := bracket_depth (drop (S (S i'')) s)) in *.
      assert (forall k, (S k < S (S i''))%nat -> ~ (S k < S i'')%nat -> k = i'') as Hlast
        by (intros; lia).
      assert (forall P : nat -> Prop,
                ~ top_colon s i'' ->
                (forall k, (S k < S i'')%nat -> P k -> ~ top_colon s k) ->
                forall k, (S k < S (S i''))%nat -> P k -> ~ top_colon s k) as Hext.
      { intros P Hno Hrest k Hk HP.
        destruct (decide (S k < S i'')%nat) as [Hlt | Hge]; [now apply Hrest |].
        now rewrite (Hlast k Hk Hge). }
      assert (forall r,
                ~ top_colon s i'' ->
                ((r = Meta.npos /\ forall k, (S k < S i'')%nat -> ~ top_colon s k) \/
                 (exists k, r = Z.of_nat k /\ (S k < S i'')%nat /\ top_colon s k /\
                    forall k', (k < k')%nat -> (S k' < S i'')%nat -> ~ top_colon s k')) ->
                ((r = Meta.npos /\ forall k, (S k < S (S i''))%nat -> ~ top_colon s k) \/
                 (exists k, r = Z.of_nat k /\ (S k < S (S i''))%nat /\ top_colon s k /\
                    forall k', (k < k')%nat -> (S k' < S (S i''))%nat -> ~ top_colon s k')))
        as Hstep.
      { intros r Hno [[Hr Hnone] | (k & Hr & Hk & Htop & Hmax)].
        - left. split; [assumption |].
          intros k Hk. apply (Hext (fun _ => True)); auto.
        - right. exists k. split; [assumption |]. split; [lia |].
          split; [assumption |].
          intros k' Hk' Hlt. apply (Hext (fun k' => (k < k')%nat)); auto. }
      destruct (Z.eqb_spec c 62) as [Hc | Hc].
      { apply Hstep; [| rewrite Z.add_comm; exact IH].
        intros (_ & H58 & _). fold c in H58. lia. }
      destruct (Z.eqb_spec c 60) as [Hc' | Hc'].
      { apply Hstep; [| replace (d - 1) with (-1 + d) by lia; exact IH].
        intros (_ & H58 & _). fold c in H58. lia. }
      rewrite Z.add_0_l in IH.
      destruct ((c =? 58) && (nth i'' s 0 =? 58) && (d =? 0)) eqn:Hfound.
      * apply andb_true_iff in Hfound as [Hfound Hd].
        apply andb_true_iff in Hfound as [Hc58 Hp58].
        apply Z.eqb_eq in Hd, Hc58, Hp58.
        right. exists i''. split; [reflexivity |]. split; [lia |].
        split; [repeat split; assumption |].
        intros k' Hk' Hlt. lia.
      * apply Hstep; [| exact IH].
        intros (Hp58 & Hc58 & Hd). fold c in Hc58. fold d in Hd.
        rewrite Hp58, Hc58, Hd in Hfound. discriminate.
Qed.

Lemma top_colon_in_range (s : list Z) (k : nat) :
  top_colon s k -> (S k < length s)%nat.
Proof.
  intros (_ & H & _). destruct (Nat.lt_ge_cases (S k) (length s)) as [| Hge]; [assumption |].
  rewrite nth_overflow in H by lia. discriminate.
Qed.

Lemma top_colon_split (s : list Z) (k : nat) :
  top_colon s k -> s = take k s ++ [58; 58] ++ drop (S (S k)) s.
Proof.
  intros Htop. pose proof (top_colon_in_range s k Htop) as Hk.
  destruct Htop as (H1 & H2 & _).
  rewrite <- (take_drop k s) at 1. f_equal.
  rewrite (drop_nth s k) by lia. rewrite (drop_nth s (S k)) by lia.
  now rewrite H1, H2.
Qed.

Lemma find_last_top_colon (s : list Z) :
  (Meta.FindLastTopLevelDoubleColon s = Meta.npos /\ forall k, ~ top_colon s k) \/
  (exists k,
     Meta.FindLastTopLevelDoubleColon s = Z.of_nat k /\
     Z.of_nat k + 2 <= len s /\
     top_colon s k /\ forall k', (k < k')%nat -> ~ top_colon s k').
Proof.
  pose proof (find_colon_loop_spec s (length s) (Nat.le_refl _)) as H.
  cbv zeta in H. rewrite drop_all in H. cbn [bracket_depth] in H.
  fold (Meta.FindLastTopLevelDoubleColon s) in H.
  destruct H as [[Hr Hnone] | (k & Hr & Hk & Htop & Hmax)].
  - left. split; [assumption |]. intros k Htop.
    apply (Hnone k); [| assumption]. now apply top_colon_in_range.
  - right. exists k. split; [assumption |]. split; [lia |]. split; [assumption |].
    intros k' Hk' Htop'. apply (Hmax k' Hk'); [| assumption].
    now apply top_colon_in_range.
Qed.

(** X24.  The unqualified name and the namespace that [TypeTraits]
    derives from a qualified name put it back together: either there is
    no top-level ["::"], the unqualified name is the whole name and the
    namespace is empty, or the name is the namespace, ["::"] and the
    unqualified name. *)
Theorem names_split_at_the_last_double_colon (qn : list Z) :
  len qn < Meta.npos ->
  exists unq ns,
    Meta.BuildUnqualifiedName qn = Some unq /\
    Meta.BuildNamespaceName qn unq = Some ns /\
    ((Meta.FindLastTopLevelDoubleColon qn = Meta.npos /\ unq = qn /\ ns = []) \/
     (Meta.FindLastTopLevelDoubleColon qn = len ns /\ qn = ns ++ [58; 58] ++ unq)).
Proof.
  intros Hlen. unfold Meta.BuildUnqualifiedName, Meta.BuildNamespaceName.
  assert (Meta.npos = 2 ^ 64 - 1) as Hnpos by reflexivity.
  destruct (find_last_top_colon qn)
    as [[Hr Hnone] | (k & Hr & Hk & Htop & Hmax)].
  - exists qn, []. rewrite Hr, Z.eqb_refl. cbn [negb].
    split; [reflexivity |]. rewrite Z.eqb_refl. split; [reflexivity |]. now left.
  - exists (drop (S (S k)) qn), (take k qn). rewrite Hr.
    destruct (Z.eqb_spec (Z.of_nat k) Meta.npos) as [E | _]; [lia |]. cbn [negb].
    unfold Meta.substr, LSBFlag.wrap.
    rewrite (Z.mod_small (Z.of_nat k + 2)) by lia.
    destruct (Z.leb_spec (Z.of_nat k + 2) (len qn)); [| lia].
    assert (slice (Z.of_nat k + 2) (Z.min Meta.npos (len qn - (Z.of_nat k + 2))) qn
            = drop (S (S k)) qn) as ->.
    { unfold slice. replace (Z.to_nat (Z.of_nat k + 2)) with (S (S k)) by lia.
      apply take_ge. rewrite length_drop. lia. }
    split; [reflexivity |].
    rewrite length_drop, length_take.
    destruct (Z.eqb_spec (len qn) (Z.of_nat (length qn - S (S k)))) as [E | _]; [lia |].
    replace (len qn - Z.of_nat (length qn - S (S k))) with (Z.of_nat k + 2) by lia.
    rewrite (Z.mod_small (Z.of_nat k + 2)) by lia.
    destruct (Z.leb_spec 2 (Z.of_nat k + 2)); [| lia].
    destruct (Z.leb_spec 0 (len qn)); [| lia].
    replace (Z.of_nat k + 2 - 2) with (Z.of_nat k) by lia.
    rewrite (Z.mod_small (Z.of_nat k)) by lia.
    assert (slice 0 (Z.min (Z.of_nat k) (len qn - 0)) qn = take k qn) as ->.
    { unfold slice. change (drop (Z.to_nat 0) qn) with qn. f_equal. lia. }
    split; [reflexivity |]. right.
    split; [f_equal; lia | now apply top_colon_split].
Qed.

Lemma find_colon_loop_checked_step (s : list Z) (i : nat) (d : Z) :
  Meta.find_colon_loop_checked s (S (S i)) d
  = if nth (S i) s 0 =? 62 then
      if Meta.int_range (d + 1) then Meta.find_colon_loop_checked s (S i) (d + 1)
      else None
    else if nth (S i) s 0 =? 60 then
      if Meta.int_range (d - 1) then Meta.find_colon_loop_checked s (S i) (d - 1)
      else None
    else if (nth (S i) s 0 =? 58) && (nth i s 0 =? 58) && (d =? 0)
         then Some (Z.of_nat i)
         else Meta.find_colon_loop_checked s (S i) d.
Proof. reflexivity. Qed.

(** With [i] characters left to scan and the counter at [d], the counter
    stays within [Z.abs d + i]: no overflow when that is an [int]. *)
Lemma find_colon_loop_no_overflow (s : list Z) (i : nat) (d : Z) :
  Z.abs d + Z.of_nat i < 2 ^ 31 ->
  Meta.find_colon_loop_checked s i d = Some (Meta.find_colon_loop s i d).
Proof.
  revert d. induction i as [| i' IH]; intros d Hd; [reflexivity |].
  destruct i' as [| i'']; [reflexivity |].
  rewrite find_colon_loop_checked_step, find_colon_loop_step.
  assert (Meta.int_range (d + 1) = true /\ Meta.int_range (d - 1) = true) as [-> ->].
  { unfold Meta.int_range. split; apply andb_true_iff; split;
      (apply Z.leb_le || apply Z.ltb_lt); lia. }
  destruct (nth (S i'') s 0 =? 62); [apply IH; lia |].
  destruct (nth (S i'') s 0 =? 60); [apply IH; lia |].
  destruct ((nth (S i'') s 0 =? 58) && (nth i'' s 0 =? 58) && (d =? 0));
    [reflexivity | apply IH; lia].
Qed.

(** X25.  On a string shorter than [2 ^ 31] the [int] that counts the
    brackets cannot overflow, and [FindLastTopLevelDoubleColon] returns
    [npos] exactly when no ["::"] lies outside template arguments -- a
    ["::"] is outside when the text after it has as many ['>'] as ['<'] --
    and otherwise the index of the last one that does.  The counter does
    overflow, on any string, when it stands at [INT_MAX] and a ['>'] is
    read, or at [INT_MIN] and a ['<'] is read. *)
Theorem FindLastTopLevelDoubleColon_finds_the_last (s : list Z) :
  len s < 2 ^ 31 ->
  Meta.find_colon_loop_checked s (length s) 0
  = Some (Meta.FindLastTopLevelDoubleColon s) /\
  (Meta.FindLastTopLevelDoubleColon s = Meta.npos <-> forall k, ~ top_colon s k) /\
  (forall k, top_colon s k ->
     exists k0,
       Meta.FindLastTopLevelDoubleColon s = Z.of_nat k0 /\ (k <= k0)%nat /\
       top_colon s k0 /\ forall k', (k0 < k')%nat -> ~ top_colon s k') /\
  (forall (t : list Z) (i : nat),
     (nth (S i) t 0 = 62 ->
      Meta.find_colon_loop_checked t (S (S i)) (2 ^ 31 - 1) = None) /\
     (nth (S i) t 0 = 60 ->
      Meta.find_colon_loop_checked t (S (S i)) (- 2 ^ 31) = None)).
Proof.
  intros Hlen. split.
  { apply find_colon_loop_no_overflow. cbn [Z.abs]. lia. }
  assert (forall (t : list Z) (i : nat),
            (nth (S i) t 0 = 62 ->
             Meta.find_colon_loop_checked t (S (S i)) (2 ^ 31 - 1) = None) /\
            (nth (S i) t 0 = 60 ->
             Meta.find_colon_loop_checked t (S (S i)) (- 2 ^ 31) = None)) as Hover.
  { intros t i. split; intros Hc; rewrite find_colon_loop_checked_step, Hc;
      reflexivity. }
  assert (Meta.npos = 2 ^ 64 - 1) as Hnpos by reflexivity.
  destruct (find_last_top_colon s) as [[Hr Hnone] | (k0 & Hr & Hk0 & Htop & Hmax)].
  - split; [split; auto |]. split; [| exact Hover].
    intros k Hk. now destruct (Hnone k).
  - split; [| split; [| exact Hover]].
    + split; [intros E; lia |]. intros Hnone. now destruct (Hnone k0).
    + intros k Hk. exists k0. repeat split; try assumption; try apply Htop.
      destruct (Nat.le_gt_cases k k0) as [| Hgt]; [assumption |].
      now destruct (Hmax k Hgt).
Qed.

(* ================================================================== *)
(** ** Meta: removing the class keys *)
(* ================================================================== *)

Lemma list_eqb_eq (a b : list Z) : Meta.list_eqb a b = true <-> a = b.
Proof.
  revert b. induction a as [| x a IH]; intros [| y b]; cbn; try (split; congruence).
  rewrite andb_true_iff, Z.eqb_eq, IH. split; [intros [-> ->]; reflexivity |].
  intros [= -> ->]. auto.
Qed.

Lemma slice_eq_split (s w : list Z) (i : Z) :
  0 <= i -> i + len w <= len s -> slice i (len w) s = w ->
  s = take (Z.to_nat i) s ++ w ++ drop (Z.to_nat (i + len w)) s.
Proof.
  intros Hi Hlen Hw. unfold slice in Hw.
  rewrite <- (take_drop (Z.to_nat i) s) at 1. f_equal.
  rewrite <- (take_drop (Z.to_nat (len w)) (drop (Z.to_nat i) s)) at 1.
  rewrite Hw. f_equal. rewrite drop_drop. f_equal. lia.
Qed.

(** What the pass over the tokens finds at [i]: nothing, or one of the
    four words, which is then what the input holds at [i]. *)
Lemma match_token_spec (input : list Z) (i : Z) :
  Meta.match_token input i Meta.tokens = Some None \/
  exists w, w ∈ words /\
            Meta.match_token input i Meta.tokens = Some (Some (len w)) /\
            i + len w <= len input /\ slice i (len w) input = w.
Proof.
  unfold Meta.tokens.
  assert (forall w tks,
    w ∈ words -> Meta.ConstexprStrnlen (w ++ [0]) 32 = Some (len w) ->
    slice 0 (len w) (w ++ [0]) = w ->
    (Meta.match_token input i tks = Some None \/
     exists w', w' ∈ words /\
            Meta.match_token input i tks = Some (Some (len w')) /\
            i + len w' <= len input /\ slice i (len w') input = w') ->
    (Meta.match_token input i ((w ++ [0]) :: tks) = Some None \/
     exists w', w' ∈ words /\
            Meta.match_token input i ((w ++ [0]) :: tks) = Some (Some (len w')) /\
            i + len w' <= len input /\ slice i (len w') input = w')) as Hstep.
  { intros w tks Hw Hlen Hslice Hrest. cbn [Meta.match_token].
    rewrite Hlen. cbn [mbind option_bind]. rewrite Hslice.
    destruct (Z.leb_spec (i + len w) (len input)) as [Hfit | Hfit]; [| exact Hrest].
    destruct (Meta.list_eqb (slice i (len w) input) w) eqn:E; [| exact Hrest].
    right. exists w. apply list_eqb_eq in E. auto. }
  apply (Hstep [99; 108; 97; 115; 115; 32]); [set_solver | reflexivity | reflexivity |].
  apply (Hstep [115; 116; 114; 117; 99; 116; 32]); [set_solver | reflexivity | reflexivity |].
  apply (Hstep [101; 110; 117; 109; 32]); [set_solver | reflexivity | reflexivity |].
  apply (Hstep [117; 110; 105; 111; 110; 32]); [set_solver | reflexivity | reflexivity |].
  now left.
Qed.

Lemma take_take_le (l : list Z) (n m : nat) :
  (n <= m)%nat -> take n (take m l) = take n l.
Proof. intros. rewrite take_take. f_equal. lia. Qed.

Lemma words_length (w : list Z) : w ∈ words -> 5 <= len w <= 7.
Proof.
  unfold words. rewrite !elem_of_cons, elem_of_nil.
  intros [-> | [-> | [-> | [-> | []]]]]; cbn; lia.
Qed.

Lemma remove_loop_safe (fuel : nat) (input : list Z) (size : Z) :
  forall (i outPos : Z) (out : list Z),
  0 <= i -> 0 <= outPos -> (Z.to_nat (len input - i) <= fuel)%nat ->
  size <= len out ->
  exists out' n,
    Meta.remove_loop fuel input size i outPos out = Some (out', n) /\
    length out' = length out /\
    outPos <= n /\ n - outPos <= Z.max 0 (len input - i) /\
    (n = outPos \/ n + 1 <= size) /\
    take (Z.to_nat outPos) out' = take (Z.to_nat outPos) out /\
    drop (Z.to_nat n) out' = drop (Z.to_nat n) out.
Proof.
  induction fuel as [| fuel IH]; intros i outPos out Hi Ho Hfuel Hsize.
  - cbn [Meta.remove_loop].
    destruct (Z.ltb_spec i (len input)); [lia |]. cbn [andb].
    exists out, outPos. repeat split; lia || reflexivity.
  - cbn [Meta.remove_loop].
    destruct ((i <? len input) && (outPos + 1 <? size)) eqn:Hcond.
    2:{ exists out, outPos. repeat split; lia || reflexivity. }
    apply andb_true_iff in Hcond as [Hlt Hroom].
    apply Z.ltb_lt in Hlt, Hroom.
    destruct (match_token_spec input i) as [-> | (w & Hw & -> & Hfit & _)];
      cbn [mbind option_bind].
    + destruct (lookup_lt_is_Some_2 input (Z.to_nat i) ltac:(lia)) as [c Hc].
      rewrite Hc. cbn [mbind option_bind].
      destruct (Z.ltb_spec outPos (len out)); [| lia].
      destruct (IH (i + 1) (outPos + 1) (<[Z.to_nat outPos := c]> out))
        as (out' & n & Hrun & Hl & Hn1 & Hn2 & Hn3 & Htake & Hdrop);
        try lia.
      { rewrite length_insert. lia. }
      exists out', n. rewrite length_insert in Hl.
      split; [assumption |]. split; [assumption |].
      split; [lia |]. split; [lia |]. split; [right; lia |]. split.
      * rewrite <- (take_take_le out' (Z.to_nat outPos) (Z.to_nat (outPos + 1))) by lia.
        rewrite Htake, take_take_le by lia.
        apply take_insert_ge. lia.
      * rewrite Hdrop. apply drop_insert_lt. lia.
    + pose proof (words_length w Hw) as Hwl.
      destruct (IH (i + len w) outPos out)
        as (out' & n & Hrun & Hl & Hn1 & Hn2 & Hn3 & Htake & Hdrop);
        try lia.
      exists out', n. repeat split; try assumption; lia.
Qed.

(** X26.  [RemoveClassStructEnumTokens] always returns when the buffer
    has the size it is told: it writes at most [outBufferSize - 1] bytes
    and then the terminator, leaves the bytes after the terminator as
    they were, and with [outBufferSize = 0] writes nothing at all. *)
Theorem RemoveClassStructEnumTokens_stays_in_the_buffer (input outBuffer : list Z)
    (outBufferSize : Z) :
  0 <= outBufferSize <= len outBuffer ->
  exists out n,
    Meta.RemoveClassStructEnumTokens input outBuffer outBufferSize = Some (out, n) /\
    length out = length outBuffer /\
    0 <= n <= len input /\
    (outBufferSize = 0 -> n = 0 /\ out = outBuffer) /\
    (0 < outBufferSize -> n < outBufferSize /\ out !! Z.to_nat n = Some 0) /\
    drop (S (Z.to_nat n)) out = drop (S (Z.to_nat n)) outBuffer.
Proof.
  intros Hsize. unfold Meta.RemoveClassStructEnumTokens.
  destruct (remove_loop_safe (length input) input outBufferSize 0 0 outBuffer)
    as (out & n & -> & Hl & Hn1 & Hn2 & Hn3 & _ & Hdrop); try lia.
  cbn [mbind option_bind].
  destruct (Z.ltb_spec n outBufferSize) as [Hlt | Hge].
  - destruct (Z.ltb_spec n (len out)); [| lia].
    eexists _, n. split; [reflexivity |].
    split; [now rewrite length_insert |]. split; [lia |].
    split; [lia |]. split.
    + intros _. split; [assumption |]. apply list_lookup_insert_eq. lia.
    + rewrite drop_insert_lt by lia.
      replace (S (Z.to_nat n)) with (Z.to_nat n + 1)%nat by lia.
      rewrite <- !drop_drop. now rewrite Hdrop.
  - assert (n = 0) as -> by lia. assert (outBufferSize = 0) as -> by lia.
    exists out, 0. split; [reflexivity |]. split; [assumption |].
    split; [lia |]. cbn [Z.to_nat drop] in Hdrop. rewrite !drop_0 in Hdrop. subst out.
    split; [auto |]. split; [lia | reflexivity].
Qed.

Lemma remove_loop_fuel (f1 : nat) (input : list Z) (size : Z) :
  forall (f2 : nat) (i outPos : Z) (out : list Z),
  0 <= i ->
  (Z.to_nat (len input - i) <= f1)%nat -> (Z.to_nat (len input - i) <= f2)%nat ->
  Meta.remove_loop f1 input size i outPos out
  = Meta.remove_loop f2 input size i outPos out.
Proof.
  induction f1 as [| f1 IH]; intros f2 i outPos out Hi H1 H2.
  - destruct f2; cbn [Meta.remove_loop];
      (destruct (Z.ltb_spec i (len input)); [lia | reflexivity]).
  - destruct f2 as [| f2].
    { cbn [Meta.remove_loop].
      destruct (Z.ltb_spec i (len input)); [lia | reflexivity]. }
    cbn [Meta.remove_loop].
    destruct ((i <? len input) && (outPos + 1 <? size)) eqn:Hcond; [| reflexivity].
    apply andb_true_iff in Hcond as [Hlt _]. apply Z.ltb_lt in Hlt.
    destruct (match_token_spec input i) as [-> | (w & Hw & -> & Hfit & _)];
      cbn [mbind option_bind].
    + destruct (input !! Z.to_nat i); cbn [mbind option_bind]; [| reflexivity].
      destruct (outPos <? len out); [| reflexivity].
      apply IH; lia.
    + pose proof (words_length w Hw). apply IH; lia.
Qed.

Lemma slice_app_r (pre s : list Z) (i n : Z) :
  0 <= i -> slice (len pre + i) n (pre ++ s) = slice i n s.
Proof.
  intros Hi. unfold slice. f_equal.
  replace (Z.to_nat (len pre + i)) with (length pre + Z.to_nat i)%nat by lia.
  now rewrite drop_app_add.
Qed.

Lemma match_token_shift (pre s : list Z) (i : Z) (tks : list (list Z)) :
  0 <= i ->
  Meta.match_token (pre ++ s) (len pre + i) tks = Meta.match_token s i tks.
Proof.
  intros Hi. induction tks as [| tk tks IH]; [reflexivity |].
  cbn [Meta.match_token]. destruct (Meta.ConstexprStrnlen tk 32) as [tkLen |];
    cbn [mbind option_bind]; [| reflexivity].
  rewrite slice_app_r, IH, length_app by assumption.
  replace (len pre + i + tkLen <=? Z.of_nat (length pre + length s))
    with (i + tkLen <=? len s); [reflexivity |].
  destruct (Z.leb_spec (i + tkLen) (len s)), (Z.leb_spec (len pre + i + tkLen)
    (Z.of_nat (length pre + length s))); lia || reflexivity.
Qed.

Lemma remove_loop_shift (fuel : nat) (pre s : list Z) (size : Z) :
  forall (i outPos : Z) (out : list Z),
  0 <= i ->
  Meta.remove_loop fuel (pre ++ s) size (len pre + i) outPos out
  = Meta.remove_loop fuel s size i outPos out.
Proof.
  induction fuel as [| fuel IH]; intros i outPos out Hi.
  - cbn [Meta.remove_loop]. rewrite length_app.
    replace (len pre + i <? Z.of_nat (length pre + length s)) with (i <? len s)
      by (destruct (Z.ltb_spec i (len s)),
            (Z.ltb_spec (len pre + i) (Z.of_nat (length pre + length s)));
          lia || reflexivity).
    reflexivity.
  - cbn [Meta.remove_loop]. rewrite length_app.
    replace (len pre + i <? Z.of_nat (length pre + length s)) with (i <? len s)
      by (destruct (Z.ltb_spec i (len s)),
            (Z.ltb_spec (len pre + i) (Z.of_nat (length pre + length s)));
          lia || reflexivity).
    destruct ((i <? len s) && (outPos + 1 <? size)); [| reflexivity].
    rewrite match_token_shift by assumption.
    destruct (match_token_spec s i) as [-> | (w & Hw & -> & _)];
      cbn [mbind option_bind].
    + replace (Z.to_nat (len pre + i)) with (length pre + Z.to_nat i)%nat by lia.
      rewrite lookup_app_r by lia.
      replace (length pre + Z.to_nat i - length pre)%nat with (Z.to_nat i) by lia.
      destruct (s !! Z.to_nat i); cbn [mbind option_bind]; [| reflexivity].
      destruct (outPos <? len out); [| reflexivity].
      rewrite <- Z.add_assoc. apply IH. lia.
    + rewrite <- Z.add_assoc. apply IH. lia.
Qed.

Lemma match_token_word (w s : list Z) :
  w ∈ words -> Meta.match_token (w ++ s) 0 Meta.tokens = Some (Some (len w)).
Proof.
  unfold words. rewrite !elem_of_cons, elem_of_nil.
  assert (forall w' : list Z, slice 0 (len w') (w' ++ s) = w') as Hslice.
  { intros w'. unfold slice. rewrite Nat2Z.id. change (Z.to_nat 0) with 0%nat.
    rewrite drop_0. apply take_app_length. }
  assert (forall (w' : list Z) (n : Z), 0 <= n -> n < len w' ->
            slice 0 n (w' ++ s) = slice 0 n w') as Hshort.
  { intros w' n H0 Hn. unfold slice. change (Z.to_nat 0) with 0%nat.
    rewrite !drop_0. apply take_app_le. lia. }
  unfold Meta.tokens.
  intros [-> | [-> | [-> | [-> | []]]]]; cbn [Meta.match_token];
    repeat match goal with
    | |- context [Meta.ConstexprStrnlen ?tk 32] =>
        let v := eval vm_compute in (Meta.ConstexprStrnlen tk 32) in
        change (Meta.ConstexprStrnlen tk 32) with v
    end; cbn [mbind option_bind].
  all: rewrite ?length_app; cbn [length].
  all: repeat match goal with
       | |- context [(?a <=? ?b)] =>
           destruct (Z.leb_spec a b); [| try lia]; cbn [andb]
       end.
  all: try reflexivity.
Qed.

Lemma token_free_no_match (s : list Z) (i : Z) :
  token_free s -> 0 <= i -> Meta.match_token s i Meta.tokens = Some None.
Proof.
  intros Hfree Hi.
  destruct (match_token_spec s i) as [E | (w & Hw & _ & Hfit & Hslice)]; [assumption |].
  destruct (Hfree (take (Z.to_nat i) s) w (drop (Z.to_nat (i + len w)) s) Hw).
  now apply slice_eq_split.
Qed.

Lemma slice_nil (i : Z) (s : list Z) : slice i 0 s = [].
Proof. reflexivity. Qed.

Lemma slice_cons (i n : Z) (s : list Z) (c : Z) :
  0 <= i -> 0 < n -> s !! Z.to_nat i = Some c ->
  slice i n s = c :: slice (i + 1) (n - 1) s.
Proof.
  intros Hi Hn Hc. unfold slice. rewrite (drop_S s c _ Hc).
  replace (Z.to_nat n) with (S (Z.to_nat (n - 1))) by lia.
  replace (Z.to_nat (i + 1)) with (S (Z.to_nat i)) by lia.
  reflexivity.
Qed.

Lemma remove_loop_copy (fuel : nat) (s : list Z) (size : Z) :
  token_free s -> 1 <= size ->
  forall (i : Z) (out : list Z),
  0 <= i <= Z.min (len s) (size - 1) ->
  (Z.to_nat (len s - i) <= fuel)%nat -> size <= len out ->
  Meta.remove_loop fuel s size i i out
  = Some (take (Z.to_nat i) out
            ++ slice i (Z.min (len s) (size - 1) - i) s
            ++ drop (Z.to_nat (Z.min (len s) (size - 1))) out,
          Z.min (len s) (size - 1)).
Proof.
  intros Hfree Hsize. set (n := Z.min (len s) (size - 1)).
  assert (forall i out, i = n ->
            Some (out, i) = Some (take (Z.to_nat i) out ++ slice i (n - i) s
                                    ++ drop (Z.to_nat n) out, n)) as Hdone.
  { intros i out ->. rewrite Z.sub_diag, slice_nil. cbn [app].
    now rewrite take_drop. }
  induction fuel as [| fuel IH]; intros i out Hi Hfuel Hout.
  - cbn [Meta.remove_loop].
    destruct (Z.ltb_spec i (len s)); [lia |]. cbn [andb]. apply Hdone. lia.
  - cbn [Meta.remove_loop].
    destruct ((i <? len s) && (i + 1 <? size)) eqn:Hcond.
    2:{ apply Hdone. apply andb_false_iff in Hcond as [H | H];
          apply Z.ltb_ge in H; lia. }
    apply andb_true_iff in Hcond as [Hlt Hroom]. apply Z.ltb_lt in Hlt, Hroom.
    rewrite token_free_no_match by (assumption || lia). cbn [mbind option_bind].
    destruct (lookup_lt_is_Some_2 s (Z.to_nat i) ltac:(lia)) as [c Hc].
    rewrite Hc. cbn [mbind option_bind].
    destruct (Z.ltb_spec i (len out)); [| lia].
    rewrite IH by (rewrite ?length_insert; lia). f_equal. f_equal.
    replace (Z.to_nat (i + 1)) with (S (Z.to_nat i)) by lia.
    rewrite (take_S_r _ _ c) by (apply list_lookup_insert_eq; lia).
    rewrite take_insert_ge by lia. rewrite drop_insert_lt by lia.
    rewrite (slice_cons i (n - i) s c) by (assumption || (unfold n; lia)).
    rewrite <- app_assoc. cbn [app].
    now replace (n - (i + 1)) with (n - i - 1) by lia.
Qed.

Lemma Remove_leading_word (w s outBuffer : list Z) (outBufferSize : Z) :
  w ∈ words ->
  Meta.RemoveClassStructEnumTokens (w ++ s) outBuffer outBufferSize
  = Meta.RemoveClassStructEnumTokens s outBuffer outBufferSize.
Proof.
  intros Hw. unfold Meta.RemoveClassStructEnumTokens. f_equal.
  pose proof (words_length w Hw) as Hwl.
  assert (exists f, length (w ++ s) = S f /\ (length s <= f)%nat) as (f & -> & Hf).
  { exists (length (w ++ s) - 1)%nat. rewrite length_app. lia. }
  cbn [Meta.remove_loop]. rewrite length_app.
  destruct (Z.ltb_spec 0 (Z.of_nat (length w + length s))); [| lia]. cbn [andb].
  destruct (Z.ltb_spec (0 + 1) outBufferSize) as [Hroom | Hroom].
  - rewrite (match_token_word w s Hw). cbn [mbind option_bind].
    replace (0 + len w) with (len w + 0) by lia.
    rewrite (remove_loop_shift _ w s outBufferSize 0 0 outBuffer) by lia.
    apply remove_loop_fuel; lia.
  - destruct (length s); cbn [Meta.remove_loop];
      (destruct (Z.ltb_spec (0 + 1) outBufferSize); [lia |]);
      now rewrite andb_false_r.
Qed.

Lemma Remove_token_free (s outBuffer : list Z) (outBufferSize : Z) :
  1 <= outBufferSize <= len outBuffer -> token_free s ->
  Meta.RemoveClassStructEnumTokens s outBuffer outBufferSize
  = Some (slice 0 (Z.min (len s) (outBufferSize - 1)) s
            ++ 0 :: drop (S (Z.to_nat (Z.min (len s) (outBufferSize - 1)))) outBuffer,
          Z.min (len s) (outBufferSize - 1)).
Proof.
  intros Hsize Hfree. unfold Meta.RemoveClassStructEnumTokens.
  set (n := Z.min (len s) (outBufferSize - 1)).
  rewrite (remove_loop_copy (length s) s outBufferSize Hfree) by lia.
  fold n. cbn [mbind option_bind].
  destruct (Z.ltb_spec n outBufferSize); [| lia].
  change (Z.to_nat 0) with 0%nat. rewrite take_0, Z.sub_0_r. cbn [app].
  assert (length (slice 0 n s) = Z.to_nat n) as Hl.
  { unfold slice. change (Z.to_nat 0) with 0%nat. rewrite drop_0, length_take. lia. }
  rewrite length_app, Hl, length_drop.
  destruct (Z.ltb_spec n (Z.of_nat (Z.to_nat n + (length outBuffer - Z.to_nat n))));
    [| lia].
  f_equal. f_equal.
  rewrite insert_app_r_alt by lia. f_equal. rewrite Hl, Nat.sub_diag.
  destruct (lookup_lt_is_Some_2 outBuffer (Z.to_nat n) ltac:(lia)) as [y Hy].
  now rewrite (drop_S _ _ _ Hy).
Qed.

(** X27.  [RemoveClassStructEnumTokens] drops a leading ["class "],
    ["struct "], ["enum "] or ["union "] and goes on with the rest, and it
    copies an input in which none of the four occurs unchanged, cut to
    [outBufferSize - 1] bytes and terminated. *)
Theorem RemoveClassStructEnumTokens_strips_and_copies (s outBuffer : list Z)
    (outBufferSize : Z) :
  1 <= outBufferSize <= len outBuffer ->
  (forall w, w ∈ words ->
     Meta.RemoveClassStructEnumTokens (w ++ s) outBuffer outBufferSize
     = Meta.RemoveClassStructEnumTokens s outBuffer outBufferSize) /\
  (token_free s ->
     Meta.RemoveClassStructEnumTokens s outBuffer outBufferSize
     = Some (slice 0 (Z.min (len s) (outBufferSize - 1)) s
               ++ 0 :: drop (S (Z.to_nat (Z.min (len s) (outBufferSize - 1)))) outBuffer,
             Z.min (len s) (outBufferSize - 1))).
Proof.
  intros Hsize. split.
  - intros w Hw. now apply Remove_leading_word.
  - now apply Remove_token_free.
Qed.

Lemma replicate_zeros_cons (n : nat) (rest : list Z) :
  exists rest', replicate n 0 ++ 0 :: rest = 0 :: rest'.
Proof. destruct n; cbn; eauto. Qed.

(** X28.  For a raw type name that holds none of the four class keys, no
    terminator and fewer than 512 bytes, [rawName] is that name without
    its trailing spaces and tabs. *)
Theorem BuildRawName_trims_a_plain_name (rawView : list Z) :
  token_free rawView -> no_nul rawView -> len rawView < 512 ->
  exists name blanks,
    Meta.BuildRawName rawView = Some name /\
    rawView = name ++ blanks /\
    Forall blank blanks /\
    (name = [] \/ exists c, last name = Some c /\ ~ blank c).
Proof.
  intros Hfree Hnul Hlen.
  unfold Meta.BuildRawName, Meta.BuildRawNameArray.
  rewrite Remove_token_free by (rewrite ?length_replicate; assumption || lia).
  rewrite Z.min_l by lia. cbn [mbind option_bind].
  assert (slice 0 (len rawView) rawView = rawView) as ->.
  { unfold slice. change (Z.to_nat 0) with 0%nat.
    rewrite drop_0, Nat2Z.id. apply firstn_all. }
  rewrite Nat2Z.id. set (tail := drop (S (length rawView)) (replicate 512 0)).
  unfold Meta.RTrim. rewrite Nat2Z.id.
  destruct (RTrim_loop_spec (length rawView) (rawView ++ 0 :: tail))
    as (k & Hk & -> & Hblanks & Hlast).
  { rewrite length_app. lia. }
  cbn [mbind option_bind].
  rewrite take_app_le by lia. rewrite drop_app_length.
  destruct (replicate_zeros_cons (length rawView - k) tail) as (rest & Erest).
  rewrite Erest.
  assert (no_nul (take k rawView)) as Hname by now apply Forall_take.
  unfold Meta.ConstexprStrnlen.
  rewrite (strnlen_loop_text [] (take k rawView) rest _ Hname).
  cbn [mbind option_bind length]. rewrite length_take.
  assert (length (take k rawView ++ 0 :: rest) = 512%nat) as Hl512.
  { rewrite <- Erest. rewrite !length_app, length_take, length_replicate.
    cbn [length]. subst tail. rewrite length_drop, length_replicate. lia. }
  rewrite Hl512.
  exists (take k rawView), (drop k rawView).
  split.
  { f_equal.
    match goal with
    | |- slice 0 ?e _ = _ => replace e with (Z.of_nat k) by (cbn [length]; lia)
    end.
    unfold slice. change (Z.to_nat 0) with 0%nat.
    rewrite drop_0, Nat2Z.id. rewrite take_app_le by (rewrite length_take; lia).
    apply take_idemp. }
  split; [symmetry; apply take_drop |]. split.
  - apply Forall_lookup. intros j c Hj. rewrite lookup_drop in Hj.
    apply (Hblanks (k + j)%nat c).
    + apply lookup_lt_Some in Hj. lia.
    + rewrite lookup_app_l by (apply lookup_lt_Some in Hj; lia). assumption.
  - destruct (decide (k = O)) as [-> | Hk0]; [now left |].
    destruct Hlast as [-> | (c & Hc & Hnb)]; [contradiction | right].
    exists c. split; [| assumption].
    rewrite last_lookup, length_take.
    replace (Init.Nat.pred (k `min` length rawView)) with (k - 1)%nat by lia.
    rewrite lookup_take_lt by lia.
    rewrite lookup_app_l in Hc by lia. assumption.
Qed.

(* ================================================================== *)
(** ** Meta: the theorems at work *)
(* ================================================================== *)

(** ["class "], as the token array holds it. *)
Lemma ConstexprStrnlen_stops_at_terminator_or_bound_witness :
  Meta.ConstexprStrnlen ([99; 108; 97; 115; 115; 32] ++ 0 :: []) 32
    = Some (Meta.ConstexprMin (len [99; 108; 97; 115; 115; 32]) 32) /\
  Meta.ConstexprStrnlen [99; 108; 97; 115; 115; 32] 32
    = if 32 <=? len [99; 108; 97; 115; 115; 32] then Some 32 else None.
Proof.
  apply (ConstexprStrnlen_stops_at_terminator_or_bound [99; 108; 97; 115; 115; 32] [] 32).
  - repeat constructor; discriminate.
  - lia.
Defined.

(** ["a"], a space and a tab. *)
Lemma RTrim_removes_trailing_blanks_witness :
  exists n,
    Meta.RTrim [97; 32; 9; 0] 3
    = Some (slice 0 n [97; 32; 9; 0] ++ replicate (Z.to_nat (3 - n)) 0
              ++ drop (Z.to_nat 3) [97; 32; 9; 0], n).
Proof.
  destruct (RTrim_removes_trailing_blanks [97; 32; 9; 0] 3) as (n & _ & Hrun & _).
  - cbn. lia.
  - exists n. exact Hrun.
Defined.

(** ["a::b"] *)
Lemma names_split_at_the_last_double_colon_witness :
  exists unq ns,
    Meta.BuildUnqualifiedName [97; 58; 58; 98] = Some unq /\
    Meta.BuildNamespaceName [97; 58; 58; 98] unq = Some ns.
Proof.
  destruct (names_split_at_the_last_double_colon [97; 58; 58; 98])
    as (unq & ns & Hu & Hn & _).
  - vm_compute. reflexivity.
  - exists unq, ns. auto.
Defined.

(** ["struct X"] into a buffer of four bytes. *)
Lemma RemoveClassStructEnumTokens_stays_in_the_buffer_witness :
  exists out n,
    Meta.RemoveClassStructEnumTokens [115; 116; 114; 117; 99; 116; 32; 88]
      (replicate 4 7) 4 = Some (out, n) /\
    length out = length (replicate 4 7 : list Z).
Proof.
  destruct (RemoveClassStructEnumTokens_stays_in_the_buffer
              [115; 116; 114; 117; 99; 116; 32; 88] (replicate 4 7) 4)
    as (out & n & Hrun & Hl & _).
  - cbn. lia.
  - exists out, n. auto.
Defined.

(** ["class X"] and ["X"] into a buffer of eight bytes. *)
Lemma RemoveClassStructEnumTokens_strips_and_copies_witness :
  Meta.RemoveClassStructEnumTokens ([99; 108; 97; 115; 115; 32] ++ [88])
    (replicate 8 0) 8
  = Meta.RemoveClassStructEnumTokens [88] (replicate 8 0) 8.
Proof.
  apply (proj1 (RemoveClassStructEnumTokens_strips_and_copies [88] (replicate 8 0) 8
                  ltac:(cbn; lia))).
  apply elem_of_cons. now left.
Defined.

(** ["int "], as a compiler that pads the name would give it. *)
Lemma BuildRawName_trims_a_plain_name_witness :
  exists name blanks,
    Meta.BuildRawName [105; 110; 116; 32] = Some name /\
    [105; 110; 116; 32] = name ++ blanks.
Proof.
  destruct (BuildRawName_trims_a_plain_name [105; 110; 116; 32])
    as (name & blanks & Hrun & Hsplit & _).
  - intros pre tk post Htk E. apply words_length in Htk.
    apply (f_equal length) in E. rewrite !length_app in E. cbn [length] in E. lia.
  - repeat constructor; discriminate.
  - cbn. lia.
  - exists name, blanks. auto.
Defined.

(** ["a::b<c::d>"] : the ["::"] at index 1 is found, the one between the
    brackets is not. *)
Lemma FindLastTopLevelDoubleColon_finds_the_last_witness :
  Meta.find_colon_loop_checked [97; 58; 58; 98; 60; 99; 58; 58; 100; 62]
    (length [97; 58; 58; 98; 60; 99; 58; 58; 100; 62]) 0
  = Some (Meta.FindLastTopLevelDoubleColon [97; 58; 58; 98; 60; 99; 58; 58; 100; 62]) /\
  (Meta.FindLastTopLevelDoubleColon [97; 58; 58; 98; 60; 99; 58; 58; 100; 62] = Meta.npos
   <-> forall k, ~ top_colon [97; 58; 58; 98; 60; 99; 58; 58; 100; 62] k) /\
  (forall k, top_colon [97; 58; 58; 98; 60; 99; 58; 58; 100; 62] k ->
     exists k0,
       Meta.FindLastTopLevelDoubleColon [97; 58; 58; 98; 60; 99; 58; 58; 100; 62]
         = Z.of_nat k0 /\ (k <= k0)%nat /\
       top_colon [97; 58; 58; 98; 60; 99; 58; 58; 100; 62] k0 /\
       forall k', (k0 < k')%nat -> ~ top_colon [97; 58; 58; 98; 60; 99; 58; 58; 100; 62] k').
Proof.
  destruct (FindLastTopLevelDoubleColon_finds_the_last
              [97; 58; 58; 98; 60; 99; 58; 58; 100; 62])
    as (Hchecked & Hnone & Hlast & _).
  - vm_compute. reflexivity.
  - split; [exact Hchecked |]. split; [exact Hnone | exact Hlast].
Defined.

(* ================================================================== *)
(** ** Meta: the names of template types *)
(* ================================================================== *)

Lemma length_splice (buf s : list Z) (i : Z) :
  0 <= i -> i + len s <= len buf -> length (splice buf i s) = length buf.
Proof.
  intros Hi Hle. unfold splice.
  rewrite !length_app, length_take, length_drop. lia.
Qed.

Lemma splice_nil (buf : list Z) (i : Z) : splice buf i [] = buf.
Proof.
  unfold splice. cbn [length app]. rewrite Z.add_0_r. apply take_drop.
Qed.

Lemma splice_at (pre old post s : list Z) :
  length old = length s ->
  splice (pre ++ old ++ post) (len pre) s = pre ++ s ++ post.
Proof.
  intros Hl. unfold splice. rewrite Nat2Z.id, take_app_length.
  replace (Z.to_nat (len pre + len s)) with (length pre + length old)%nat by lia.
  rewrite drop_app_add, drop_app_length. reflexivity.
Qed.

Lemma splice_splice (buf s t : list Z) (i : Z) :
  0 <= i -> i + len s + len t <= len buf ->
  splice (splice buf i s) (i + len s) t = splice buf i (s ++ t).
Proof.
  intros Hi Hle.
  rewrite <- (take_drop (Z.to_nat i) buf).
  rewrite <- (take_drop (length s) (drop (Z.to_nat i) buf)).
  rewrite <- (take_drop (length t) (drop (length s) (drop (Z.to_nat i) buf))).
  set (pre := take (Z.to_nat i) buf).
  set (o1 := take (length s) _). set (o2 := take (length t) _). set (post := drop (length t) _).
  assert (len pre = i) as Hpre by (unfold pre; rewrite length_take; lia).
  assert (length o1 = length s) as H1
    by (unfold o1; rewrite length_take, length_drop; lia).
  assert (length o2 = length t) as H2
    by (unfold o2; rewrite length_take, !length_drop; lia).
  rewrite <- Hpre.
  rewrite (splice_at pre o1 (o2 ++ post) s H1).
  replace (len pre + len s) with (len (pre ++ s)) by (rewrite length_app; lia).
  rewrite (app_assoc pre s), (splice_at (pre ++ s) o2 post t H2).
  rewrite (app_assoc o1 o2 post), (splice_at pre (o1 ++ o2) post (s ++ t))
    by (rewrite !length_app; lia).
  now rewrite <- !app_assoc.
Qed.

Lemma write_splice (buf : list Z) (off pos c : Z) :
  0 <= off + pos < len buf ->
  Meta.write buf off pos c = Some (splice buf (off + pos) [c]).
Proof.
  intros H. unfold Meta.write.
  destruct (Z.leb_spec 0 (off + pos)); [| lia].
  destruct (Z.ltb_spec (off + pos) (len buf)); [| lia].
  cbn [andb]. f_equal. unfold splice. cbn [length].
  rewrite insert_take_drop by lia. cbn [app]. do 3 f_equal. lia.
Qed.

Lemma copy_loop_fits (src buf : list Z) (off maxLen pos : Z) :
  0 <= off + pos -> pos + len src < maxLen -> off + maxLen <= len buf ->
  Meta.copy_loop src buf off maxLen pos
  = Some (splice buf (off + pos) src, pos + len src).
Proof.
  revert buf pos. induction src as [| c src IH]; intros buf pos H0 Hfit Hbuf.
  - cbn [Meta.copy_loop length]. rewrite splice_nil. do 2 f_equal. lia.
  - cbn [Meta.copy_loop]. cbn [length] in Hfit.
    destruct (Z.ltb_spec (pos + 1) maxLen); [| lia].
    rewrite write_splice by lia. cbn [mbind option_bind].
    rewrite IH; try lia.
    2: { rewrite length_splice; cbn [length]; lia. }
    replace (off + (pos + 1)) with (off + pos + len [c]) by (cbn [length]; lia).
    rewrite splice_splice by (cbn [length]; lia).
    cbn [app length]. do 2 f_equal. lia.
Qed.

Lemma args_fold_fits (args : list (list Z)) (buf : list Z) (off maxLen pos : Z) :
  0 <= off + pos -> pos + len (after_first args) < maxLen ->
  off + maxLen <= len buf ->
  Meta.args_fold args buf off maxLen pos false
  = Some (splice buf (off + pos) (after_first args),
          pos + len (after_first args), false).
Proof.
  revert buf pos. induction args as [| a args IH]; intros buf pos H0 Hfit Hbuf.
  - cbn. rewrite splice_nil. do 3 f_equal. lia.
  - unfold after_first in *. cbn [map concat] in *. fold (after_first args) in *.
    change (44 :: 32 :: a) with ([44; 32] ++ a) in *. 
    rewrite <- !app_assoc in *. rewrite !length_app in Hfit. cbn [length] in Hfit.
    cbn [Meta.args_fold]. unfold Meta.arg_lambda. cbn [negb].
    destruct (Z.ltb_spec (pos + 2) maxLen); [| lia].
    rewrite write_splice by lia. cbn [mbind option_bind].
    rewrite write_splice by (rewrite length_splice; cbn [length]; lia).
    cbn [mbind option_bind].
    replace (off + (pos + 1)) with (off + pos + len [44]) by (cbn [length]; lia).
    rewrite splice_splice by (cbn [length]; lia).
    rewrite copy_loop_fits; try lia.
    2: { rewrite length_splice; cbn [length app]; lia. }
    cbn [mbind option_bind].
    replace (off + (pos + 2)) with (off + pos + len ([44] ++ [32]))
      by (cbn [length app]; lia).
    rewrite splice_splice by (cbn [length app]; lia).
    rewrite IH; try lia.
    2: { rewrite length_splice; rewrite ?length_app; cbn [length]; lia. }
    replace (off + (pos + 2 + len a)) with (off + pos + len (([44] ++ [32]) ++ a))
      by (rewrite ?length_app; cbn [length app]; lia).
    rewrite splice_splice by (rewrite ?length_app; cbn [length app]; lia).
    rewrite <- !app_assoc. do 3 f_equal. rewrite !length_app. cbn [length]. lia.
Qed.

Lemma splice_zeros (n : nat) (s : list Z) :
  (length s <= n)%nat ->
  splice (replicate n 0) 0 s = s ++ replicate (n - length s) 0.
Proof.
  intros Hle. unfold splice. rewrite Z.add_0_l, Nat2Z.id.
  change (take (Z.to_nat 0) (replicate n 0)) with (@nil Z). cbn [app]. f_equal.
  apply drop_replicate.
Qed.

Lemma TemplateArgs_fits (args : list (list Z)) (buf : list Z) (off maxLen : Z) :
  0 <= off -> len (comma_list args) + 2 < maxLen -> off + maxLen <= len buf ->
  Meta.BuildQualifiedTemplateArgs args buf off maxLen
  = Some (splice buf off (60 :: comma_list args ++ [62; 0]),
          len (comma_list args) + 2).
Proof.
  intros Hoff Hfit Hbuf. unfold Meta.BuildQualifiedTemplateArgs.
  destruct (Z.ltb_spec maxLen 2); [lia |].
  rewrite write_splice by lia. cbn [mbind option_bind].
  assert (Meta.args_fold args (splice buf (off + 0) [60]) off maxLen 1 true
          = Some (splice buf off (60 :: comma_list args),
                  1 + len (comma_list args),
                  match args with [] => true | _ => false end)) as ->.
  { rewrite Z.add_0_r. destruct args as [| a rest].
    - cbn. reflexivity.
    - cbn [comma_list] in *. fold (after_first rest) in *.
      rewrite length_app in Hfit.
      cbn [Meta.args_fold]. unfold Meta.arg_lambda. cbn [negb mbind option_bind].
      rewrite copy_loop_fits; try lia.
      2: { rewrite length_splice; cbn [length]; lia. }
      cbn [mbind option_bind].
      replace (off + 1) with (off + len [60]) by (cbn [length]; lia).
      rewrite splice_splice by (cbn [length]; lia).
      rewrite args_fold_fits; try lia.
      2: { rewrite length_splice; rewrite ?length_app; cbn [length]; lia. }
      replace (off + (1 + len a)) with (off + len ([60] ++ a))
        by (rewrite length_app; cbn [length]; lia).
      rewrite splice_splice by (rewrite ?length_app; cbn [length]; lia).
      rewrite <- app_assoc. cbn [app]. do 3 f_equal.
      rewrite length_app. lia. }
  cbn [mbind option_bind].
  destruct (Z.ltb_spec (1 + len (comma_list args) + 1) maxLen); [| lia].
  change (60 :: comma_list args) with ([60] ++ comma_list args).
  rewrite write_splice.
  2: { rewrite length_splice; rewrite ?length_app; cbn [length]; lia. }
  cbn [mbind option_bind].
  destruct (Z.ltb_spec (1 + len (comma_list args) + 1) maxLen); [| lia].
  replace (off + (1 + len (comma_list args)))
    with (off + len ([60] ++ comma_list args))
    by (rewrite length_app; cbn [length]; lia).
  rewrite splice_splice by (rewrite ?length_app; cbn [length]; lia).
  rewrite write_splice.
  2: { rewrite length_splice; rewrite ?length_app; cbn [length]; lia. }
  cbn [mbind option_bind].
  replace (off + (1 + len (comma_list args) + 1))
    with (off + len (([60] ++ comma_list args) ++ [62]))
    by (rewrite !length_app; cbn [length]; lia).
  rewrite splice_splice by (rewrite ?length_app; cbn [length]; lia).
  rewrite <- !app_assoc. cbn [app]. do 2 f_equal. lia.
Qed.

Lemma length_zeros (n : nat) : len (replicate n 0) = Z.of_nat n.
Proof. now rewrite length_replicate. Qed.

Lemma NameArray_fits (base : list Z) (args : list (list Z)) :
  len (template_name base args) < 1024 ->
  Meta.BuildQualifiedNameArray base args
  = Some (template_name base args
          ++ replicate (1024 - length (template_name base args)) 0).
Proof.
  intros Hfit. unfold Meta.BuildQualifiedNameArray. cbv zeta.
  rewrite length_zeros.
  assert (len base < 1024) as Hbase.
  { destruct args; cbn [template_name] in Hfit; [assumption |].
    rewrite length_app in Hfit. lia. }
  rewrite copy_loop_fits by (rewrite ?length_zeros; lia).
  cbn [mbind option_bind]. rewrite !Z.add_0_l.
  destruct args as [| a rest].
  - cbn [length template_name]. change (0 <? Z.of_nat 0) with false. cbv iota. cbn [mbind option_bind].
    rewrite length_splice by (rewrite ?length_zeros; lia). rewrite length_zeros.
    destruct (Z.ltb_spec (len base) (Z.of_nat 1024)); [| lia].
    rewrite write_splice by (rewrite length_splice; rewrite ?length_zeros; lia).
    rewrite Z.add_0_l.
    replace (len base) with (0 + len base) at 1 by lia.
    rewrite splice_splice by (rewrite ?length_zeros; cbn [length]; lia).
    rewrite splice_zeros by (rewrite length_app; cbn [length]; lia).
    rewrite <- app_assoc. do 2 f_equal. cbn [app].
    rewrite length_app. cbn [length].
    replace (1024 - length base)%nat with (S (1024 - (length base + 1))) by lia.
    reflexivity.
  - set (args := a :: rest) in *.
    assert (template_name base args = base ++ 60 :: comma_list args ++ [62]) as Hn
      by reflexivity.
    rewrite Hn in *. rewrite !length_app in Hfit. cbn [length] in Hfit.
    rewrite length_app in Hfit. cbn [length] in Hfit.
    destruct (Z.ltb_spec 0 (len args)); [| unfold args in *; cbn [length] in *; lia].
    rewrite length_splice by (rewrite ?length_zeros; lia). rewrite length_zeros.
    rewrite TemplateArgs_fits; try lia.
    2: { rewrite length_splice; rewrite ?length_zeros; lia. }
    cbn [mbind option_bind].
    replace (len base) with (0 + len base) at 1 by lia.
    rewrite splice_splice.
    2: lia.
    2: { rewrite length_zeros. cbn [length]. rewrite length_app. cbn [length]. lia. }
    rewrite splice_zeros.
    2: { rewrite !length_app. cbn [length]. rewrite length_app. cbn [length]. lia. }
    set (name := base ++ 60 :: comma_list args ++ [62]).
    assert (base ++ 60 :: comma_list args ++ [62; 0] = name ++ [0]) as ->.
    { unfold name. rewrite <- !app_assoc. cbn [app]. rewrite <- !app_assoc. reflexivity. }
    assert (len name = len base + (len (comma_list args) + 2)) as Hlen.
    { unfold name. rewrite !length_app. cbn [length]. rewrite length_app.
      cbn [length]. lia. }
    rewrite <- app_assoc. cbn [app].
    set (tail := replicate (1024 - length (name ++ [0])) 0).
    assert (replicate (1024 - length name) 0 = 0 :: tail) as ->.
    { unfold tail. rewrite length_app. cbn [length].
      replace (1024 - length name)%nat with (S (1024 - (length name + 1))) by lia.
      reflexivity. }
    assert (len (name ++ 0 :: tail) = 1024) as Hl.
    { unfold tail. rewrite !length_app. cbn [length].
      rewrite length_replicate. lia. }
    rewrite Hl, Z.add_0_l, <- Hlen.
    destruct (Z.ltb_spec (len name) 1024); [| lia].
    rewrite write_splice by lia. rewrite Z.add_0_l.
    f_equal. exact (splice_at name [0] tail [0] eq_refl).
Qed.

Lemma write_safe (buf : list Z) (off pos c : Z) :
  0 <= off + pos < len buf ->
  exists b, Meta.write buf off pos c = Some b /\ length b = length buf.
Proof.
  intros H. eexists. split; [apply write_splice; assumption |].
  apply length_splice; cbn [length]; lia.
Qed.

Lemma copy_loop_safe (src buf : list Z) (off maxLen pos : Z) :
  0 <= off + pos -> off + maxLen <= len buf ->
  exists b p,
    Meta.copy_loop src buf off maxLen pos = Some (b, p) /\
    length b = length buf /\ pos <= p <= Z.max pos (maxLen - 1).
Proof.
  revert buf pos. induction src as [| c src IH]; intros buf pos H0 Hbuf.
  - exists buf, pos. repeat split; lia || reflexivity.
  - cbn [Meta.copy_loop]. destruct (Z.ltb_spec (pos + 1) maxLen).
    + destruct (write_safe buf off pos c) as (b1 & -> & Hl1); [lia |].
      cbn [mbind option_bind].
      destruct (IH b1 (pos + 1)) as (b & p & -> & Hl & Hp); try lia.
      exists b, p. repeat split; lia || congruence.
    + exists buf, pos. repeat split; lia || reflexivity.
Qed.

Lemma args_fold_safe (args : list (list Z)) (buf : list Z) (off maxLen pos : Z)
    (first : bool) :
  0 <= off + pos -> off + maxLen <= len buf ->
  exists b p f,
    Meta.args_fold args buf off maxLen pos first = Some (b, p, f) /\
    length b = length buf /\ pos <= p <= Z.max pos (maxLen - 1).
Proof.
  revert buf pos first.
  induction args as [| a args IH]; intros buf pos first H0 Hbuf.
  - exists buf, pos, first. repeat split; lia || reflexivity.
  - cbn [Meta.args_fold]. unfold Meta.arg_lambda.
    assert (exists b1 p1 f1,
              (if negb first
               then if pos + 2 <? maxLen
                    then b1 ← Meta.write buf off pos 44;
                         b2 ← Meta.write b1 off (pos + 1) 32;
                         Some (b2, pos + 2, first)
                    else Some (buf, pos, first)
               else Some (buf, pos, false)) = Some (b1, p1, f1) /\
              length b1 = length buf /\ pos <= p1 <= Z.max pos (maxLen - 1))
      as (b1 & p1 & f1 & -> & Hl1 & Hp1).
    { destruct first; cbn [negb].
      - exists buf, pos, false. repeat split; lia || reflexivity.
      - destruct (Z.ltb_spec (pos + 2) maxLen).
        + destruct (write_safe buf off pos 44) as (c1 & -> & Hc1); [lia |].
          cbn [mbind option_bind].
          destruct (write_safe c1 off (pos + 1) 32) as (c2 & -> & Hc2); [lia |].
          cbn [mbind option_bind].
          exists c2, (pos + 2), false. repeat split; lia || congruence.
        + exists buf, pos, false. repeat split; lia || reflexivity. }
    cbn [mbind option_bind].
    destruct (copy_loop_safe a b1 off maxLen p1) as (b2 & p2 & -> & Hl2 & Hp2);
      try lia.
    cbn [mbind option_bind].
    destruct (IH b2 p2 f1) as (b & p & f & -> & Hl & Hp); try lia.
    exists b, p, f. repeat split; lia || congruence.
Qed.

Lemma TemplateArgs_safe (args : list (list Z)) (buf : list Z) (off maxLen : Z) :
  0 <= off -> off + maxLen <= len buf ->
  exists b n,
    Meta.BuildQualifiedTemplateArgs args buf off maxLen = Some (b, n) /\
    length b = length buf /\ 0 <= n <= Z.max 0 (maxLen - 1).
Proof.
  intros Hoff Hbuf. unfold Meta.BuildQualifiedTemplateArgs.
  destruct (Z.ltb_spec maxLen 2).
  - exists buf, 0. repeat split; lia || reflexivity.
  - destruct (write_safe buf off 0 60) as (b0 & -> & Hl0); [lia |].
    cbn [mbind option_bind].
    destruct (args_fold_safe args b0 off maxLen 1 true) as (b1 & p & f & -> & Hl1 & Hp);
      try lia.
    cbn [mbind option_bind].
    assert (exists b2 p2,
              (if p + 1 <? maxLen
               then b ← Meta.write b1 off p 62; Some (b, p + 1)
               else Some (b1, p)) = Some (b2, p2) /\
              length b2 = length buf /\ 1 <= p2 < maxLen)
      as (b2 & p2 & -> & Hl2 & Hp2).
    { destruct (Z.ltb_spec (p + 1) maxLen).
      - destruct (write_safe b1 off p 62) as (c & -> & Hc); [lia |].
        cbn [mbind option_bind]. exists c, (p + 1). repeat split; lia || congruence.
      - exists b1, p. repeat split; lia || congruence. }
    cbn [mbind option_bind].
    destruct (Z.ltb_spec p2 maxLen); [| lia].
    destruct (write_safe b2 off p2 0) as (b3 & -> & Hl3); [lia |].
    cbn [mbind option_bind]. exists b3, p2. repeat split; lia || congruence.
Qed.

Lemma NameArray_safe (base : list Z) (args : list (list Z)) :
  exists arr p,
    Meta.BuildQualifiedNameArray base args = Some arr /\
    length arr = 1024%nat /\ (p < 1024)%nat /\ arr !! p = Some 0.
Proof.
  unfold Meta.BuildQualifiedNameArray. cbv zeta. rewrite length_zeros.
  destruct (copy_loop_safe base (replicate 1024 0) 0 (Z.of_nat 1024) 0)
    as (b1 & p1 & -> & Hl1 & Hp1); rewrite ?length_zeros; try lia.
  rewrite length_replicate in Hl1.
  cbn [mbind option_bind].
  assert (exists b2 p2,
            (if 0 <? len args
             then '(b, n) ← Meta.BuildQualifiedTemplateArgs args b1 p1 (len b1 - p1);
                  Some (b, p1 + n)
             else Some (b1, p1)) = Some (b2, p2) /\
            length b2 = 1024%nat /\ 0 <= p2 < 1024)
    as (b2 & p2 & -> & Hl2 & Hp2).
  { destruct (0 <? len args).
    - destruct (TemplateArgs_safe args b1 p1 (len b1 - p1)) as (b & n & -> & Hl & Hn);
        try lia.
      cbn [mbind option_bind]. exists b, (p1 + n). repeat split; lia || congruence.
    - exists b1, p1. repeat split; lia || congruence. }
  cbn [mbind option_bind].
  destruct (Z.ltb_spec p2 (len b2)); [| lia].
  unfold Meta.write.
  destruct (Z.leb_spec 0 (0 + p2)); [| lia].
  destruct (Z.ltb_spec (0 + p2) (len b2)); [| lia].
  cbn [andb]. eexists _, (Z.to_nat (0 + p2)). split; [reflexivity |].
  split; [rewrite length_insert; assumption |].
  split; [lia |]. apply list_lookup_insert_eq. lia.
Qed.

Lemma first_terminator (arr : list Z) (p : nat) :
  arr !! p = Some 0 ->
  exists s rest, arr = s ++ 0 :: rest /\ no_nul s /\ (length s <= p)%nat.
Proof.
  revert p. induction arr as [| c arr IH]; intros p Hp; [discriminate |].
  destruct (Z.eq_dec c 0) as [-> | Hc].
  - exists [], arr. repeat split; [constructor | cbn [length]; lia].
  - destruct p as [| p]; [cbn in Hp; congruence |].
    destruct (IH p Hp) as (s & rest & -> & Hs & Hle).
    exists (c :: s), rest. repeat split; [now constructor | cbn [length]; lia].
Qed.

Lemma Name_safe (base : list Z) (args : list (list Z)) :
  exists name rest,
    Meta.BuildQualifiedNameArray base args = Some (name ++ 0 :: rest) /\
    Meta.BuildQualifiedName base args = Some name /\
    no_nul name /\ len name <= 1023.
Proof.
  destruct (NameArray_safe base args) as (arr & p & Harr & Hl & Hp & Hz).
  destruct (first_terminator arr p Hz) as (name & rest & -> & Hname & Hle).
  exists name, rest. split; [assumption |].
  unfold Meta.BuildQualifiedName. rewrite Harr. cbn [mbind option_bind].
  unfold Meta.ConstexprStrnlen.
  rewrite (strnlen_loop_text [] name rest _ Hname). cbn [mbind option_bind length].
  rewrite Nat2Z.id, Z.add_0_l.
  rewrite length_app in *. cbn [length] in *.
  replace (Z.min (len name) (Z.of_nat (length name + S (length rest)))) with (len name)
    by lia.
  rewrite slice_app_l by reflexivity.
  repeat split; [assumption | lia].
Qed.

Lemma no_nul_template_name (base : list Z) (args : list (list Z)) :
  no_nul base -> Forall no_nul args -> no_nul (template_name base args).
Proof.
  intros Hb Ha. unfold no_nul in *. destruct args as [| a rest]; [assumption |].
  cbn [template_name comma_list]. inversion Ha as [| ? ? Ha1 Har]; subst.
  apply Forall_app. split; [assumption |].
  constructor; [discriminate |]. rewrite <- app_assoc.
  apply Forall_app. split; [assumption |].
  apply Forall_app. split; [| repeat constructor; discriminate].
  clear Ha Ha1. induction Har as [| b rest Hb1 Hrest IH]; [constructor |].
  cbn [map concat]. apply Forall_app. split; [| assumption].
  repeat (constructor; [discriminate |]). assumption.
Qed.

Lemma Name_fits (base : list Z) (args : list (list Z)) :
  no_nul base -> Forall no_nul args ->
  len (template_name base args) < 1024 ->
  Meta.BuildQualifiedName base args = Some (template_name base args).
Proof.
  intros Hb Ha Hfit. unfold Meta.BuildQualifiedName.
  rewrite (NameArray_fits base args Hfit). cbn [mbind option_bind].
  pose proof (no_nul_template_name base args Hb Ha) as Hnt.
  set (full := template_name base args) in *.
  replace (1024 - length full)%nat with (S (1023 - length full)) by lia.
  cbn [replicate]. set (rest := replicate (1023 - length full) 0).
  unfold Meta.ConstexprStrnlen.
  rewrite (strnlen_loop_text [] full rest _ Hnt). cbn [mbind option_bind length].
  rewrite Nat2Z.id, Z.add_0_l, length_app. cbn [length].
  rewrite Z.min_l by lia.
  now rewrite slice_app_l by reflexivity.
Qed.

(** X29.  The specialisation for template types always builds its
    qualified and its unqualified name, of at most 1023 characters, in the
    1024-byte array.  From a base name and argument names that hold no
    terminator, and as long as the whole is shorter than 1024, the name is
    the base name alone for a template without arguments and otherwise the
    base name, ['<'], the names of the arguments with [", "] between them,
    and ['>']. *)
Theorem template_name_is_base_and_arguments (base : list Z) (args : list (list Z)) :
  exists name,
    Meta.BuildQualifiedName base args = Some name /\
    Meta.BuildUnqualifiedName_template base args = Some name /\
    len name <= 1023 /\
    (no_nul base -> Forall no_nul args ->
     len (template_name base args) < 1024 ->
     name = template_name base args).
Proof.
  destruct (Name_safe base args) as (name & rest & Harr & Hname & Hnn & Hle).
  exists name. split; [assumption |]. split; [exact Hname |].
  split; [assumption |].
  intros Hb Ha Hfit. rewrite (Name_fits base args Hb Ha Hfit) in Hname.
  congruence.
Qed.

Lemma base_loop_spec (base rest buf : list Z) (j : Z) :
  Forall (fun c => c <> 60) base -> (rest = [] \/ exists r, rest = 60 :: r) ->
  0 <= j -> j + 1 <= len buf ->
  Meta.base_loop (base ++ rest) buf j
  = Some (splice buf j (take (Z.to_nat (len buf - 1 - j)) base),
          j + Z.min (len base) (len buf - 1 - j)).
Proof.
  intros Hbase Hrest. revert buf j.
  induction Hbase as [| c base Hc Hbase IH]; intros buf j Hj Hbuf.
  - rewrite take_nil, splice_nil. cbn [app length].
    replace (j + Z.min (Z.of_nat 0) (len buf - 1 - j)) with j by lia.
    destruct Hrest as [-> | (r & ->)]; reflexivity.
  - cbn [app Meta.base_loop].
    destruct (Z.eqb_spec c 60); [contradiction |]. cbn [negb andb].
    destruct (Z.ltb_spec (j + 1) (len buf)).
    + rewrite write_splice by lia. cbn [mbind option_bind].
      rewrite IH; rewrite ?length_splice; cbn [length]; try lia.
      rewrite Z.add_0_l.
      replace (Z.to_nat (len buf - 1 - j)) with (S (Z.to_nat (len buf - 1 - (j + 1))))
        by lia.
      cbn [take].
      replace (j + 1) with (j + len [c]) at 1 by (cbn [length]; lia).
      rewrite splice_splice.
      * cbn [app]. do 2 f_equal. lia.
      * lia.
      * rewrite length_take. cbn [length]. lia.
    + replace (Z.to_nat (len buf - 1 - j)) with O by lia.
      cbn [take]. rewrite splice_nil. do 2 f_equal. lia.
Qed.

Lemma BaseArray_spec (base rest : list Z) :
  Forall (fun c => c <> 60) base -> (rest = [] \/ exists r, rest = 60 :: r) ->
  Meta.BuildQualifiedBaseArray (base ++ rest)
  = Some (take 511 base ++ 0 :: replicate (511 - length (take 511 base)) 0).
Proof.
  intros Hbase Hrest. unfold Meta.BuildQualifiedBaseArray.
  rewrite (base_loop_spec base rest _ 0 Hbase Hrest);
    rewrite ?length_zeros; try lia.
  cbn [mbind option_bind].
  change (Z.to_nat (Z.of_nat 512 - 1 - 0)) with 511%nat.
  set (b := take 511 base).
  assert (length b <= 511)%nat as Hb by (unfold b; rewrite length_take; lia).
  assert (0 + Z.min (len base) (Z.of_nat 512 - 1 - 0) = len b) as ->
    by (unfold b; rewrite length_take; lia).
  rewrite splice_zeros by lia.
  rewrite length_app, length_replicate.
  destruct (Z.ltb_spec (len b) (Z.of_nat (length b + (512 - length b)))); [| lia].
  rewrite write_splice by (rewrite length_app, length_replicate; lia).
  rewrite Z.add_0_l. f_equal.
  replace (512 - length b)%nat with (S (511 - length b)) by lia.
  exact (splice_at b [0] (replicate (511 - length b) 0) [0] eq_refl).
Qed.

(** X30.  The qualified base name of a template type is the part of
    its raw name before the first ['<'], cut to the 511 characters that
    fit the array before its terminator. *)
Theorem base_name_is_the_part_before_the_bracket (base rest : list Z) :
  no_nul base -> Forall (fun c => c <> 60) base ->
  (rest = [] \/ exists r, rest = 60 :: r) ->
  Meta.BuildQualifiedBaseName (base ++ rest) = Some (take 511 base).
Proof.
  intros Hnn Hbase Hrest. unfold Meta.BuildQualifiedBaseName.
  rewrite (BaseArray_spec base rest Hbase Hrest). cbn [mbind option_bind].
  set (b := take 511 base). set (zeros := replicate _ 0).
  assert (no_nul b) as Hnb by (apply Forall_take; assumption).
  unfold Meta.ConstexprStrnlen.
  rewrite (strnlen_loop_text [] b zeros _ Hnb). cbn [mbind option_bind length].
  rewrite Nat2Z.id, Z.add_0_l, !length_app. cbn [length].
  rewrite Z.min_l by lia.
  now rewrite slice_app_l by reflexivity.
Qed.

(** ["s::v<i>"]: base ["s::v"]; and ["v"] with the arguments ["int"] and
    ["a<b>"]: ["v<int, a<b>>"]. *)
Lemma template_name_is_base_and_arguments_witness :
  Meta.BuildQualifiedName [118] [[105; 110; 116]; [97; 60; 98; 62]]
  = Some [118; 60; 105; 110; 116; 44; 32; 97; 60; 98; 62; 62].
Proof.
  destruct (template_name_is_base_and_arguments
              [118] [[105; 110; 116]; [97; 60; 98; 62]])
    as (name & Hq & _ & _ & Hfit).
  rewrite Hq. f_equal. apply Hfit.
  - repeat constructor; discriminate.
  - repeat constructor; discriminate.
  - vm_compute. reflexivity.
Defined.

Lemma base_name_is_the_part_before_the_bracket_witness :
  Meta.BuildQualifiedBaseName ([115; 58; 58; 118] ++ [60; 105; 62])
  = Some (take 511 [115; 58; 58; 118]).
Proof.
  apply (base_name_is_the_part_before_the_bracket [115; 58; 58; 118] [60; 105; 62]).
  - repeat constructor; discriminate.
  - repeat constructor; discriminate.
  - right. eexists. reflexivity.
Defined.
